(** * Monte Carlo Shapley estimators of pyDVL

    A shallow embedding of [pydvl/value/shapley/montecarlo.py].

    Conventions of the embedding.
    - Python and numpy floats are idealised as real numbers ([R]); rounding
      is not modelled.  What Python's own arithmetic does with a result
      outside the range of the floats, raising [OverflowError], is
      modelled; numpy's arithmetic does not raise.  Where rounding decides
      a question, the walk and the reduction of the permutation estimator
      are stated a second time on binary64 numbers.
    - A subset handed to the utility is a finite set of item indices
      ([gset nat]); a one-dimensional numpy array is a [list R] and a
      two-dimensional one a list of rows.
    - Code that can raise runs in the monad [M], which also records the
      order of the sampler draws and of the utility calls.
    - The random samplers are replaced by their outcomes: every estimator
      takes the values its sampler yields as an extra argument, indexed by
      the loop iteration that asks for them.
    - Item indices are natural numbers; numpy's negative indices, the
      progress bars, logging and the set-up of the parallel backend have no
      counterpart.  The utility is a total function: exceptions of the
      utility itself are not modelled. *)

From Stdlib Require Import Reals Lra Lia ZArith.
From Stdlib Require PrimFloat Uint63.
From stdpp Require Import base tactics list gmap sets strings.

Open Scope R_scope.

(** ** Exceptions, traces and the monad of the workers *)

Inductive exn : Type :=
  | ValueError (msg : string)
  | ZeroDivisionError
  | IndexError
  | TypeError
  | OverflowError.

Inductive result (A : Type) : Type :=
  | Ok (a : A)
  | Raise (e : exn).
Arguments Ok {A} a.
Arguments Raise {A} e.

(** What a worker does that the outside can see: a subset taken from the
    sampler, and a call of the utility on a subset. *)
Inductive event : Type :=
  | Sampled (s : gset nat)
  | Called (s : gset nat).

Definition M (A : Type) : Type := (list event * result A)%type.

Definition trace {A} (m : M A) : list event := fst m.
Definition outcome {A} (m : M A) : result A := snd m.

#[global] Instance M_ret : MRet M := λ A a, ([], Ok a).

#[global] Instance M_bind : MBind M := λ A B f m,
  match m with
  | (t, Ok a) => let '(t', r) := f a in (t ++ t', r)
  | (t, Raise e) => (t, Raise e)
  end.

Definition raise {A} (e : exn) : M A := ([], Raise e).
Definition tell (ev : event) : M unit := ([ev], Ok tt).

(** A [for] loop whose body may raise; [s] holds the variables the loop
    body assigns to. *)
Fixpoint for_each {A S : Type} (l : list A) (body : A → S → M S) (s : S) : M S :=
  match l with
  | [] => mret s
  | a :: l' => s' ← body a s; for_each l' body s'
  end.

(** Python's [enumerate]. *)
Definition enumerate {A} (l : list A) : list (nat * A) := imap pair l.

(** ** numpy arrays *)

Definition zeros (n : nat) : list R := replicate n 0.
Definition zeros_like (a : list R) : list R := zeros (length a).

(** [a[i]] *)
Definition get_item (a : list R) (i : nat) : M R :=
  match a !! i with
  | Some x => mret x
  | None => raise IndexError
  end.

(** [a[i] = x] *)
Definition set_item (a : list R) (i : nat) (x : R) : M (list R) :=
  if decide (i < length a)%nat then mret (<[i := x]> a) else raise IndexError.

(** [a[i] += x] *)
Definition add_item (a : list R) (i : nat) (x : R) : M (list R) :=
  old ← get_item a i; set_item a i (old + x).

(** [a += b] for one-dimensional arrays: shapes must agree, a one-element
    [b] is broadcast. *)
Definition iadd (a b : list R) : M (list R) :=
  if decide (length b = length a) then mret (zip_with Rplus a b)
  else match b with
       | [x] => mret ((λ y, y + x) <$> a)
       | _ => raise (ValueError "operands could not be broadcast together")
       end.

#[global] Instance R_eq_dec : EqDecision R := Req_dec_T.
#[global] Instance R_lt_dec : RelDecision Rlt := Rlt_dec.
#[global] Instance R_le_dec : RelDecision Rle := Rle_dec.

(** Python's [x / y] on numbers. *)
Definition divide (x y : R) : M R :=
  if decide (y = 0) then raise ZeroDivisionError else mret (x / y).

(** The floats of Python are binary64 numbers, the largest of which is
    [2^1024 - 2^971]: a real number of absolute value [2^1024 - 2^970] or
    more rounds to none of them. *)
Definition float_overflow_bound : R := 2 ^ 1024 - 2 ^ 970.

(** The float that an operation of Python itself returns when its exact
    result is [x]: the quotient of two integers, an integer converted to
    a float, or a power of a float.  These raise [OverflowError] when the
    result is out of range; inside the range the rounding is not
    modelled. *)
Definition to_float (x : R) : M R :=
  if decide (float_overflow_bound <= Rabs x) then raise OverflowError else mret x.

(** ** The utility and its dataset *)

(** Modelled from the spec: the utility and the dataset classes are not
    part of this module.  The dataset has [N] items, its index set is
    [0 .. N-1], every item has a display name, and the utility maps a
    subset of the index set to a score. *)
Record Utility : Type := {
  data_len : nat;
  data_names : nat → string;
  score_of : gset nat → R
}.

(** Modelled from the spec: [u.data.indices], the index set [0 .. N-1] of
    the dataset, which is missing. *)
Definition data_indices (u : Utility) : list nat := seq 0 (data_len u).

(** [u(s)] *)
Definition call (u : Utility) (s : gset nat) : M R :=
  tell (Called s);; mret (score_of u s).

Record MonteCarloResults : Type := {
  values : list R;
  stderr : list R;
  n_samples : option Z
}.

(** [{u.data.data_names[i]: v for i, v in enumerate(a)}]: a later item
    with the same name replaces an earlier one. *)
Definition dict_of_names (u : Utility) (a : list R) : gmap string R :=
  foldl (λ d '(i, v), <[data_names u i := v]> d) ∅ (enumerate a).

(** ** Collaborators that live in other modules *)

(** Modelled from the spec: [utils.numeric.random_powerset] is missing.
    It yields up to [max_subsets] subsets of [pool], none when
    [max_subsets <= 0]; every element of [pool] is in a subset or not
    according to an independent coin.  [draws] holds the outcomes of the
    coins: the k-th subset consists of the elements of [pool] whose coin
    came up heads in the k-th entry. *)
Definition random_powerset (draws : list (gset nat)) (pool : gset nat)
    (max_subsets : Z) : list (gset nat) :=
  (λ heads, heads ∩ pool) <$> take (Z.to_nat max_subsets) draws.

(** Modelled from the spec: [utils.numeric.get_running_avg_variance] is
    missing.  A single-pass Welford update of a running mean and
    (population) variance; the estimators below take the update as a
    parameter, this one instantiates it. *)
Definition welford_update (mean variance new_value count : R) : R * R :=
  let new_mean := (new_value + count * mean) / (count + 1) in
  (new_mean,
   variance + ((new_value - mean) * (new_value - new_mean) - variance) / (count + 1)).

(** Modelled from the spec: [utils.parallel.MapReduceJob] is missing.  The
    mapping function runs once per worker on the input assigned to it,
    the per-worker outputs are handed to the reduction in worker order,
    and a failing worker fails the job.  Workers run concurrently, so
    the job has an outcome but no trace. *)
Fixpoint gather {A} (workers : list (M A)) : result (list A) :=
  match workers with
  | [] => Ok []
  | w :: ws =>
      match outcome w with
      | Ok a => match gather ws with
                | Ok l => Ok (a :: l)
                | Raise e => Raise e
                end
      | Raise e => Raise e
      end
  end.

(** Modelled from the spec: calling a [MapReduceJob], which is missing;
    [workers] are the runs of the mapping function, one per job. *)
Definition map_reduce_job {A B} (workers : list (M A))
    (reduce_func : list A → M B) : result B :=
  match gather workers with
  | Ok outputs => outcome (reduce_func outputs)
  | Raise e => Raise e
  end.

(** [math.comb] *)
Fixpoint comb (n k : nat) : nat :=
  match k with
  | O => 1
  | S k' => match n with
            | O => 0
            | S n' => comb n' k' + comb n' k
            end
  end.

(** [np.setxor1d(a, b, assume_unique=True)] as a set. *)
Definition setxor1d (a b : gset nat) : gset nat := (a ∖ b) ∪ (b ∖ a).

(** [np.mean(m, axis=0)] of a matrix with [n] columns. *)
Definition mean_axis0 (n : nat) (m : list (list R)) : list R :=
  (λ x, x / INR (length m)) <$> foldl (zip_with Rplus) (zeros n) m.

(** [np.std(m, axis=0)]: the root of the mean squared deviation. *)
Definition std_axis0 (n : nat) (m : list (list R)) : list R :=
  let mu := mean_axis0 n m in
  sqrt <$> mean_axis0 n ((λ row, zip_with (λ x c, (x - c) ^ 2) row mu) <$> m).

(** [np.linspace(start=0, stop=stop, num=num)] *)
Definition linspace (stop : R) (num : nat) : list R :=
  (λ k, INR k * (stop / INR (num - 1))) <$> seq 0 num.

(** ** The permutation estimator *)

Section Permutation.
(** [permutation_of k] is what [np.random.permutation(u.data.indices)]
    returns in iteration [k] of the worker. *)
Variable permutation_of : nat → list nat.

(** The inner loop: one walk along a permutation. *)
Definition walk_permutation (u : Utility) (permutation : list nat) : M (list R) :=
  let n := data_len u in
  '(marginals, _) ← for_each (enumerate permutation)
    (λ '(i, idx) '(marginals, prev_score),
       score ← call u (list_to_set (take (S i) permutation));
       marginals ← set_item marginals idx (score - prev_score);
       mret (marginals, score))
    (zeros n, 0);
  mret marginals.

Definition _permutation_montecarlo_marginals (u : Utility)
    (max_permutations : Z) : M (list (list R)) :=
  let n := data_len u in
  if decide (max_permutations < 0)%Z
  then raise (ValueError "negative dimensions are not allowed")
  else
    for_each (seq 0 (Z.to_nat max_permutations))
      (λ iter_idx values,
         marginals ← walk_permutation u (permutation_of iter_idx);
         mret (<[iter_idx := marginals]> values))
      (replicate (Z.to_nat max_permutations) (zeros n)).
End Permutation.

(** [max(1, max_iterations // n_jobs)] *)
Definition iterations_per_job (max_iterations : Z) (n_jobs : nat) : M Z :=
  if decide (n_jobs = 0%nat) then raise ZeroDivisionError
  else mret (Z.max 1 (max_iterations / Z.of_nat n_jobs)).

(** What [permutation_montecarlo_shapley] does with the concatenated
    sample matrix. *)
Definition reduce_samples (u : Utility) (full_results : list (list R))
    : list R * list R :=
  let n := data_len u in
  let acc := mean_axis0 n full_results in
  let acc_std := (λ x, x / sqrt (INR (length full_results))) <$> std_axis0 n full_results in
  (acc, acc_std).

(** The input is replicated: each of the [n_jobs] workers draws its own
    permutations, [permutations j] being those of worker [j]. *)
Definition permutation_samples (permutations : nat → nat → list nat)
    (u : Utility) (max_iterations : Z) (n_jobs : nat) : result (list (list R)) :=
  match outcome (iterations_per_job max_iterations n_jobs) with
  | Raise e => Raise e
  | Ok per_job =>
      map_reduce_job
        ((λ j, _permutation_montecarlo_marginals (permutations j) u per_job) <$> seq 0 n_jobs)
        (λ outputs, mret (concat outputs))
  end.

(** [sort_values] (module [reporting.scores]) only reorders the first
    mapping for presentation; as finite maps both are unordered. *)
Definition permutation_montecarlo_shapley (permutations : nat → nat → list nat)
    (u : Utility) (max_iterations : Z) (n_jobs : nat)
    : result (gmap string R * gmap string R) :=
  match permutation_samples permutations u max_iterations n_jobs with
  | Raise e => Raise e
  | Ok full_results =>
      let '(acc, acc_std) := reduce_samples u full_results in
      Ok (dict_of_names u acc, dict_of_names u acc_std)
  end.

(** ** The permutation estimator on binary64 numbers *)

(** The walk of the worker and the mean of the reduction once more, with
    the binary64 numbers of the code in place of the reals and the
    arithmetic of IEEE 754 in place of the exact one. *)
Record FloatUtility : Type := {
  float_data_len : nat;
  float_score_of : gset nat → PrimFloat.float
}.

(** The float of a small natural number. *)
Definition float_of_nat (n : nat) : PrimFloat.float :=
  PrimFloat.of_uint63 (Uint63.of_Z (Z.of_nat n)).

Definition float_zeros (n : nat) : list PrimFloat.float :=
  replicate n (float_of_nat 0).

Definition float_call (u : FloatUtility) (s : gset nat) : M PrimFloat.float :=
  tell (Called s);; mret (float_score_of u s).

Definition float_set_item (a : list PrimFloat.float) (i : nat) (x : PrimFloat.float)
    : M (list PrimFloat.float) :=
  if decide (i < length a)%nat then mret (<[i := x]> a) else raise IndexError.

Definition float_walk_permutation (u : FloatUtility) (permutation : list nat)
    : M (list PrimFloat.float) :=
  let n := float_data_len u in
  '(marginals, _) ← for_each (enumerate permutation)
    (λ '(i, idx) '(marginals, prev_score),
       score ← float_call u (list_to_set (take (S i) permutation));
       marginals ← float_set_item marginals idx (PrimFloat.sub score prev_score);
       mret (marginals, score))
    (float_zeros n, float_of_nat 0);
  mret marginals.

Definition float_permutation_marginals (permutation_of : nat → list nat)
    (u : FloatUtility) (max_permutations : Z) : M (list (list PrimFloat.float)) :=
  let n := float_data_len u in
  if decide (max_permutations < 0)%Z
  then raise (ValueError "negative dimensions are not allowed")
  else
    for_each (seq 0 (Z.to_nat max_permutations))
      (λ iter_idx values,
         marginals ← float_walk_permutation u (permutation_of iter_idx);
         mret (<[iter_idx := marginals]> values))
      (replicate (Z.to_nat max_permutations) (float_zeros n)).

(** [np.mean(m, axis=0)]: the rows are added one after the other. *)
Definition float_mean_axis0 (n : nat) (m : list (list PrimFloat.float))
    : list PrimFloat.float :=
  (λ x, PrimFloat.div x (float_of_nat (length m)))
    <$> foldl (zip_with PrimFloat.add) (float_zeros n) m.

(** The values of [permutation_montecarlo_shapley], in the order of the
    items. *)
Definition float_permutation_values (permutations : nat → nat → list nat)
    (u : FloatUtility) (max_iterations : Z) (n_jobs : nat)
    : result (list PrimFloat.float) :=
  match outcome (iterations_per_job max_iterations n_jobs) with
  | Raise e => Raise e
  | Ok per_job =>
      match map_reduce_job
              ((λ j, float_permutation_marginals (permutations j) u per_job)
                 <$> seq 0 n_jobs)
              (λ outputs, mret (concat outputs)) with
      | Raise e => Raise e
      | Ok full_results => Ok (float_mean_axis0 (float_data_len u) full_results)
      end
  end.

(** ** The combinatorial estimator *)

Section Combinatorial.
(** The online statistics accumulator, [get_running_avg_variance]. *)
Variable get_running_avg_variance : R → R → R → R → R * R.
(** [draws idx] holds the coin outcomes of the sampler created for item
    [idx]; a worker creates at most one sampler per item, since it
    rejects repeated indices. *)
Variable draws : nat → list (gset nat).

(** The body of the inner loop, for a subset [s] sampled for [idx]. *)
Definition accumulate_marginal (u : Utility) (idx : nat) (s : gset nat)
    (st : list R * list R * list R) : M (list R * list R * list R) :=
  let '(values, variances, counts) := st in
  let n := data_len u in
  tell (Sampled s);;
  with_idx ← call u ({[idx]} ∪ s);
  without ← call u s;
  (* the integer math.comb(n - 1, len(s)) is converted to a float *)
  denominator ← to_float (INR (comb (n - 1) (size s)));
  marginal ← divide (with_idx - without) denominator;
  value ← get_item values idx;
  variance ← get_item variances idx;
  count ← get_item counts idx;
  let '(new_value, new_variance) :=
    get_running_avg_variance value variance marginal count in
  values ← set_item values idx new_value;
  variances ← set_item variances idx new_variance;
  counts ← set_item counts idx (count + 1);
  mret (values, variances, counts).

Definition _combinatorial_montecarlo_shapley (indices : list nat)
    (u : Utility) (max_iterations : Z) : M MonteCarloResults :=
  let n := data_len u in
  if decide (length (remove_dups indices) ≠ length indices)
  then raise (ValueError "Repeated indices passed")
  else
    (* 2 ** (n - 1) / n, a quotient of integers: with n = 0 the division
       raises, and so it does when the quotient is no float *)
    quotient ← divide (2 ^ (n - 1)) (INR n);
    correction ← to_float quotient;
    '(values, variances, counts) ← for_each indices
      (λ idx st,
         let subset := setxor1d (list_to_set (data_indices u)) {[idx]} in
         let power_set := random_powerset (draws idx) subset max_iterations in
         for_each power_set (accumulate_marginal u idx) st)
      (zeros n, zeros n, zeros n);
    (* correction**2, a power of a Python float *)
    correction_squared ← to_float (correction ^ 2);
    mret {| values := (λ v, correction * v) <$> values;
            stderr := zip_with (λ w c, sqrt (correction_squared * w / Rmax 1 c))
                        variances counts;
            n_samples := None |}.

(** The reducer of [combinatorial_montecarlo_shapley]. *)
Definition combinatorial_reducer (u : Utility)
    (results_it : list MonteCarloResults) : M MonteCarloResults :=
  let values0 := zeros (data_len u) in
  let stderr0 := zeros_like values0 in
  '(vals, errs) ← for_each results_it
    (λ r '(vals, errs),
       vals ← iadd vals (values r);
       errs ← iadd errs (stderr r);
       mret (vals, errs))
    (values0, stderr0);
  mret {| values := vals; stderr := errs; n_samples := None |}.

(** [chunkify] is how the job splits [u.data.indices] among [n_jobs]
    workers. *)
Definition combinatorial_results (chunkify : list nat → nat → list (list nat))
    (u : Utility) (max_iterations : Z) (n_jobs : nat) : result MonteCarloResults :=
  map_reduce_job
    ((λ chunk, _combinatorial_montecarlo_shapley chunk u max_iterations)
       <$> chunkify (data_indices u) n_jobs)
    (combinatorial_reducer u).

Definition combinatorial_montecarlo_shapley
    (chunkify : list nat → nat → list (list nat))
    (u : Utility) (max_iterations : Z) (n_jobs : nat)
    : result (gmap string R * gmap string R) :=
  match combinatorial_results chunkify u max_iterations n_jobs with
  | Raise e => Raise e
  | Ok results =>
      Ok (dict_of_names u (values results), dict_of_names u (stderr results))
  end.
End Combinatorial.

(** ** Owen sampling *)

Inductive OwenAlgorithm : Type := Full | Halved.

#[global] Instance OwenAlgorithm_eq_dec : EqDecision OwenAlgorithm.
Proof. solve_decision. Defined.

Definition q_stop (method : OwenAlgorithm) : R :=
  match method with Full => 1 | Halved => 1 / 2 end.

Section Owen.
(** [draws k q] holds the coin outcomes of the sampler that a worker
    creates for the [k]-th of its values of [q]. *)
Variable draws : nat → R → list (gset nat).

(** The body of the innermost loop: item [i] of the index set, for the
    subset [s] sampled with probability [q]. *)
Definition owen_update (u : Utility) (method : OwenAlgorithm) (q : R)
    (s : gset nat) (i : nat) (values : list R) : M (list R) :=
  let indices : gset nat := list_to_set (data_indices u) in
  let correction := Rmax (1 / 500) (1 - q) in
  if decide (i ∈ s) then
    if decide (method = Full) then mret values
    else
      let s_complement := indices ∖ s in
      with_i ← call u ({[i]} ∪ s_complement);
      without ← call u s_complement;
      add_item values i ((with_i - without) / correction)
  else
    with_i ← call u ({[i]} ∪ s);
    without ← call u s;
    add_item values i ((with_i - without) / correction).

Definition _owen_sampling_shapley (q_values : list R) (u : Utility)
    (method : OwenAlgorithm) (max_iterations : Z) : M MonteCarloResults :=
  let n := data_len u in
  values ← for_each (enumerate q_values)
    (λ '(k, q) values,
       let power_set :=
         random_powerset (draws k q) (list_to_set (data_indices u)) max_iterations in
       for_each power_set
         (λ s values,
            tell (Sampled s);;
            for_each (data_indices u) (owen_update u method q s) values)
         values)
    (zeros n);
  mret {| values := values;
          stderr := zeros_like values;
          n_samples := Some (Z.of_nat (length q_values) * max_iterations)%Z |}.
End Owen.

(** numpy's [x / 0] raises nothing and is [nan] or an infinity, none of
    them a real number: the model leaves the entry unspecified. *)
Definition np_divide_by_zero (x : R) : R.
Proof. exact x. Qed.

(** numpy's [x / n] for an entry [x] of an array and an integer [n]. *)
Definition np_divide (x : R) (n : Z) : R :=
  if decide (n = 0%Z) then np_divide_by_zero x else x / IZR n.

(** The reducer of [owen_sampling_shapley]. *)
Definition owen_reducer (u : Utility) (results_it : list MonteCarloResults)
    : M MonteCarloResults :=
  '(vals, total) ← for_each results_it
    (λ r '(vals, total),
       vals ← iadd vals (values r);
       match n_samples r with
       | Some samples => mret (vals, (total + samples)%Z)
       | None => raise TypeError
       end)
    (zeros (data_len u), 0%Z);
  (* values /= n_samples: numpy does not raise on a zero count *)
  let vals := (λ v, np_divide v total) <$> vals in
  mret {| values := vals; stderr := zeros_like vals; n_samples := None |}.

(** [chunkify] is how the job splits the values of [q] among [n_jobs]
    workers; [draws j] are the coin outcomes of worker [j]. *)
Definition owen_results (chunkify : list R → nat → list (list R))
    (draws : nat → nat → R → list (gset nat)) (u : Utility)
    (max_iterations : Z) (max_q : Z) (method : OwenAlgorithm) (n_jobs : nat)
    : result MonteCarloResults :=
  if decide (max_q < 0)%Z
  then Raise (ValueError "Number of samples must be non-negative")
  else
    let q_steps := linspace (q_stop method) (Z.to_nat max_q) in
    map_reduce_job
      ((λ '(j, chunk), _owen_sampling_shapley (draws j) chunk u method max_iterations)
         <$> enumerate (chunkify q_steps n_jobs))
      (owen_reducer u).

Definition owen_sampling_shapley (chunkify : list R → nat → list (list R))
    (draws : nat → nat → R → list (gset nat)) (u : Utility)
    (max_iterations : Z) (max_q : Z) (method : OwenAlgorithm) (n_jobs : nat)
    : result (gmap string R * gmap string R) :=
  match owen_results chunkify draws u max_iterations max_q method n_jobs with
  | Raise e => Raise e
  | Ok results =>
      Ok (dict_of_names u (values results), dict_of_names u (stderr results))
  end.

(** ** The truncated estimator: coordinator, workers and the polling loop *)

Module Truncated.

(** Modelled from the spec: the coordinator of module [actor] is
    missing.  It keeps the two stopping thresholds, either of which may
    be absent to switch its criterion off; a run with both absent is
    rejected when the orchestration sets the coordinator up.  A poll
    answers done when the largest standard-deviation-to-value ratio is
    below [value_tolerance] or the number of merged permutations has
    reached [max_iterations], and never before the update of a worker has
    been merged. *)
Record ShapleyCoordinator : Type := {
  value_tolerance : option R;
  max_iterations : option Z
}.

(** Modelled from the spec: the factory of the coordinator, which is
    missing; it rejects a run without any stopping threshold. *)
Definition get_shapley_coordinator (value_tolerance : option R)
    (max_iterations : option Z) : result ShapleyCoordinator :=
  match value_tolerance, max_iterations with
  | None, None =>
      Raise (ValueError "At least one of value_tolerance or max_iterations must be passed")
  | _, _ => Ok {| value_tolerance := value_tolerance;
                  max_iterations := max_iterations |}
  end.

(** Modelled from the spec: what the missing coordinator holds when it is
    polled. *)
Record Snapshot : Type := {
  std_to_value_ratio : R;
  total_iterations : Z;
  current_values : list R;
  current_stderr : list R
}.

(** Modelled from the spec: [check_done] of the missing coordinator.  An
    update merges at least one permutation, so no update has been merged
    as long as [total_iterations] is zero. *)
Definition check_done (c : ShapleyCoordinator) (now : Snapshot) : bool :=
  bool_decide (0 < total_iterations now)%Z
  && (match value_tolerance c with
      | Some tol => bool_decide (std_to_value_ratio now < tol)
      | None => false
      end
      || match max_iterations c with
         | Some budget => bool_decide (budget ≤ total_iterations now)%Z
         | None => false
         end).

(** What the orchestration does that the outside can see. *)
Inductive step : Type :=
  | WorkerCreated (worker_id : nat)
  | WorkerStarted (worker_id : nat)
  | Slept
  | Polled.

Section Orchestration.
(** The workers run concurrently with the loop below, which sees them
    only through the clock and the coordinator: [clock k] is the k-th
    reading of [time()], [snapshot k] the state of the coordinator
    when it is asked for the k-th time (a poll, or the final request
    for the results). *)
Variable clock : nat → R.
Variable snapshot : nat → Snapshot.
(** The factory of the coordinator. *)
Variable make_coordinator : option R → option Z → result ShapleyCoordinator.

(** [while not is_done]: [readings] and [polls] count the readings of
    the clock and the polls so far.  The result is the steps taken and
    the number of polls, or [None] when [fuel] rounds do not end the
    loop. *)
Fixpoint polling_loop (fuel : nat) (c : ShapleyCoordinator)
    (coordinator_update_frequency : R) (readings polls : nat)
    (last_update_time : R) : option (list step * nat) :=
  match fuel with
  | O => None
  | S fuel' =>
      if decide (coordinator_update_frequency < clock readings - last_update_time)
      then
        let is_done := check_done c (snapshot polls) in
        let last_update_time := clock (S readings) in
        if is_done then Some ([Slept; Polled], S polls)
        else
          '(steps, polls') ← polling_loop fuel' c coordinator_update_frequency
                               (S (S readings)) (S polls) last_update_time;
          Some (Slept :: Polled :: steps, polls')
      else
        '(steps, polls') ← polling_loop fuel' c coordinator_update_frequency
                             (S readings) polls last_update_time;
        Some (Slept :: steps, polls')
  end.

(** The result is [None] when [fuel] rounds of the loop do not end it,
    and otherwise the steps taken together with the outcome. *)
Definition truncated_montecarlo_shapley (fuel : nat) (u : Utility)
    (value_tolerance : option R) (max_iterations : option Z)
    (n_jobs : nat) (coordinator_update_frequency : R)
    : option (list step * result (gmap string R * gmap string R)) :=
  match make_coordinator value_tolerance max_iterations with
  | Raise e => Some ([], Raise e)
  | Ok coordinator =>
      let created := WorkerCreated <$> seq 0 n_jobs in
      let started := WorkerStarted <$> seq 0 n_jobs in
      let last_update_time := clock 0 in
      '(steps, polls) ← polling_loop fuel coordinator
                          coordinator_update_frequency 1 0 last_update_time;
      let now := snapshot polls in
      Some (created ++ started ++ steps,
            Ok (dict_of_names u (current_values now),
                dict_of_names u (current_stderr now)))
  end.
End Orchestration.

End Truncated.

(** ** Definitions used in the statements below *)

(** The row a walk along [permutation] produces when no index is out of
    range. *)
Definition marginal_row (u : Utility) (permutation : list nat) : list R :=
  fst (foldl
    (λ (st : list R * R) (p : nat * nat),
       let score := score_of u (list_to_set (take (S (fst p)) permutation)) in
       (<[snd p := score - snd st]> (fst st), score))
    (zeros (data_len u), 0) (enumerate permutation)).

(** A utility on one item, on binary64 numbers: the item scores one
    tenth and the empty set zero. *)
Definition u_tenth : FloatUtility :=
  {| float_data_len := 1;
     float_score_of := λ s,
       if decide (s = ∅) then float_of_nat 0
       else PrimFloat.div (float_of_nat 1) (float_of_nat 10) |}.

(** A utility on one item: the item scores 3 and the empty set zero. *)
Definition u_single : Utility :=
  {| data_len := 1;
     data_names := λ _, "item0"%string;
     score_of := λ s, if decide (s = ∅) then 0 else 3 |}.

(** A utility on one item whose score on the empty set is not zero. *)
Definition u_offset : Utility :=
  {| data_len := 1;
     data_names := λ _, "item0"%string;
     score_of := λ s, if decide (s = ∅) then 1 else 3 |}.

(** The statistics of the spec, one item at a time: the samples of item
    [i] are column [i] of the sample matrix. *)
Definition column (i : nat) (m : list (list R)) : list R :=
  (λ row, match row !! i with Some x => x | None => 0 end) <$> m.

Definition sum_R (l : list R) : R := foldr Rplus 0 l.

Definition mean (l : list R) : R := sum_R l / INR (length l).

Definition std (l : list R) : R :=
  sqrt (mean ((λ x, (x - mean l) ^ 2) <$> l)).

(** Mean of the means of the workers, which the reduction does not use. *)
Definition mean_of_means (i : nat) (mats : list (list (list R))) : R :=
  mean ((λ mat, mean (column i mat)) <$> mats).

(** The combinatorial estimator, one item at a time. *)
Section CombinatorialItems.
Variable get_running_avg_variance : R → R → R → R → R * R.
Variable draws : nat → list (gset nat).

(** The subsets sampled for item [idx]. *)
Definition subsets_for (u : Utility) (max_iterations : Z) (idx : nat)
    : list (gset nat) :=
  random_powerset (draws idx)
    (setxor1d (list_to_set (data_indices u)) {[idx]}) max_iterations.

Definition marginal_of (u : Utility) (idx : nat) (s : gset nat) : R :=
  (score_of u ({[idx]} ∪ s) - score_of u s)
  / INR (comb (data_len u - 1) (size s)).

(** One step of the accumulator on the state (mean, variance, count). *)
Definition feed (st : R * R * R) (x : R) : R * R * R :=
  let '(new_mean, new_variance) :=
    get_running_avg_variance (fst (fst st)) (snd (fst st)) x (snd st) in
  (new_mean, new_variance, snd st + 1).

(** The accumulator after the marginals of all subsets of [idx]. *)
Definition accumulated (u : Utility) (max_iterations : Z) (idx : nat)
    : R * R * R :=
  foldl feed (0, 0, 0) (marginal_of u idx <$> subsets_for u max_iterations idx).

Definition correction_of (u : Utility) : R :=
  2 ^ (data_len u - 1) / INR (data_len u).

Definition item_value (u : Utility) (max_iterations : Z) (idx : nat) : R :=
  correction_of u * fst (fst (accumulated u max_iterations idx)).

Definition item_stderr (u : Utility) (max_iterations : Z) (idx : nat) : R :=
  sqrt (correction_of u ^ 2 * snd (fst (accumulated u max_iterations idx))
        / Rmax 1 (snd (accumulated u max_iterations idx))).
End CombinatorialItems.

(** The vector with [f i] at the items of [indices] and zero elsewhere. *)
Definition on_items (n : nat) (indices : list nat) (f : nat → R) : list R :=
  (λ i, if decide (i ∈ indices) then f i else 0) <$> seq 0 n.

(** Element-wise sum of two results. *)
Definition add_results (r1 r2 : MonteCarloResults) : MonteCarloResults :=
  {| values := zip_with Rplus (values r1) (values r2);
     stderr := zip_with Rplus (stderr r1) (stderr r2);
     n_samples := None |}.

(** Whether [2^(n-1) / n] and its square are below the bound of the
    floats, decided on integers. *)
Definition correction_in_range (n : nat) : bool :=
  let c := (2 ^ Z.of_nat (n - 1))%Z in
  let bound := (2 ^ 1024 - 2 ^ 970)%Z in
  (c <? bound * Z.of_nat n)%Z && (c * c <? bound * (Z.of_nat n * Z.of_nat n))%Z.

(** A utility on three items that is not additive: the square of the
    number of items of the subset. *)
Definition u_square : Utility :=
  {| data_len := 3;
     data_names := λ i, match i with
                        | O => "a"%string
                        | S O => "b"%string
                        | _ => "c"%string
                        end;
     score_of := λ s, INR (size s) ^ 2 |}.

(** The number of calls of the utility in a trace. *)
Definition count_calls (t : list event) : nat :=
  sum_list ((λ ev, match ev with Called _ => 1%nat | Sampled _ => 0%nat end) <$> t).

(** Item [i] is in the non-zero support of the result [r]. *)
Definition nonzero_at (r : MonteCarloResults) (i : nat) : Prop :=
  ∃ x, (values r !! i = Some x ∨ stderr r !! i = Some x) ∧ x ≠ 0.

(** Results with disjoint non-zero support: no item is in the support of
    two of them. *)
Definition disjoint_support (rs : list MonteCarloResults) : Prop :=
  ∀ j k r1 r2 i,
    rs !! j = Some r1 → rs !! k = Some r2 →
    nonzero_at r1 i → nonzero_at r2 i → j = k.

(** The results of two workers on two items, one item each. *)
Definition disjoint_results : list MonteCarloResults :=
  [ {| values := [2; 0]; stderr := [1; 0]; n_samples := None |};
    {| values := [0; 3]; stderr := [0; 1]; n_samples := None |} ].

(** An exception other than [ValueError]. *)
Definition not_value_error (e : exn) : Prop := ∀ msg, e ≠ ValueError msg.

(** What a combinatorial worker returns on [indices], as a vector per
    field. *)
Definition worker_result (acc : R → R → R → R → R * R)
    (draws : nat → list (gset nat)) (u : Utility) (max_iterations : Z)
    (indices : list nat) : MonteCarloResults :=
  {| values := on_items (data_len u) indices (item_value acc draws u max_iterations);
     stderr := on_items (data_len u) indices (item_stderr acc draws u max_iterations);
     n_samples := None |}.

(** A utility on two items: the number of items of the subset. *)
Definition u_count : Utility :=
  {| data_len := 2;
     data_names := λ i, match i with O => "a"%string | _ => "b"%string end;
     score_of := λ s, INR (size s) |}.

(** What the subset [s], sampled with probability [q], adds to the value
    of item [i] in Owen sampling. *)
Definition owen_contribution (u : Utility) (method : OwenAlgorithm) (q : R)
    (s : gset nat) (i : nat) : R :=
  let indices : gset nat := list_to_set (data_indices u) in
  let weight := Rmax (1 / 500) (1 - q) in
  if decide (i ∈ s) then
    match method with
    | Full => 0
    | Halved =>
        (score_of u ({[i]} ∪ indices ∖ s) - score_of u (indices ∖ s)) / weight
    end
  else (score_of u ({[i]} ∪ s) - score_of u s) / weight.

(** The subsets an Owen worker samples for its [k]-th value [q]. *)
Definition owen_subsets (draws : nat → R → list (gset nat)) (u : Utility)
    (max_iterations : Z) (k : nat) (q : R) : list (gset nat) :=
  random_powerset (draws k q) (list_to_set (data_indices u)) max_iterations.

(** The contributions to item [i] of all subsets a worker samples. *)
Definition owen_sum (draws : nat → R → list (gset nat)) (u : Utility)
    (method : OwenAlgorithm) (max_iterations : Z) (q_values : list R) (i : nat) : R :=
  sum_R ((λ kq : nat * R,
            sum_R ((λ s, owen_contribution u method (snd kq) s i)
                     <$> owen_subsets draws u max_iterations (fst kq) (snd kq)))
           <$> enumerate q_values).

(** Adding to every item [i] the number [c x i]. *)
Definition add_contributions {X} (c : X → nat → R) (vals : list R) (x : X) : list R :=
  imap (λ i v, v + c x i) vals.

Definition sum_Z (l : list Z) : Z := foldr Z.add 0%Z l.

(** The sample count a result carries, zero when it carries none. *)
Definition samples_of (r : MonteCarloResults) : Z :=
  match n_samples r with Some samples => samples | None => 0%Z end.

(** The results of two workers that sampled 1 and 3 subsets. *)
Definition uneven_results : list MonteCarloResults :=
  [ {| values := [2]; stderr := [0]; n_samples := Some 1%Z |};
    {| values := [2]; stderr := [0]; n_samples := Some 3%Z |} ].

(** The variables of a walk along [permutation] after its first [k]
    steps: the marginals written so far and the last score. *)
Definition walk_state (u : Utility) (permutation : list nat) (k : nat) : list R * R :=
  foldl
    (λ (st : list R * R) (p : nat * nat),
       let score := score_of u (list_to_set (take (S (fst p)) permutation)) in
       (<[snd p := score - snd st]> (fst st), score))
    (zeros (data_len u), 0) (enumerate (take k permutation)).

(** The calls of the utility in a walk along [permutation]. *)
Definition walk_calls (permutation : list nat) : list event :=
  (λ i, Called (list_to_set (take (S i) permutation))) <$> seq 0 (length permutation).

(** A utility that is the sum of the weights [w] of the items of the
    subset. *)
Definition additive (u : Utility) (w : nat → R) : Prop :=
  score_of u ∅ = 0
  ∧ ∀ (s : gset nat) (i : nat), i ∉ s → score_of u ({[i]} ∪ s) = score_of u s + w i.

(** The number of polls among the steps of the orchestration. *)
Definition count_polls (steps : list Truncated.step) : nat :=
  sum_list ((λ st, match st with Truncated.Polled => 1%nat | _ => 0%nat end)
              <$> steps).

(** A coordinator that has merged five permutations of two items. *)
Definition five_merged : Truncated.Snapshot :=
  {| Truncated.std_to_value_ratio := 0;
     Truncated.total_iterations := 5;
     Truncated.current_values := [1; 2];
     Truncated.current_stderr := [0; 0] |}.

(** The calls of the utility in one round of the innermost loop of the
    Owen worker. *)
Definition owen_calls (u : Utility) (method : OwenAlgorithm) (s : gset nat)
    (i : nat) : list event :=
  let indices : gset nat := list_to_set (data_indices u) in
  if decide (i ∈ s) then
    match method with
    | Full => []
    | Halved => [Called ({[i]} ∪ indices ∖ s); Called (indices ∖ s)]
    end
  else [Called ({[i]} ∪ s); Called s].

(** * Properties *)

(** ** The monad *)

Lemma outcome_bind_ok {A B} (m : M A) (f : A → M B) a :
  outcome m = Ok a → outcome (m ≫= f) = outcome (f a).
Proof.
  destruct m as [t r]; simpl; intros ->.
  unfold mbind, M_bind. by destruct (f a).
Qed.

Lemma outcome_bind_raise {A B} (m : M A) (f : A → M B) e :
  outcome m = Raise e → outcome (m ≫= f) = Raise e.
Proof. destruct m as [t r]; simpl; by intros ->. Qed.

Lemma outcome_ret {A} (a : A) : outcome (mret a) = Ok a.
Proof. done. Qed.

Lemma outcome_call u s {B} (f : R → M B) :
  outcome (call u s ≫= f) = outcome (f (score_of u s)).
Proof. by apply outcome_bind_ok. Qed.

Lemma outcome_tell ev {B} (k : M B) : outcome (tell ev;; k) = outcome k.
Proof. by apply (outcome_bind_ok (tell ev) (λ _, k) tt). Qed.

(** A loop whose body succeeds on every state that satisfies the invariant
    [P] computes a fold. *)
Lemma for_each_pure {A S} (P : S → Prop) (f : A → S → S)
    (l : list A) (body : A → S → M S) (s : S) :
  P s →
  (∀ a s, a ∈ l → P s → outcome (body a s) = Ok (f a s) ∧ P (f a s)) →
  outcome (for_each l body s) = Ok (foldl (λ s a, f a s) s l)
  ∧ P (foldl (λ s a, f a s) s l).
Proof.
  revert s. induction l as [|a l IH]; intros s Hs Hbody; simpl.
  - done.
  - destruct (Hbody a s) as [Hok HP]; [left | done |].
    rewrite (outcome_bind_ok _ _ _ Hok).
    apply IH; [done |]. intros b s' Hb. apply Hbody. by right.
Qed.

Lemma outcome_bind_inv {A B} (m : M A) (f : A → M B) b :
  outcome (m ≫= f) = Ok b → ∃ a, outcome m = Ok a ∧ outcome (f a) = Ok b.
Proof.
  destruct m as [t [a|e]]; simpl; [|done].
  intros H. exists a. split; [done |].
  unfold mbind, M_bind in H. by destruct (f a).
Qed.

(** What a loop that ends normally preserves. *)
Lemma for_each_inv {A S} (P : S → Prop) (l : list A) (body : A → S → M S) (s r : S) :
  P s →
  (∀ a s s', a ∈ l → P s → outcome (body a s) = Ok s' → P s') →
  outcome (for_each l body s) = Ok r → P r.
Proof.
  revert s. induction l as [|a l IH]; intros s Hs Hbody; simpl.
  - by intros [= <-].
  - intros (s' & Hs' & Hr)%outcome_bind_inv.
    apply (IH s'); [| |done].
    + apply (Hbody a s); [by left | done | done].
    + intros b t t' Hb. apply Hbody. by right.
Qed.

Lemma set_item_inv a i x a' :
  outcome (set_item a i x) = Ok a' → a' = <[i := x]> a.
Proof. unfold set_item. destruct (decide _); [by intros [= <-] | done]. Qed.

Lemma gather_fmap {X A} (f : X → M A) (g : X → A) (l : list X) :
  (∀ x, x ∈ l → outcome (f x) = Ok (g x)) → gather (f <$> l) = Ok (g <$> l).
Proof.
  induction l as [|x l IH]; intros H; [done |].
  rewrite !fmap_cons. cbn [gather].
  rewrite H by (by left). rewrite IH; [done |].
  intros y Hy. apply H. by right.
Qed.

Lemma gather_inv {A} (workers : list (M A)) (outputs : list A) :
  gather workers = Ok outputs → Forall2 (λ w a, outcome w = Ok a) workers outputs.
Proof.
  revert outputs. induction workers as [|w ws IH]; intros outputs; simpl.
  - intros [= <-]. constructor.
  - destruct (outcome w) as [a|e] eqn:Hw; [|done].
    destruct (gather ws) as [l|e] eqn:Hws; [|done].
    intros [= <-]. constructor; [done | by apply IH].
Qed.

Lemma outcome_bind_raise_inv {A B} (m : M A) (f : A → M B) e :
  outcome (m ≫= f) = Raise e →
  outcome m = Raise e ∨ ∃ a, outcome m = Ok a ∧ outcome (f a) = Raise e.
Proof.
  destruct m as [t [a|e']]; simpl; [|intros [= ->]; by left].
  intros H. right. exists a. split; [done |].
  unfold mbind, M_bind in H. by destruct (f a).
Qed.

(** A loop raises only what its body raises. *)
Lemma for_each_raises {A S} (Q : exn → Prop) (l : list A) (body : A → S → M S)
    (s : S) (e : exn) :
  (∀ a s e, outcome (body a s) = Raise e → Q e) →
  outcome (for_each l body s) = Raise e → Q e.
Proof.
  intros Hbody. revert s. induction l as [|a l IH]; intros s; simpl; [done |].
  intros [H | (s' & _ & H)]%outcome_bind_raise_inv; [by eapply Hbody | by eapply IH].
Qed.

Lemma get_item_ok a i x : a !! i = Some x → get_item a i = mret x.
Proof. unfold get_item. by intros ->. Qed.

Lemma set_item_ok a i x : (i < length a)%nat → set_item a i x = mret (<[i := x]> a).
Proof. unfold set_item. intros H. by rewrite decide_True. Qed.

Lemma add_item_ok a i old x :
  a !! i = Some old → outcome (add_item a i x) = Ok (<[i := old + x]> a).
Proof.
  intros H. unfold add_item. rewrite (get_item_ok _ _ _ H).
  rewrite (outcome_bind_ok _ _ old); [|done].
  rewrite set_item_ok; [done |]. by eapply lookup_lt_Some.
Qed.

Lemma length_zeros n : length (zeros n) = n.
Proof. apply length_replicate. Qed.

Lemma lookup_zeros n i : (i < n)%nat → zeros n !! i = Some 0.
Proof. intros. by apply lookup_replicate_2. Qed.

(** Writing [g k] at every index [k] of [l], one after the other. *)
Lemma scatter_lookup {X} (g : nat → X) (l : list nat) (init : list X) (i : nat) :
  (∀ k, k ∈ l → (k < length init)%nat) →
  foldl (λ v k, <[k := g k]> v) init l !! i
  = if decide (i ∈ l) then Some (g i) else init !! i.
Proof.
  revert init. induction l as [|a l IH]; intros init Hlt; simpl.
  - destruct (decide (i ∈ [])) as [?%elem_of_nil|]; done.
  - rewrite IH.
    2:{ intros k Hk. rewrite length_insert. apply Hlt. by right. }
    destruct (decide (i ∈ l)) as [Hin|Hin].
    + rewrite decide_True; [done | by right].
    + destruct (decide (i = a)) as [->|Hne].
      * rewrite decide_True; [|by left].
        apply list_lookup_insert_eq. apply Hlt. by left.
      * rewrite decide_False.
        -- by apply list_lookup_insert_ne.
        -- intros [?|?]%elem_of_cons; done.
Qed.

Lemma scatter_length {X} (g : nat → X) (l : list nat) (init : list X) :
  length (foldl (λ v k, <[k := g k]> v) init l) = length init.
Proof.
  revert init. induction l as [|a l IH]; intros init; simpl; [done |].
  by rewrite IH, length_insert.
Qed.

Lemma scatter_seq {X} (g : nat → X) (m : nat) (init : list X) :
  length init = m → foldl (λ v k, <[k := g k]> v) init (seq 0 m) = g <$> seq 0 m.
Proof.
  intros Hlen. apply list_eq. intros i.
  rewrite scatter_lookup.
  2:{ intros k Hk%elem_of_seq. lia. }
  rewrite list_lookup_fmap.
  destruct (decide (i ∈ seq 0 m)) as [Hin|Hin].
  - apply elem_of_seq in Hin. rewrite lookup_seq_lt; [done | lia].
  - rewrite elem_of_seq in Hin.
    rewrite lookup_seq_ge, lookup_ge_None_2; [done | lia | lia].
Qed.

(** ** The permutation estimator *)

Lemma elem_of_enumerate {A} (l : list A) i x :
  (i, x) ∈ enumerate l ↔ l !! i = Some x.
Proof.
  unfold enumerate. rewrite elem_of_lookup_imap. split.
  - intros (j & y & [= -> ->] & H). done.
  - intros H. by exists i, x.
Qed.

(** A walk along a list of indices of the dataset succeeds. *)
Lemma walk_permutation_ok (u : Utility) (permutation : list nat) :
  (∀ idx, idx ∈ permutation → (idx < data_len u)%nat) →
  outcome (walk_permutation u permutation) = Ok (marginal_row u permutation)
  ∧ length (marginal_row u permutation) = data_len u.
Proof.
  intros Hrange. unfold walk_permutation, marginal_row.
  set (f := λ (p : nat * nat) (st : list R * R),
    let score := score_of u (list_to_set (take (S (fst p)) permutation)) in
    (<[snd p := score - snd st]> (fst st), score)).
  destruct (for_each_pure (λ st : list R * R, length (fst st) = data_len u) f
    (enumerate permutation)
    (λ '(i, idx) '(marginals, prev_score),
       score ← call u (list_to_set (take (S i) permutation));
       marginals ← set_item marginals idx (score - prev_score);
       mret (marginals, score))
    (zeros (data_len u), 0)) as [Hok Hlen].
  - simpl. apply length_zeros.
  - intros [i idx] [marginals prev] Hin Hst. simpl in Hst.
    apply elem_of_enumerate in Hin.
    assert (idx < data_len u)%nat as Hidx
      by (apply Hrange; eapply list_elem_of_lookup_2; done).
    rewrite outcome_call, set_item_ok by lia.
    split; [done |]. unfold f; simpl. by rewrite length_insert.
  - rewrite (outcome_bind_ok _ _ _ Hok).
    split; [|done].
    by destruct (foldl _ _ _).
Qed.

(** The worker returns one row per iteration. *)
Lemma permutation_marginals_ok (permutation_of : nat → list nat) (u : Utility)
    (max_permutations : Z) :
  (0 ≤ max_permutations)%Z →
  (∀ k idx, idx ∈ permutation_of k → (idx < data_len u)%nat) →
  outcome (_permutation_montecarlo_marginals permutation_of u max_permutations)
  = Ok ((λ k, marginal_row u (permutation_of k)) <$> seq 0 (Z.to_nat max_permutations)).
Proof.
  intros Hpos Hrange. unfold _permutation_montecarlo_marginals.
  rewrite decide_False by lia.
  set (m := Z.to_nat max_permutations).
  destruct (for_each_pure (λ _ : list (list R), True)
    (λ k values, <[k := marginal_row u (permutation_of k)]> values)
    (seq 0 m)
    (λ iter_idx values,
       marginals ← walk_permutation u (permutation_of iter_idx);
       mret (<[iter_idx := marginals]> values))
    (replicate m (zeros (data_len u)))) as [Hok _]; [done | |].
  - intros k values _ _. split; [|done].
    destruct (walk_permutation_ok u (permutation_of k)) as [Hw _]; [by apply Hrange|].
    by rewrite (outcome_bind_ok _ _ _ Hw).
  - rewrite Hok. f_equal. apply scatter_seq, length_replicate.
Qed.

(** Every row of a matrix a worker returns has one entry per item. *)
Lemma walk_permutation_shape (u : Utility) (permutation : list nat) (row : list R) :
  outcome (walk_permutation u permutation) = Ok row → length row = data_len u.
Proof.
  unfold walk_permutation.
  intros ([marginals prev] & Hloop & Hret)%outcome_bind_inv.
  injection Hret as <-.
  apply (for_each_inv (λ st : list R * R, length (fst st) = data_len u)) in Hloop;
    [done | apply length_zeros |].
  intros [i idx] [m p] [m' p'] _ Hm. simpl in Hm.
  rewrite outcome_call.
  intros (m'' & ->%set_item_inv & [= <- <-])%outcome_bind_inv.
  simpl. by rewrite length_insert.
Qed.

Lemma permutation_marginals_shape (permutation_of : nat → list nat) (u : Utility)
    (max_permutations : Z) (mat : list (list R)) :
  outcome (_permutation_montecarlo_marginals permutation_of u max_permutations) = Ok mat →
  ∀ row, row ∈ mat → length row = data_len u.
Proof.
  unfold _permutation_montecarlo_marginals.
  destruct (decide _); [done |].
  intros Hloop.
  eapply (for_each_inv (λ values : list (list R),
            ∀ row, row ∈ values → length row = data_len u)); [| | exact Hloop].
  - intros row [-> _]%elem_of_replicate. apply length_zeros.
  - intros k values values' _ IH.
    intros (row & Hrow%walk_permutation_shape & [= <-])%outcome_bind_inv.
    intros r Hr. apply list_elem_of_lookup in Hr as [j Hj].
    destruct (decide (j = k)) as [->|Hne].
    + destruct (decide (k < length values)%nat).
      * rewrite list_lookup_insert_eq in Hj by done. by injection Hj as <-.
      * rewrite list_insert_ge in Hj by lia. apply IH. by eapply list_elem_of_lookup_2.
    + rewrite list_lookup_insert_ne in Hj by done.
      apply IH. by eapply list_elem_of_lookup_2.
Qed.

(** *** Column statistics of a sample matrix *)

Lemma colsum_length (rows : list (list R)) (acc : list R) :
  (∀ row, row ∈ rows → length row = length acc) →
  length (foldl (zip_with Rplus) acc rows) = length acc.
Proof.
  revert acc. induction rows as [|row rows IH]; intros acc Hlen; simpl; [done |].
  assert (length (zip_with Rplus acc row) = length acc) as Hz.
  { apply length_zip_with_l_eq. symmetry. apply Hlen. by left. }
  rewrite IH; [done |].
  intros r Hr. rewrite Hz. apply Hlen. by right.
Qed.

Lemma colsum_lookup (rows : list (list R)) (acc : list R) (i : nat) (x : R) :
  (∀ row, row ∈ rows → length row = length acc) →
  acc !! i = Some x →
  foldl (zip_with Rplus) acc rows !! i = Some (x + sum_R (column i rows)).
Proof.
  revert acc x. induction rows as [|row rows IH]; intros acc x Hlen Hx; simpl.
  - rewrite Hx. f_equal. lra.
  - assert (length row = length acc) as Hrow by (apply Hlen; by left).
    destruct (lookup_lt_is_Some_2 row i) as [r Hr].
    { rewrite Hrow. by eapply lookup_lt_Some. }
    rewrite (IH _ (x + r)).
    + rewrite Hr. simpl. f_equal. lra.
    + intros r' Hr'. rewrite length_zip_with_l_eq by done. apply Hlen. by right.
    + rewrite lookup_zip_with, Hx, Hr. done.
Qed.

Lemma mean_axis0_lookup (n : nat) (m : list (list R)) (i : nat) :
  (∀ row, row ∈ m → length row = n) → (i < n)%nat →
  mean_axis0 n m !! i = Some (mean (column i m)).
Proof.
  intros Hlen Hi. unfold mean_axis0, mean.
  rewrite list_lookup_fmap, (colsum_lookup m (zeros n) i 0).
  - simpl. unfold column. rewrite length_fmap. f_equal. f_equal. lra.
  - intros row Hrow. rewrite length_zeros. by apply Hlen.
  - by apply lookup_zeros.
Qed.

Lemma mean_axis0_length (n : nat) (m : list (list R)) :
  (∀ row, row ∈ m → length row = n) → length (mean_axis0 n m) = n.
Proof.
  intros Hlen. unfold mean_axis0. rewrite length_fmap, colsum_length.
  - apply length_zeros.
  - intros row Hrow. rewrite length_zeros. by apply Hlen.
Qed.

Lemma mean_axis0_spec (n : nat) (m : list (list R)) :
  (∀ row, row ∈ m → length row = n) →
  mean_axis0 n m = (λ i, mean (column i m)) <$> seq 0 n.
Proof.
  intros Hlen. apply list_eq. intros i.
  destruct (decide (i < n)%nat) as [Hi|Hi].
  - rewrite mean_axis0_lookup, list_lookup_fmap, lookup_seq_lt by done. done.
  - rewrite !lookup_ge_None_2; [done | |].
    + rewrite length_fmap, length_seq. lia.
    + rewrite mean_axis0_length by done. lia.
Qed.

Lemma std_axis0_spec (n : nat) (m : list (list R)) :
  (∀ row, row ∈ m → length row = n) →
  std_axis0 n m = (λ i, std (column i m)) <$> seq 0 n.
Proof.
  intros Hlen. unfold std_axis0.
  rewrite (mean_axis0_spec n (_ <$> m)).
  2:{ intros row (r & -> & Hr)%list_elem_of_fmap.
      rewrite length_zip_with_l_eq; [by apply Hlen |].
      rewrite mean_axis0_length by done. by apply Hlen. }
  rewrite <-list_fmap_compose. apply list_fmap_ext.
  intros k i [Hki Hi]%lookup_seq. simpl in Hki. subst k. simpl.
  unfold std. f_equal. f_equal.
  unfold column. rewrite <-!list_fmap_compose.
  apply list_fmap_ext. intros j row Hrow. simpl.
  assert (length row = n) as Hrown by (apply Hlen; by eapply list_elem_of_lookup_2).
  destruct (lookup_lt_is_Some_2 row i) as [x Hx]; [lia |].
  rewrite lookup_zip_with, Hx, mean_axis0_lookup by done.
  done.
Qed.

Lemma length_concat_sum {A} (ls : list (list A)) :
  length (concat ls) = sum_list (length <$> ls).
Proof.
  induction ls as [|l ls IH]; simpl; [done |].
  by rewrite length_app, IH.
Qed.

Lemma elem_of_concat {A} (ls : list (list A)) (x : A) :
  x ∈ concat ls ↔ ∃ l, l ∈ ls ∧ x ∈ l.
Proof.
  induction ls as [|l ls IH]; simpl.
  - split; [by intros ?%elem_of_nil | by intros (? & ?%elem_of_nil & _)].
  - rewrite elem_of_app, IH. split.
    + intros [H | (l' & H1 & H2)]; [exists l; split; [by left | done] |].
      exists l'. split; [by right | done].
    + intros (l' & [-> | H1]%elem_of_cons & H2); [by left |].
      right. by exists l'.
Qed.

(** *** The job of the permutation estimator *)

Lemma iterations_per_job_ok (max_iterations : Z) (n_jobs : nat) :
  (1 ≤ n_jobs)%nat →
  outcome (iterations_per_job max_iterations n_jobs)
  = Ok (Z.max 1 (max_iterations / Z.of_nat n_jobs)).
Proof. intros H. unfold iterations_per_job. rewrite decide_False by lia. done. Qed.

Lemma permutation_samples_gathered (permutations : nat → nat → list nat)
    (u : Utility) (max_iterations : Z) (n_jobs : nat) (per_job : Z)
    (mats : list (list (list R))) :
  outcome (iterations_per_job max_iterations n_jobs) = Ok per_job →
  gather ((λ j, _permutation_montecarlo_marginals (permutations j) u per_job)
            <$> seq 0 n_jobs) = Ok mats →
  permutation_samples permutations u max_iterations n_jobs = Ok (concat mats).
Proof.
  intros Hper Hmats. unfold permutation_samples, map_reduce_job.
  by rewrite Hper, Hmats.
Qed.

Lemma reduce_samples_spec (u : Utility) (full : list (list R)) :
  (∀ row, row ∈ full → length row = data_len u) →
  reduce_samples u full
  = ((λ i, mean (column i full)) <$> seq 0 (data_len u),
     (λ i, std (column i full) / sqrt (INR (length full))) <$> seq 0 (data_len u)).
Proof.
  intros Hshape. unfold reduce_samples.
  rewrite mean_axis0_spec, std_axis0_spec by done.
  by rewrite <-list_fmap_compose.
Qed.

(** With indices in range every worker succeeds, and the sample matrix
    has the rows of all walks. *)
Lemma permutation_samples_ok (permutations : nat → nat → list nat)
    (u : Utility) (max_iterations : Z) (n_jobs : nat) :
  (1 ≤ n_jobs)%nat →
  (∀ j k idx, idx ∈ permutations j k → (idx < data_len u)%nat) →
  let per_job := Z.to_nat (Z.max 1 (max_iterations / Z.of_nat n_jobs)) in
  let mats := (λ j, (λ k, marginal_row u (permutations j k)) <$> seq 0 per_job)
                <$> seq 0 n_jobs in
  gather ((λ j, _permutation_montecarlo_marginals (permutations j) u
                  (Z.max 1 (max_iterations / Z.of_nat n_jobs))) <$> seq 0 n_jobs)
  = Ok mats
  ∧ permutation_samples permutations u max_iterations n_jobs = Ok (concat mats)
  ∧ length (concat mats) = (n_jobs * per_job)%nat.
Proof.
  intros Hjobs Hrange per_job mats.
  assert (gather ((λ j, _permutation_montecarlo_marginals (permutations j) u
                  (Z.max 1 (max_iterations / Z.of_nat n_jobs))) <$> seq 0 n_jobs)
          = Ok mats) as Hg.
  { apply gather_fmap. intros j _.
    apply permutation_marginals_ok; [lia | apply Hrange]. }
  split; [done |]. split.
  - eapply permutation_samples_gathered; [by apply iterations_per_job_ok | done].
  - rewrite length_concat_sum. unfold mats.
    rewrite <-list_fmap_compose.
    rewrite (sum_list_fmap_same per_job).
    + rewrite length_seq. lia.
    + apply Forall_forall. intros j _. simpl. by rewrite length_fmap, length_seq.
Qed.

(** *** A dataset with one item *)

Lemma marginal_row_single (u : Utility) :
  data_len u = 1%nat → marginal_row u [0%nat] = [score_of u {[0%nat]} - 0].
Proof.
  intros Hlen. unfold marginal_row. rewrite Hlen. simpl.
  by rewrite (right_id_L ∅ (∪)).
Qed.

(** With one item every row of the worker is the score of the item minus
    the constant the walk starts from. *)
Lemma single_item_marginals (permutation_of : nat → list nat) (u : Utility)
    (max_permutations : Z) :
  data_len u = 1%nat →
  (∀ k, permutation_of k ≡ₚ data_indices u) →
  (0 ≤ max_permutations)%Z →
  outcome (_permutation_montecarlo_marginals permutation_of u max_permutations)
  = Ok (replicate (Z.to_nat max_permutations) [score_of u {[0%nat]} - 0]).
Proof.
  intros Hlen Hperm Hpos.
  assert (∀ k, permutation_of k = [0%nat]) as Hk.
  { intros k. apply Permutation_singleton_r.
    rewrite Hperm. unfold data_indices. by rewrite Hlen. }
  rewrite permutation_marginals_ok; [| done |].
  - f_equal.
    rewrite (const_fmap (λ k, marginal_row u (permutation_of k)) _
               [score_of u {[0%nat]} - 0]).
    + by rewrite length_seq.
    + intros _ k _. by rewrite Hk, marginal_row_single.
  - intros k idx. rewrite Hk, Hlen. intros ->%list_elem_of_singleton. lia.
Qed.

Lemma dict_of_names_single (u : Utility) (x : R) :
  dict_of_names u [x] = {[ data_names u 0 := x ]}.
Proof. unfold dict_of_names. simpl. by rewrite insert_empty. Qed.

Lemma concat_replicate_rows {A} (n m : nat) (x : A) :
  concat (replicate n (replicate m x)) = replicate (n * m) x.
Proof.
  induction n as [|n IH]; [done |].
  cbn [replicate concat]. rewrite IH. by rewrite <-replicate_add.
Qed.

Lemma column_const (rows : list (list R)) (row : list R) (i : nat) (x : R) :
  (∀ r, r ∈ rows → r = row) → row !! i = Some x →
  column i rows = replicate (length rows) x.
Proof.
  intros Hrows Hx. unfold column.
  induction rows as [|r rows IH]; [done |].
  rewrite fmap_cons. cbn [length replicate].
  rewrite (Hrows r) by (by left). rewrite Hx. f_equal.
  apply IH. intros r' Hr'. apply Hrows. by right.
Qed.

(** C1. On a dataset with one item and a utility that scores the empty set
    zero, as the utility of the repository does, every row a permutation
    worker returns is [u({0}) - u({})], with no sampling noise.  The sample
    matrix of [permutation_montecarlo_shapley] consists of such rows, at
    least one; the value returned for the item is the mean of its column
    of identical entries, and its standard error the standard deviation of
    that column divided by the root of the number of rows. *)
Theorem single_item_marginal_row
    (permutations : nat → nat → list nat) (u : Utility) (max_iterations : Z)
    (n_jobs : nat) :
  data_len u = 1%nat →
  score_of u ∅ = 0 →
  (∀ j k, permutations j k ≡ₚ data_indices u) →
  (1 ≤ n_jobs)%nat →
  let marginal := score_of u {[0%nat]} - score_of u ∅ in
  (∀ j max_permutations,
     (0 ≤ max_permutations)%Z →
     outcome (_permutation_montecarlo_marginals (permutations j) u max_permutations)
     = Ok (replicate (Z.to_nat max_permutations) [marginal]))
  ∧ ∃ rows,
      (1 ≤ rows)%nat
      ∧ permutation_samples permutations u max_iterations n_jobs
        = Ok (replicate rows [marginal])
      ∧ permutation_montecarlo_shapley permutations u max_iterations n_jobs
        = Ok ({[ data_names u 0 := mean (replicate rows marginal) ]},
              {[ data_names u 0 := std (replicate rows marginal) / sqrt (INR rows) ]}).
Proof.
  intros Hlen Hempty Hperm Hjobs marginal.
  assert (marginal = score_of u {[0%nat]} - 0) as Hmarginal
    by (unfold marginal; by rewrite Hempty).
  assert (∀ j k, permutations j k = [0%nat]) as Hk.
  { intros j k. apply Permutation_singleton_r.
    rewrite Hperm. unfold data_indices. by rewrite Hlen. }
  split.
  { intros j max_permutations Hpos. rewrite Hmarginal.
    by apply single_item_marginals. }
  set (per_job := Z.to_nat (Z.max 1 (max_iterations / Z.of_nat n_jobs))).
  exists (n_jobs * per_job)%nat.
  assert (1 ≤ n_jobs * per_job)%nat as Hrows by (unfold per_job; nia).
  split; [done |].
  destruct (permutation_samples_ok permutations u max_iterations n_jobs) as (_ & Hfull & _);
    [done | |].
  { intros j k idx. rewrite Hk, Hlen. intros ->%list_elem_of_singleton. lia. }
  assert (concat ((λ j, (λ k, marginal_row u (permutations j k)) <$> seq 0 per_job)
                    <$> seq 0 n_jobs)
          = replicate (n_jobs * per_job) [marginal]) as Hmatrix.
  { rewrite (const_fmap _ _ (replicate per_job [marginal])).
    - by rewrite length_seq, concat_replicate_rows.
    - intros _ j _. simpl.
      rewrite (const_fmap _ _ [marginal]); [by rewrite length_seq |].
      intros _ k _. simpl. by rewrite Hk, marginal_row_single, Hmarginal. }
  fold per_job in Hfull. rewrite Hmatrix in Hfull.
  split; [done |].
  unfold permutation_montecarlo_shapley. rewrite Hfull.
  rewrite reduce_samples_spec.
  2:{ by intros row [-> _]%elem_of_replicate. }
  rewrite Hlen. cbn [fmap list_fmap seq].
  rewrite (column_const _ [marginal] 0 marginal), length_replicate.
  - by rewrite !dict_of_names_single.
  - by intros r [-> _]%elem_of_replicate.
  - done.
Qed.

Lemma single_item_marginal_row_witness :
  outcome (_permutation_montecarlo_marginals (λ _, [0%nat]) u_single 3)
  = Ok (replicate (Z.to_nat 3) [score_of u_single {[0%nat]} - score_of u_single ∅]).
Proof.
  destruct (single_item_marginal_row (λ _ _, [0%nat]) u_single 3 1) as [Hrows _].
  - reflexivity.
  - simpl. by rewrite decide_True.
  - intros _ _. reflexivity.
  - lia.
  - apply (Hrows 0%nat 3%Z). lia.
Defined.

(** On binary64 numbers the value is not the marginal.  With the item
    scoring one tenth and three permutations, every row of the worker is
    [u({0}) - u({})], one tenth, and the mean of the three rows, the value
    returned after the reduction, is the next larger float,
    0.10000000000000002. *)
Lemma single_item_value_is_rounded :
  outcome (float_permutation_marginals (λ _, [0%nat]) u_tenth 3)
  = Ok (replicate 3 [PrimFloat.sub (float_score_of u_tenth {[0%nat]})
                       (float_score_of u_tenth ∅)])
  ∧ ∃ value,
      float_permutation_values (λ _ _, [0%nat]) u_tenth 3 1 = Ok [value]
      ∧ value ≠ PrimFloat.sub (float_score_of u_tenth {[0%nat]})
                  (float_score_of u_tenth ∅)
      ∧ value = PrimFloat.next_up (PrimFloat.sub (float_score_of u_tenth {[0%nat]})
                                     (float_score_of u_tenth ∅)).
Proof.
  split; [by vm_compute |].
  eexists. split; [by vm_compute |].
  split; [vm_compute; discriminate | by vm_compute].
Qed.

(** *** The reduction of the permutation estimator *)

(** C2. Whatever matrices the workers of [permutation_montecarlo_shapley]
    return, the job concatenates them row-wise into one sample matrix, whose
    number of rows is the sum of theirs; the value of an item is the mean
    of its column of that matrix and its standard error the standard
    deviation of the column divided by the root of the total number of
    rows. *)
Theorem permutation_reduction_on_concatenation
    (permutations : nat → nat → list nat) (u : Utility) (max_iterations : Z)
    (n_jobs : nat) (per_job : Z) (mats : list (list (list R))) :
  outcome (iterations_per_job max_iterations n_jobs) = Ok per_job →
  gather ((λ j, _permutation_montecarlo_marginals (permutations j) u per_job)
            <$> seq 0 n_jobs) = Ok mats →
  let full := concat mats in
  permutation_samples permutations u max_iterations n_jobs = Ok full
  ∧ length full = sum_list (length <$> mats)
  ∧ permutation_montecarlo_shapley permutations u max_iterations n_jobs
    = Ok (dict_of_names u ((λ i, mean (column i full)) <$> seq 0 (data_len u)),
          dict_of_names u
            ((λ i, std (column i full) / sqrt (INR (length full)))
               <$> seq 0 (data_len u))).
Proof.
  intros Hper Hmats full.
  pose proof (permutation_samples_gathered _ _ _ _ _ _ Hper Hmats) as Hfull.
  split; [done |]. split; [apply length_concat_sum |].
  unfold permutation_montecarlo_shapley. rewrite Hfull.
  rewrite reduce_samples_spec; [done |].
  intros row (mat & Hmat & Hrow)%elem_of_concat.
  apply gather_inv in Hmats.
  apply list_elem_of_lookup in Hmat as [j Hj].
  destruct (Forall2_lookup_r _ _ _ _ _ Hmats Hj) as (w & Hw & Hout).
  rewrite list_lookup_fmap in Hw.
  destruct (seq 0 n_jobs !! j) as [j'|] eqn:Hj'; [|done].
  injection Hw as <-.
  by eapply permutation_marginals_shape.
Qed.

Lemma permutation_reduction_on_concatenation_witness :
  let full := concat [[marginal_row u_offset [0%nat]]; [marginal_row u_offset [0%nat]]] in
  permutation_samples (λ _ _, [0%nat]) u_offset 2 2 = Ok full
  ∧ length full = 2%nat
  ∧ permutation_montecarlo_shapley (λ _ _, [0%nat]) u_offset 2 2
    = Ok (dict_of_names u_offset [mean (column 0 full)],
          dict_of_names u_offset [std (column 0 full) / sqrt (INR (length full))]).
Proof.
  apply (permutation_reduction_on_concatenation (λ _ _, [0%nat]) u_offset 2 2 1
           [[marginal_row u_offset [0%nat]]; [marginal_row u_offset [0%nat]]]).
  - reflexivity.
  - apply (gather_fmap _ (λ _, [marginal_row u_offset [0%nat]])).
    intros j _.
    apply (permutation_marginals_ok (λ _, [0%nat]) u_offset 1); [lia |].
    intros _ idx ->%list_elem_of_singleton. simpl. lia.
Defined.

(** The mean of per-worker means is another number when the workers return
    matrices of different heights. *)
Lemma mean_of_means_differs :
  mean (column 0 (concat [[[0]]; [[3]; [3]]])) = 2
  ∧ mean_of_means 0 [[[0]]; [[3]; [3]]] = 3 / 2.
Proof.
  unfold mean_of_means, mean, column. simpl. unfold Datatypes.id. split; lra.
Qed.

(** *** How many permutations are sampled *)

Lemma trace_bind_ok {A B} (m : M A) (f : A → M B) (a : A) :
  outcome m = Ok a → trace (m ≫= f) = trace m ++ trace (f a).
Proof.
  destruct m as [t r]; simpl; intros ->.
  unfold mbind, M_bind. by destruct (f a).
Qed.

Lemma trace_bind_raise {A B} (m : M A) (f : A → M B) (e : exn) :
  outcome m = Raise e → trace (m ≫= f) = trace m.
Proof. destruct m as [t r]; simpl; by intros ->. Qed.

(** The trace of a loop that ends normally, when the trace of a round
    depends on the element only. *)
Lemma for_each_trace {A S} (t : A → list event) (l : list A) (body : A → S → M S)
    (s r : S) :
  (∀ a s s', a ∈ l → outcome (body a s) = Ok s' → trace (body a s) = t a) →
  outcome (for_each l body s) = Ok r →
  trace (for_each l body s) = concat (t <$> l).
Proof.
  revert s. induction l as [|a l IH]; intros s Hbody; [done |].
  cbn [for_each]. intros (s' & Hs' & Hr)%outcome_bind_inv.
  rewrite (trace_bind_ok _ _ _ Hs'), fmap_cons. cbn [concat]. f_equal.
  - apply (Hbody a s s'); [by left | done].
  - apply IH; [|done]. intros b u u' Hb. apply Hbody. by right.
Qed.

Lemma fst_enumerate {A} (l : list A) : fst <$> enumerate l = seq 0 (length l).
Proof.
  unfold enumerate. apply list_eq. intros i.
  rewrite list_lookup_fmap, list_lookup_imap.
  destruct (l !! i) as [x|] eqn:Hx; simpl.
  - symmetry. apply lookup_seq. split; [done | by eapply lookup_lt_Some].
  - symmetry. apply lookup_seq_ge. by apply lookup_ge_None.
Qed.

Lemma concat_singletons {A B} (g : A → B) (l : list A) :
  concat ((λ x, [g x]) <$> l) = g <$> l.
Proof.
  induction l as [|x l IH]; [done |].
  rewrite !fmap_cons. cbn [concat]. by rewrite IH.
Qed.

Lemma walk_permutation_trace (u : Utility) (permutation : list nat) :
  (∀ idx, idx ∈ permutation → (idx < data_len u)%nat) →
  trace (walk_permutation u permutation)
  = (λ i, Called (list_to_set (take (S i) permutation)))
      <$> seq 0 (length permutation).
Proof.
  intros Hrange.
  destruct (walk_permutation_ok u permutation Hrange) as [Hok _].
  unfold walk_permutation in *.
  apply outcome_bind_inv in Hok as (st & Hloop & _).
  rewrite (trace_bind_ok _ _ _ Hloop).
  erewrite (for_each_trace
              (λ p : nat * nat, [Called (list_to_set (take (S (fst p)) permutation))]));
    [| | exact Hloop].
  - destruct st as [marginals prev]. cbn [trace fst mret M_ret]. rewrite app_nil_r.
    rewrite <-fst_enumerate, <-list_fmap_compose.
    apply concat_singletons.
  - intros [i idx] [m prev] st' _. unfold call, set_item.
    destruct (decide _); [done | by intros [=]].
Qed.

(** The calls of a worker are those of its walks, one walk after the
    other. *)
Lemma permutation_worker_trace (permutation_of : nat → list nat) (u : Utility)
    (max_permutations : Z) :
  (0 ≤ max_permutations)%Z →
  (∀ k idx, idx ∈ permutation_of k → (idx < data_len u)%nat) →
  trace (_permutation_montecarlo_marginals permutation_of u max_permutations)
  = concat ((λ k, walk_calls (permutation_of k)) <$> seq 0 (Z.to_nat max_permutations)).
Proof.
  intros Hpos Hrange.
  pose proof (permutation_marginals_ok permutation_of u max_permutations
                Hpos Hrange) as Hok.
  unfold _permutation_montecarlo_marginals in *.
  destruct (decide _); [lia |].
  eapply for_each_trace; [|exact Hok].
  intros k values values' _ _.
  destruct (walk_permutation_ok u (permutation_of k) (Hrange k)) as [Hw _].
  rewrite (trace_bind_ok _ _ _ Hw). cbn [trace fst mret M_ret].
  rewrite app_nil_r. apply walk_permutation_trace, Hrange.
Qed.

Lemma fmap_concat_rows {A B} (f : A → B) (ls : list (list A)) :
  fmap (M := list) f (concat ls) = concat (fmap (M := list) (fmap (M := list) f) ls).
Proof.
  induction ls as [|l ls IH]; [done |].
  rewrite fmap_cons. cbn [concat]. by rewrite fmap_app, IH.
Qed.

(** C10. With [max_iterations >= 0], [n_jobs >= 1] and the sampled
    permutations made of indices of the dataset, every one of the [n_jobs]
    workers of [permutation_montecarlo_shapley] walks exactly
    [max(1, max_iterations // n_jobs)] permutations of its own: it returns
    the rows of these walks and calls the utility as these walks do, and
    nothing else.  The sample matrix holds the rows of the walks of all
    workers, [n_jobs * max(1, max_iterations // n_jobs)] of them: 8 for 10
    iterations on 4 jobs, and 4 for 1 iteration on 4 jobs. *)
Theorem permutation_sample_count
    (permutations : nat → nat → list nat) (u : Utility) (max_iterations : Z)
    (n_jobs : nat) :
  (0 ≤ max_iterations)%Z →
  (1 ≤ n_jobs)%nat →
  (∀ j k idx, idx ∈ permutations j k → (idx < data_len u)%nat) →
  let per_job := Z.max 1 (max_iterations / Z.of_nat n_jobs) in
  let worker j := _permutation_montecarlo_marginals (permutations j) u per_job in
  let walks j := permutations j <$> seq 0 (Z.to_nat per_job) in
  outcome (iterations_per_job max_iterations n_jobs) = Ok per_job
  ∧ (∀ j, Z.of_nat (length (walks j)) = per_job
          ∧ outcome (worker j) = Ok (marginal_row u <$> walks j)
          ∧ trace (worker j) = concat (walk_calls <$> walks j))
  ∧ gather (worker <$> seq 0 n_jobs)
    = Ok ((λ j, marginal_row u <$> walks j) <$> seq 0 n_jobs)
  ∧ permutation_samples permutations u max_iterations n_jobs
    = Ok (marginal_row u <$> concat (walks <$> seq 0 n_jobs))
  ∧ Z.of_nat (length (concat (walks <$> seq 0 n_jobs))) = (Z.of_nat n_jobs * per_job)%Z
  ∧ (Z.of_nat 4 * Z.max 1 (10 / Z.of_nat 4) = 8)%Z
  ∧ (Z.of_nat 4 * Z.max 1 (1 / Z.of_nat 4) = 4)%Z.
Proof.
  intros Hiter Hjobs Hrange per_job worker walks.
  assert (1 ≤ per_job)%Z as Hper by (unfold per_job; lia).
  assert (∀ j, marginal_row u <$> walks j
               = (λ k, marginal_row u (permutations j k)) <$> seq 0 (Z.to_nat per_job))
    as Hrows by (intros j; unfold walks; by rewrite <-list_fmap_compose).
  split; [by apply iterations_per_job_ok |].
  split; [|split; [|split; [|split; [|done]]]].
  - intros j. split; [|split].
    + unfold walks. rewrite length_fmap, length_seq. lia.
    + rewrite Hrows. apply permutation_marginals_ok; [lia | apply Hrange].
    + unfold worker, walks. rewrite <-list_fmap_compose.
      apply permutation_worker_trace; [lia | apply Hrange].
  - apply gather_fmap. intros j _. rewrite Hrows.
    apply permutation_marginals_ok; [lia | apply Hrange].
  - destruct (permutation_samples_ok permutations u max_iterations n_jobs Hjobs Hrange)
      as (_ & Hfull & _).
    rewrite Hfull. f_equal. rewrite fmap_concat_rows, <-list_fmap_compose.
    f_equal. apply list_fmap_ext. intros _ j _. simpl. symmetry. apply Hrows.
  - rewrite length_concat_sum, <-list_fmap_compose.
    rewrite (sum_list_fmap_same (Z.to_nat per_job)).
    + rewrite length_seq. lia.
    + apply Forall_forall. intros j _. simpl. unfold walks.
      by rewrite length_fmap, length_seq.
Qed.

Lemma permutation_sample_count_witness :
  permutation_samples (λ _ _, [1%nat; 0%nat]) u_count 10 4
  = Ok (replicate 8 (marginal_row u_count [1%nat; 0%nat]))
  ∧ trace (_permutation_montecarlo_marginals (λ _, [1%nat; 0%nat]) u_count
             (Z.max 1 (10 / Z.of_nat 4)))
    = concat (replicate 2 (walk_calls [1%nat; 0%nat])).
Proof.
  destruct (permutation_sample_count (λ _ _, [1%nat; 0%nat]) u_count 10 4)
    as (_ & Hworker & _ & Hfull & _).
  - lia.
  - lia.
  - intros _ _ idx [->|[->|[]%elem_of_nil]%elem_of_cons]%elem_of_cons; simpl; lia.
  - split; [exact Hfull |]. destruct (Hworker 0%nat) as (_ & _ & Htrace). exact Htrace.
Defined.

(** ** The combinatorial estimator *)

Lemma outcome_ret_bind {A B} (a : A) (f : A → M B) :
  outcome (mret a ≫= f) = outcome (f a).
Proof. by apply outcome_bind_ok. Qed.

Lemma divide_ok (x y : R) : y ≠ 0 → divide x y = mret (x / y).
Proof. intros H. unfold divide. by rewrite decide_False. Qed.

Lemma remove_dups_length_le {A} `{EqDecision A} (l : list A) :
  (length (remove_dups l) ≤ length l)%nat.
Proof.
  induction l as [|a l IH]; simpl; [done |].
  destruct (decide_rel _ _ _); simpl; lia.
Qed.

(** The test the worker makes on its indices. *)
Lemma unique_length_iff (l : list nat) :
  length (remove_dups l) = length l ↔ NoDup l.
Proof.
  induction l as [|a l IH]; simpl.
  - split; [constructor | done].
  - destruct (decide_rel _ _ _) as [Hin|Hin]; simpl.
    + split.
      * pose proof (remove_dups_length_le l). lia.
      * intros [? _]%NoDup_cons. done.
    + rewrite NoDup_cons. split.
      * intros [= H]. split; [done | by apply IH].
      * intros [_ H]. f_equal. by apply IH.
Qed.

Lemma comb_pos (n k : nat) : (k ≤ n)%nat → (0 < comb n k)%nat.
Proof.
  revert n. induction k as [|k IH]; intros n Hk.
  - destruct n; simpl; lia.
  - destruct n as [|n]; [lia |]. simpl.
    assert (0 < comb n k)%nat by (apply IH; lia). lia.
Qed.

Lemma size_subset_pool (u : Utility) (idx : nat) (s : gset nat) :
  (idx < data_len u)%nat →
  s ⊆ setxor1d (list_to_set (data_indices u)) {[idx]} →
  (size s ≤ data_len u - 1)%nat.
Proof.
  intros Hidx Hs.
  assert (idx ∈ (list_to_set (data_indices u) : gset nat)) as Hin.
  { apply elem_of_list_to_set, elem_of_seq. lia. }
  assert (setxor1d (list_to_set (data_indices u)) {[idx]}
          = list_to_set (data_indices u) ∖ {[idx]}) as Hpool.
  { unfold setxor1d. apply set_eq. intros x.
    rewrite elem_of_union, !elem_of_difference, elem_of_singleton.
    split; [|intros [Hx Hne]; by left].
    intros [[Hx Hne] | [Heq Hn]]; [done | by subst]. }
  rewrite Hpool in Hs. apply subseteq_size in Hs.
  rewrite size_difference in Hs by set_solver.
  rewrite size_singleton, size_list_to_set in Hs by apply NoDup_seq.
  unfold data_indices in Hs. rewrite length_seq in Hs. done.
Qed.

Lemma subsets_for_size (draws : nat → list (gset nat)) (u : Utility)
    (max_iterations : Z) (idx : nat) (s : gset nat) :
  (idx < data_len u)%nat →
  s ∈ subsets_for draws u max_iterations idx →
  (size s ≤ data_len u - 1)%nat.
Proof.
  intros Hidx (heads & -> & _)%list_elem_of_fmap.
  apply (size_subset_pool u idx); [done |]. apply intersection_subseteq_r.
Qed.

Lemma on_items_length (n : nat) (l : list nat) (f : nat → R) :
  length (on_items n l f) = n.
Proof. unfold on_items. by rewrite length_fmap, length_seq. Qed.

Lemma on_items_lookup (n : nat) (l : list nat) (f : nat → R) (i : nat) :
  (i < n)%nat → on_items n l f !! i = Some (if decide (i ∈ l) then f i else 0).
Proof.
  intros Hi. unfold on_items. by rewrite list_lookup_fmap, lookup_seq_lt.
Qed.

Lemma on_items_nil (n : nat) (f : nat → R) : on_items n [] f = zeros n.
Proof.
  apply list_eq. intros i. destruct (decide (i < n)%nat).
  - rewrite on_items_lookup, lookup_zeros by done.
    by destruct (decide (i ∈ [])) as [?%elem_of_nil|].
  - rewrite !lookup_ge_None_2; [done | |].
    + rewrite length_zeros. lia.
    + rewrite on_items_length. lia.
Qed.

Lemma on_items_ext (n : nat) (l : list nat) (f g : nat → R) (h : R → R) :
  h 0 = 0 → (∀ i, g i = h (f i)) → h <$> on_items n l f = on_items n l g.
Proof.
  intros H0 Hfg. unfold on_items. rewrite <-list_fmap_compose.
  apply list_fmap_ext. intros _ i _. simpl.
  by destruct (decide (i ∈ l)).
Qed.

Lemma on_items_insert (n : nat) (l : list nat) (f : nat → R) (idx : nat) :
  <[idx := f idx]> (on_items n l f) = on_items n (l ++ [idx]) f.
Proof.
  apply list_eq. intros i. destruct (decide (i < n)%nat) as [Hi|Hi].
  - rewrite (on_items_lookup n (l ++ [idx])) by done.
    destruct (decide (i = idx)) as [->|Hne].
    + rewrite list_lookup_insert_eq by (by rewrite on_items_length).
      rewrite decide_True; [done |]. apply elem_of_app. right. by left.
    + rewrite list_lookup_insert_ne, on_items_lookup by done.
      f_equal. apply decide_ext.
      rewrite elem_of_app, list_elem_of_singleton.
      split; [by left | by intros [?|?]].
  - rewrite !lookup_ge_None_2; [done | |].
    + rewrite on_items_length. lia.
    + rewrite length_insert, on_items_length. lia.
Qed.

(** Adding vectors whose items are disjoint. *)
Lemma on_items_add (n : nat) (l1 l2 : list nat) (f : nat → R) :
  (∀ i, i ∈ l1 → i ∉ l2) →
  zip_with Rplus (on_items n l1 f) (on_items n l2 f) = on_items n (l1 ++ l2) f.
Proof.
  intros Hdisj. apply list_eq. intros i.
  destruct (decide (i < n)%nat) as [Hi|Hi].
  - rewrite lookup_zip_with, !on_items_lookup by done. simpl. f_equal.
    destruct (decide (i ∈ l1)) as [H1|H1], (decide (i ∈ l2)) as [H2|H2].
    + by destruct (Hdisj i).
    + rewrite decide_True by (apply elem_of_app; by left). lra.
    + rewrite decide_True by (apply elem_of_app; by right). lra.
    + rewrite decide_False; [lra |]. by intros [?|?]%elem_of_app.
  - rewrite !lookup_ge_None_2; [done | |].
    + rewrite on_items_length. lia.
    + rewrite length_zip_with, !on_items_length. lia.
Qed.

(** *** The range of the floats *)

Lemma to_float_ok (x : R) : 0 <= x < float_overflow_bound → to_float x = mret x.
Proof.
  intros [H0 H1]. unfold to_float. rewrite Rabs_right by lra.
  rewrite decide_False; [done | lra].
Qed.

Lemma to_float_cases (x : R) :
  to_float x = mret x ∨ to_float x = raise OverflowError.
Proof. unfold to_float. destruct (decide _); [by right | by left]. Qed.

Lemma pow2_IZR (n : nat) : 2 ^ n = IZR (2 ^ Z.of_nat n).
Proof. by rewrite pow_IZR. Qed.

Lemma float_overflow_bound_IZR : float_overflow_bound = IZR (2 ^ 1024 - 2 ^ 970).
Proof.
  unfold float_overflow_bound. rewrite !pow2_IZR, <-minus_IZR. f_equal.
Qed.

Lemma correction_in_range_checked : forallb correction_in_range (seq 1 522) = true.
Proof. by vm_compute. Qed.

(** With at most 522 items the correction and its square are floats. *)
Lemma correction_range (n : nat) :
  (1 ≤ n ≤ 522)%nat →
  0 <= 2 ^ (n - 1) / INR n < float_overflow_bound
  ∧ 0 <= (2 ^ (n - 1) / INR n) ^ 2 < float_overflow_bound.
Proof.
  intros Hn.
  assert (correction_in_range n = true) as Hcheck.
  { pose proof correction_in_range_checked as Hall.
    rewrite forallb_forall in Hall. apply Hall, in_seq. lia. }
  apply andb_prop in Hcheck as [H1 H2].
  apply Z.ltb_lt, IZR_lt in H1. apply Z.ltb_lt, IZR_lt in H2.
  rewrite !mult_IZR in H1. rewrite !mult_IZR in H2.
  rewrite <-float_overflow_bound_IZR, <-pow2_IZR, <-INR_IZR_INZ in H1.
  rewrite <-float_overflow_bound_IZR, <-pow2_IZR, <-INR_IZR_INZ in H2.
  set (a := 2 ^ (n - 1)) in *. set (b := INR n) in *.
  assert (0 < b) as Hb by (apply lt_0_INR; lia).
  assert (0 < a) as Ha by (apply pow_lt; lra).
  assert (0 < a / b) as Hc by (by apply Rdiv_lt_0_compat).
  split; split.
  - lra.
  - apply (Rmult_lt_reg_r b); [done |].
    unfold Rdiv. rewrite Rmult_assoc, Rinv_l by lra. lra.
  - apply pow_le. lra.
  - replace ((a / b) ^ 2) with (a * a / (b * b)) by (field; lra).
    assert (0 < b * b) as Hbb by nra.
    apply (Rmult_lt_reg_r (b * b)); [done |].
    unfold Rdiv. rewrite Rmult_assoc, Rinv_l by lra. lra.
Qed.

Lemma comb_le_pow2 (n k : nat) : INR (comb n k) <= 2 ^ n.
Proof.
  revert k. induction n as [|n IH]; intros [|k].
  - simpl. lra.
  - simpl. lra.
  - change (1 <= 2 * 2 ^ n). pose proof (pow_R1_Rle 2 n). lra.
  - change (INR (comb n k + comb n (S k)) <= 2 * 2 ^ n).
    rewrite plus_INR. pose proof (IH k). pose proof (IH (S k)). lra.
Qed.

(** With at most 522 items every binomial coefficient the worker divides
    by is a float. *)
Lemma comb_range (n k : nat) :
  (n ≤ 522)%nat → 0 <= INR (comb (n - 1) k) < float_overflow_bound.
Proof.
  intros Hn. split; [apply pos_INR |].
  eapply Rle_lt_trans; [apply comb_le_pow2 |].
  eapply Rle_lt_trans; [apply (Rle_pow 2 (n - 1) 521); [lra | lia] |].
  rewrite pow2_IZR, float_overflow_bound_IZR. apply IZR_lt. by vm_compute.
Qed.

Section CombinatorialWorker.
Variable get_running_avg_variance : R → R → R → R → R * R.
Variable draws : nat → list (gset nat).

#[local] Abbreviation fed := (feed get_running_avg_variance).
#[local] Abbreviation acc_state := (accumulated get_running_avg_variance draws).
#[local] Abbreviation worker := (_combinatorial_montecarlo_shapley get_running_avg_variance draws).

(** One round of the inner loop feeds the marginal of the subset to the
    accumulator of the item and touches no other entry. *)
Lemma accumulate_marginal_ok (u : Utility) (idx : nat) (s : gset nat)
    (vals vars cnts : list R) (m v c : R) :
  vals !! idx = Some m → vars !! idx = Some v → cnts !! idx = Some c →
  (data_len u ≤ 522)%nat →
  (size s ≤ data_len u - 1)%nat →
  let st := fed (m, v, c) (marginal_of u idx s) in
  outcome (accumulate_marginal get_running_avg_variance u idx s (vals, vars, cnts))
  = Ok (<[idx := fst (fst st)]> vals, <[idx := snd (fst st)]> vars,
        <[idx := snd st]> cnts).
Proof.
  intros Hm Hv Hc Hn Hsize st. unfold accumulate_marginal.
  rewrite outcome_tell, !outcome_call.
  rewrite to_float_ok by (by apply comb_range).
  rewrite outcome_ret_bind.
  rewrite divide_ok.
  2:{ apply not_0_INR. pose proof (comb_pos (data_len u - 1) (size s) Hsize). lia. }
  rewrite outcome_ret_bind.
  rewrite (get_item_ok _ _ _ Hm), outcome_ret_bind.
  rewrite (get_item_ok _ _ _ Hv), outcome_ret_bind.
  rewrite (get_item_ok _ _ _ Hc), outcome_ret_bind.
  subst st. unfold feed, marginal_of. simpl.
  destruct (get_running_avg_variance _ _ _ _) as [nm nv]. simpl.
  rewrite !set_item_ok by (by eapply lookup_lt_Some).
  done.
Qed.

Lemma inner_loop_ok (u : Utility) (idx : nat) (ss : list (gset nat))
    (vals vars cnts : list R) (m v c : R) :
  vals !! idx = Some m → vars !! idx = Some v → cnts !! idx = Some c →
  (data_len u ≤ 522)%nat →
  (∀ s, s ∈ ss → (size s ≤ data_len u - 1)%nat) →
  let st := foldl fed (m, v, c) (marginal_of u idx <$> ss) in
  outcome (for_each ss (accumulate_marginal get_running_avg_variance u idx)
             (vals, vars, cnts))
  = Ok (<[idx := fst (fst st)]> vals, <[idx := snd (fst st)]> vars,
        <[idx := snd st]> cnts).
Proof.
  revert vals vars cnts m v c.
  induction ss as [|s ss IH]; intros vals vars cnts m v c Hm Hv Hc Hn Hsize;
    cbn [for_each fmap list_fmap foldl].
  - cbv zeta. cbn [fst snd]. by rewrite !list_insert_id.
  - rewrite (outcome_bind_ok _ _ _
               (accumulate_marginal_ok u idx s vals vars cnts m v c Hm Hv Hc Hn
                  (Hsize s ltac:(by left)))).
    destruct (fed (m, v, c) (marginal_of u idx s)) as [[m1 v1] c1] eqn:Hfeed.
    simpl.
    rewrite (IH _ _ _ m1 v1 c1).
    + by rewrite !list_insert_insert_eq.
    + apply list_lookup_insert_eq. by eapply lookup_lt_Some.
    + apply list_lookup_insert_eq. by eapply lookup_lt_Some.
    + apply list_lookup_insert_eq. by eapply lookup_lt_Some.
    + done.
    + intros s' Hs'. apply Hsize. by right.
Qed.

(** The outer loop leaves, at every item it has visited, the state of the
    accumulator of that item. *)
Lemma outer_loop_ok (u : Utility) (max_iterations : Z) (rest done : list nat) :
  NoDup (done ++ rest) →
  (∀ i, i ∈ rest → (i < data_len u)%nat) →
  (data_len u ≤ 522)%nat →
  let n := data_len u in
  let state l :=
    (on_items n l (λ i, fst (fst (acc_state u max_iterations i))),
     on_items n l (λ i, snd (fst (acc_state u max_iterations i))),
     on_items n l (λ i, snd (acc_state u max_iterations i))) in
  outcome (for_each rest
    (λ idx st,
       let subset := setxor1d (list_to_set (data_indices u)) {[idx]} in
       let power_set := random_powerset (draws idx) subset max_iterations in
       for_each power_set (accumulate_marginal get_running_avg_variance u idx) st)
    (state done))
  = Ok (state (done ++ rest)).
Proof.
  intros Hnodup Hrange Hn n state. revert done Hnodup.
  induction rest as [|idx rest IH]; intros done Hnodup.
  - simpl. by rewrite app_nil_r.
  - assert (idx < n)%nat as Hidx by (apply Hrange; by left).
    assert (idx ∉ done) as Hfresh.
    { apply NoDup_app in Hnodup as (_ & Hd & _). intros Hin.
      apply (Hd idx Hin). by left. }
    cbn [for_each].
    erewrite outcome_bind_ok.
    2:{ unfold state.
        apply (inner_loop_ok u idx _ _ _ _ 0 0 0).
        - rewrite on_items_lookup, decide_False by done. done.
        - rewrite on_items_lookup, decide_False by done. done.
        - rewrite on_items_lookup, decide_False by done. done.
        - done.
        - intros s Hs. by eapply subsets_for_size. }
    cbv zeta.
    change (foldl fed (0, 0, 0) (marginal_of u idx <$> _))
      with (acc_state u max_iterations idx).
    rewrite (on_items_insert n done (λ i, fst (fst (acc_state u max_iterations i)))).
    rewrite (on_items_insert n done (λ i, snd (fst (acc_state u max_iterations i)))).
    rewrite (on_items_insert n done (λ i, snd (acc_state u max_iterations i))).
    replace (done ++ idx :: rest) with ((done ++ [idx]) ++ rest)
      by (by rewrite <-(assoc_L (++))).
    apply (IH (λ i Hi, Hrange i ltac:(by right)) (done ++ [idx])).
    by rewrite <-(assoc_L (++)).
Qed.

(** What the worker returns on indices of the dataset without repetition,
    when the dataset has at most 522 items. *)
Lemma combinatorial_worker_ok (indices : list nat) (u : Utility) (max_iterations : Z) :
  NoDup indices →
  (∀ i, i ∈ indices → (i < data_len u)%nat) →
  (1 ≤ data_len u ≤ 522)%nat →
  outcome (worker indices u max_iterations)
  = Ok {| values := on_items (data_len u) indices
                      (item_value get_running_avg_variance draws u max_iterations);
          stderr := on_items (data_len u) indices
                      (item_stderr get_running_avg_variance draws u max_iterations);
          n_samples := None |}.
Proof.
  intros Hnodup Hrange Hn. unfold _combinatorial_montecarlo_shapley.
  rewrite decide_False by (by intros []; apply unique_length_iff).
  rewrite divide_ok by (apply not_0_INR; lia).
  rewrite outcome_ret_bind.
  destruct (correction_range (data_len u) Hn) as [Hc Hc2].
  rewrite to_float_ok by done. rewrite outcome_ret_bind.
  pose proof (outer_loop_ok u max_iterations indices [] Hnodup Hrange
                ltac:(lia)) as Hloop.
  cbv beta zeta in Hloop. rewrite !on_items_nil, app_nil_l in Hloop.
  rewrite (outcome_bind_ok _ _ _ Hloop). cbv beta iota.
  rewrite to_float_ok by done. rewrite outcome_ret_bind, outcome_ret.
  f_equal. f_equal.
  - apply on_items_ext; [lra | done].
  - unfold on_items. rewrite zip_with_fmap_l, zip_with_fmap_r, zip_with_diag.
    apply list_fmap_ext. intros _ i _. simpl.
    destruct (decide (i ∈ indices)); [done |].
    unfold Rdiv. rewrite Rmult_0_r, Rmult_0_l. apply sqrt_0.
Qed.

End CombinatorialWorker.






(** The subsets and the marginals of the example above: the item 0 of
    three, with the subsets [{1, 2}], [{1}] and the empty one. *)
Lemma u_square_marginals :
  subsets_for (λ _, [{[1%nat; 2%nat]}; {[0%nat; 1%nat]}; ∅]) u_square 3 0
  = [{[1%nat; 2%nat]}; {[1%nat]}; ∅]
  ∧ marginal_of u_square 0 <$> [{[1%nat; 2%nat]}; {[1%nat]}; ∅] = [5; 3 / 2; 1].
Proof.
  split.
  - unfold subsets_for, random_powerset. change (Z.to_nat 3) with 3%nat.
    cbn [take fmap list_fmap]. repeat f_equal; apply leibniz_equiv; by vm_compute.
  - unfold marginal_of, u_square. cbn [fmap list_fmap score_of data_len].
    assert (size ({[0%nat]} ∪ ({[1%nat; 2%nat]} : gset nat)) = 3%nat) as -> by (by vm_compute).
    assert (size ({[1%nat; 2%nat]} : gset nat) = 2%nat) as -> by (by vm_compute).
    assert (size ({[0%nat]} ∪ ({[1%nat]} : gset nat)) = 2%nat) as -> by (by vm_compute).
    assert (size ({[1%nat]} : gset nat) = 1%nat) as -> by (by vm_compute).
    assert (size ({[0%nat]} ∪ (∅ : gset nat)) = 1%nat) as -> by (by vm_compute).
    assert (size (∅ : gset nat) = 0%nat) as -> by (by vm_compute).
    simpl. repeat f_equal; lra.
Qed.

(** *** Repeated indices *)

Lemma raise_bind_not_value_error {A B} (f : A → M B) (e0 e : exn) :
  not_value_error e0 → outcome (raise e0 ≫= f) = Raise e → not_value_error e.
Proof. intros H0 [= <-]. done. Qed.

Lemma accumulate_marginal_raises (acc : R → R → R → R → R * R) (u : Utility)
    (idx : nat) (s : gset nat) (st : list R * list R * list R) (e : exn) :
  outcome (accumulate_marginal acc u idx s st) = Raise e → not_value_error e.
Proof.
  assert (not_value_error ZeroDivisionError) as Hz by done.
  assert (not_value_error IndexError) as Hi by done.
  assert (not_value_error OverflowError) as Ho by done.
  destruct st as [[vals vars] cnts]. unfold accumulate_marginal.
  rewrite outcome_tell, !outcome_call.
  destruct (to_float_cases (INR (comb (data_len u - 1) (size s)))) as [-> | ->];
    [|by apply raise_bind_not_value_error].
  rewrite outcome_ret_bind.
  unfold divide, get_item, set_item.
  destruct (decide (INR _ = 0)); [by apply raise_bind_not_value_error |].
  rewrite outcome_ret_bind.
  destruct (vals !! idx) as [m|]; [|by apply raise_bind_not_value_error].
  rewrite outcome_ret_bind.
  destruct (vars !! idx) as [v|]; [|by apply raise_bind_not_value_error].
  rewrite outcome_ret_bind.
  destruct (cnts !! idx) as [c|]; [|by apply raise_bind_not_value_error].
  rewrite outcome_ret_bind.
  destruct (acc _ _ _ _) as [nm nv].
  destruct (decide (idx < length vals)%nat); [|by apply raise_bind_not_value_error].
  rewrite outcome_ret_bind.
  destruct (decide (idx < length vars)%nat); [|by apply raise_bind_not_value_error].
  rewrite outcome_ret_bind.
  destruct (decide (idx < length cnts)%nat); [|by apply raise_bind_not_value_error].
  rewrite outcome_ret_bind.
  done.
Qed.

(** C4. A combinatorial worker whose index list has a repeated entry
    raises [ValueError] with an empty trace: no subset has been sampled and
    the utility has not been called.  On an index list without repetition
    it raises no [ValueError]. *)
Theorem combinatorial_worker_repeated_indices
    (get_running_avg_variance : R → R → R → R → R * R)
    (draws : nat → list (gset nat))
    (indices : list nat) (u : Utility) (max_iterations : Z) :
  (¬ NoDup indices →
   _combinatorial_montecarlo_shapley get_running_avg_variance draws indices u
     max_iterations
   = ([], Raise (ValueError "Repeated indices passed")))
  ∧ (NoDup indices →
     ∀ msg,
       outcome (_combinatorial_montecarlo_shapley get_running_avg_variance draws
                  indices u max_iterations)
       ≠ Raise (ValueError msg)).
Proof.
  unfold _combinatorial_montecarlo_shapley. split.
  - intros Hdup. rewrite decide_True; [done |].
    by intros ?%unique_length_iff.
  - intros Hnodup msg. rewrite decide_False by (by intros []; apply unique_length_iff).
    unfold divide. destruct (decide (INR _ = 0)); [done |].
    rewrite outcome_ret_bind.
    destruct (to_float_cases (2 ^ (data_len u - 1) / INR (data_len u))) as [-> | ->];
      [|done].
    rewrite outcome_ret_bind.
    intros [H | ([[vals vars] cnts] & _ & H)]%outcome_bind_raise_inv.
    2:{ cbv beta iota in H.
        by destruct (to_float_cases ((2 ^ (data_len u - 1) / INR (data_len u)) ^ 2))
          as [Hsq | Hsq]; rewrite Hsq in H. }
    assert (not_value_error (ValueError msg)) as Hne; [|by apply (Hne msg)].
    eapply (for_each_raises not_value_error); [|exact H].
    intros idx st e' He'. cbv zeta in He'.
    eapply (for_each_raises not_value_error); [|exact He'].
    intros s' st' e''. apply accumulate_marginal_raises.
Qed.

Lemma combinatorial_worker_repeated_indices_witness :
  _combinatorial_montecarlo_shapley welford_update (λ _, [∅]) [0%nat; 0%nat]
    u_offset 1
  = ([], Raise (ValueError "Repeated indices passed")).
Proof.
  apply (combinatorial_worker_repeated_indices welford_update (λ _, [∅])
           [0%nat; 0%nat] u_offset 1).
  intros [Hin _]%NoDup_cons. apply Hin. by left.
Defined.

(** *** The reducer of the combinatorial estimator *)

Lemma iadd_ok (a b : list R) :
  length b = length a → iadd a b = mret (zip_with Rplus a b).
Proof. intros H. unfold iadd. by rewrite decide_True. Qed.

Lemma zeros_add (n : nat) (v : list R) :
  length v = n → zip_with Rplus (zeros n) v = v.
Proof.
  intros <-. induction v as [|x v IH]; simpl; [done |].
  unfold zeros in IH. rewrite IH. f_equal. lra.
Qed.

Lemma combinatorial_reducer_loop (n : nat) (rs : list MonteCarloResults)
    (vals errs : list R) :
  length vals = n → length errs = n →
  (∀ r, r ∈ rs → length (values r) = n ∧ length (stderr r) = n) →
  outcome (for_each rs
    (λ r '(vals, errs),
       vals ← iadd vals (values r);
       errs ← iadd errs (stderr r);
       mret (vals, errs))
    (vals, errs))
  = Ok (foldl (λ st r, (zip_with Rplus (fst st) (values r),
                        zip_with Rplus (snd st) (stderr r))) (vals, errs) rs).
Proof.
  intros Hv He Hrs.
  apply (for_each_pure (λ st : list R * list R, length (fst st) = n ∧ length (snd st) = n)
           (λ r st, (zip_with Rplus (fst st) (values r),
                     zip_with Rplus (snd st) (stderr r)))); [done |].
  intros r [vs es] Hr [Hvs Hes]. simpl in Hvs, Hes.
  destruct (Hrs r Hr) as [Hrv Hre]. cbv beta iota.
  rewrite !iadd_ok by congruence. rewrite !outcome_ret_bind.
  split; [done |]. simpl.
  rewrite !length_zip_with_l_eq by congruence. done.
Qed.

Lemma combinatorial_reducer_two (u : Utility) (r1 r2 : MonteCarloResults) :
  length (values r1) = data_len u → length (stderr r1) = data_len u →
  length (values r2) = data_len u → length (stderr r2) = data_len u →
  outcome (combinatorial_reducer u [r1; r2]) = Ok (add_results r1 r2).
Proof.
  intros Hv1 He1 Hv2 He2. unfold combinatorial_reducer, zeros_like.
  rewrite length_zeros.
  erewrite outcome_bind_ok.
  2:{ apply (combinatorial_reducer_loop (data_len u)); try apply length_zeros.
      intros r [->|[->|[]%elem_of_nil]%elem_of_cons]%elem_of_cons; done. }
  cbn [foldl fst snd]. rewrite !zeros_add by done. done.
Qed.

(** Summing the results of workers whose chunks do not overlap. *)
Lemma combinatorial_reducer_chunks (acc : R → R → R → R → R * R)
    (draws : nat → list (gset nat)) (u : Utility) (max_iterations : Z)
    (chunks : list (list nat)) (seen : list nat) :
  NoDup (seen ++ concat chunks) →
  outcome (for_each (worker_result acc draws u max_iterations <$> chunks)
    (λ r '(vals, errs),
       vals ← iadd vals (values r);
       errs ← iadd errs (stderr r);
       mret (vals, errs))
    (values (worker_result acc draws u max_iterations seen),
     stderr (worker_result acc draws u max_iterations seen)))
  = Ok (values (worker_result acc draws u max_iterations (seen ++ concat chunks)),
        stderr (worker_result acc draws u max_iterations (seen ++ concat chunks))).
Proof.
  revert seen. induction chunks as [|chunk chunks IH]; intros seen Hnodup.
  - simpl. by rewrite app_nil_r.
  - rewrite fmap_cons. cbn [for_each concat].
    assert (∀ i, i ∈ seen → i ∉ chunk) as Hdisj.
    { intros i Hi Hc. apply NoDup_app in Hnodup as (_ & Hd & _).
      apply (Hd i Hi). simpl. apply elem_of_app. by left. }
    cbn [values stderr worker_result].
    rewrite !iadd_ok by (by rewrite !on_items_length).
    rewrite !on_items_add by done.
    erewrite outcome_bind_ok; [|by rewrite !outcome_ret_bind].
    rewrite (assoc_L (++)).
    apply (IH (seen ++ chunk)). by rewrite <-(assoc_L (++)).
Qed.

Lemma NoDup_concat_elem {A} (ls : list (list A)) (l : list A) :
  NoDup (concat ls) → l ∈ ls → NoDup l.
Proof.
  induction ls as [|l' ls IH]; simpl; [by intros _ ?%elem_of_nil |].
  intros (Hl' & _ & Hls)%NoDup_app [->|Hin]%elem_of_cons; [done | by apply IH].
Qed.

(** The job of the combinatorial estimator returns what one worker would
    return on all the indices, however the indices are cut into chunks. *)
Lemma combinatorial_results_ok (acc : R → R → R → R → R * R)
    (draws : nat → list (gset nat)) (chunkify : list nat → nat → list (list nat))
    (u : Utility) (max_iterations : Z) (n_jobs : nat) :
  (1 ≤ data_len u ≤ 522)%nat →
  concat (chunkify (data_indices u) n_jobs) = data_indices u →
  combinatorial_results acc draws chunkify u max_iterations n_jobs
  = Ok (worker_result acc draws u max_iterations (data_indices u)).
Proof.
  intros Hn Hchunks. unfold combinatorial_results, map_reduce_job.
  set (chunks := chunkify (data_indices u) n_jobs) in *.
  assert (NoDup (concat chunks)) as Hnodup by (rewrite Hchunks; apply NoDup_seq).
  rewrite (gather_fmap _ (worker_result acc draws u max_iterations)).
  2:{ intros chunk Hchunk. apply combinatorial_worker_ok; [| |done].
      - by eapply NoDup_concat_elem.
      - intros i Hi.
        assert (i ∈ data_indices u) as Hin%elem_of_seq; [|lia].
        rewrite <-Hchunks. apply elem_of_concat. by exists chunk. }
  unfold combinatorial_reducer, zeros_like. rewrite length_zeros.
  pose proof (combinatorial_reducer_chunks acc draws u max_iterations chunks []
                Hnodup) as Hloop.
  cbn [worker_result values stderr] in Hloop.
  rewrite !on_items_nil, app_nil_l, Hchunks in Hloop.
  by rewrite (outcome_bind_ok _ _ _ Hloop).
Qed.

(** C8. The reducer of the combinatorial estimator returns the
    element-wise sum of two results; where the non-zero entries of the two
    do not overlap, every entry of the sum is the entry of the operand that
    is not zero there.  On a dataset of 1 to 522 items (with none the
    worker raises [ZeroDivisionError], with more [OverflowError]), workers
    given chunks without a common item return results that are zero
    outside their chunk, and the sum of their results is the result of one
    worker on both chunks.  When the job cuts the index vector into chunks,
    it returns the result of one worker on all indices. *)
Theorem combinatorial_reducer_disjoint_sum
    (get_running_avg_variance : R → R → R → R → R * R)
    (draws : nat → list (gset nat)) (u : Utility) (max_iterations : Z) :
  (1 ≤ data_len u ≤ 522)%nat →
  let n := data_len u in
  let worker := _combinatorial_montecarlo_shapley get_running_avg_variance draws in
  (∀ r1 r2,
     length (values r1) = n → length (stderr r1) = n →
     length (values r2) = n → length (stderr r2) = n →
     outcome (combinatorial_reducer u [r1; r2]) = Ok (add_results r1 r2)
     ∧ ∀ i x y ex ey,
         values r1 !! i = Some x → values r2 !! i = Some y →
         stderr r1 !! i = Some ex → stderr r2 !! i = Some ey →
         (x = 0 ∧ ex = 0) ∨ (y = 0 ∧ ey = 0) →
         values (add_results r1 r2) !! i = Some (if decide (y = 0) then x else y)
         ∧ stderr (add_results r1 r2) !! i = Some (if decide (ey = 0) then ex else ey))
  ∧ (∀ chunk1 chunk2,
       NoDup (chunk1 ++ chunk2) →
       (∀ i, i ∈ chunk1 ++ chunk2 → (i < n)%nat) →
       ∃ r1 r2 r12,
         outcome (worker chunk1 u max_iterations) = Ok r1
         ∧ outcome (worker chunk2 u max_iterations) = Ok r2
         ∧ outcome (worker (chunk1 ++ chunk2) u max_iterations) = Ok r12
         ∧ (∀ i, (i < n)%nat → i ∉ chunk1 →
              values r1 !! i = Some 0 ∧ stderr r1 !! i = Some 0)
         ∧ (∀ i, (i < n)%nat → i ∉ chunk2 →
              values r2 !! i = Some 0 ∧ stderr r2 !! i = Some 0)
         ∧ outcome (combinatorial_reducer u [r1; r2]) = Ok r12)
  ∧ (∀ (chunkify : list nat → nat → list (list nat)) n_jobs,
       concat (chunkify (data_indices u) n_jobs) = data_indices u →
       combinatorial_results get_running_avg_variance draws chunkify u
         max_iterations n_jobs
       = outcome (worker (data_indices u) u max_iterations)).
Proof.
  intros Hn n worker. split; [|split].
  - intros r1 r2 Hv1 He1 Hv2 He2.
    split; [by apply combinatorial_reducer_two |].
    intros i x y ex ey Hx Hy Hex Hey Hzero.
    cbn [add_results values stderr].
    rewrite !lookup_zip_with, Hx, Hy, Hex, Hey. simpl.
    destruct Hzero as [[-> ->] | [-> ->]].
    + split; f_equal; destruct (decide _) as [->|]; lra.
    + rewrite !decide_True by done. split; f_equal; lra.
  - intros chunk1 chunk2 Hnodup Hrange.
    pose proof Hnodup as (Hnd1 & Hdisj & Hnd2)%NoDup_app.
    exists (worker_result get_running_avg_variance draws u max_iterations chunk1),
           (worker_result get_running_avg_variance draws u max_iterations chunk2),
           (worker_result get_running_avg_variance draws u max_iterations
              (chunk1 ++ chunk2)).
    split; [|split; [|split; [|split; [|split]]]].
    + apply combinatorial_worker_ok; [done | | done].
      intros i Hi. apply Hrange, elem_of_app. by left.
    + apply combinatorial_worker_ok; [done | | done].
      intros i Hi. apply Hrange, elem_of_app. by right.
    + by apply combinatorial_worker_ok.
    + intros i Hi Hout. cbn [worker_result values stderr].
      by rewrite !on_items_lookup, !decide_False.
    + intros i Hi Hout. cbn [worker_result values stderr].
      by rewrite !on_items_lookup, !decide_False.
    + rewrite combinatorial_reducer_two
        by (cbn [worker_result values stderr]; apply on_items_length).
      f_equal. unfold add_results, worker_result. cbn [values stderr].
      by rewrite !on_items_add.
  - intros chunkify n_jobs Hchunks.
    rewrite combinatorial_results_ok by done.
    symmetry. apply combinatorial_worker_ok; [apply NoDup_seq | | done].
    intros i Hi%elem_of_seq. lia.
Qed.

Lemma combinatorial_reducer_disjoint_sum_witness :
  ∃ r1 r2 r12,
    outcome (_combinatorial_montecarlo_shapley welford_update (λ _, [∅; {[0%nat; 1%nat]}])
               [0%nat] u_count 2) = Ok r1
    ∧ outcome (_combinatorial_montecarlo_shapley welford_update (λ _, [∅; {[0%nat; 1%nat]}])
                 [1%nat] u_count 2) = Ok r2
    ∧ outcome (_combinatorial_montecarlo_shapley welford_update (λ _, [∅; {[0%nat; 1%nat]}])
                 [0%nat; 1%nat] u_count 2) = Ok r12
    ∧ outcome (combinatorial_reducer u_count [r1; r2]) = Ok r12.
Proof.
  destruct (combinatorial_reducer_disjoint_sum welford_update
              (λ _, [∅; {[0%nat; 1%nat]}]) u_count 2) as (_ & Hchunks & _).
  - simpl. lia.
  - destruct (Hchunks [0%nat] [1%nat]) as (r1 & r2 & r12 & H1 & H2 & H12 & _ & _ & Hsum).
    + apply NoDup_cons. split; [|apply NoDup_singleton].
      intros ?%list_elem_of_singleton. done.
    + intros i [->|[->|[]%elem_of_nil]%elem_of_cons]%elem_of_cons; simpl; lia.
    + exists r1, r2, r12. split; [exact H1 |]. split; [exact H2 |].
      split; [exact H12 | exact Hsum].
Defined.

(** ** Owen sampling *)

Lemma for_each_app_ok {A S} (l1 l2 : list A) (body : A → S → M S) (s s1 : S) :
  outcome (for_each l1 body s) = Ok s1 →
  outcome (for_each (l1 ++ l2) body s) = outcome (for_each l2 body s1).
Proof.
  revert s. induction l1 as [|a l1 IH]; intros s; simpl.
  - by intros [= ->].
  - intros (s' & Hs' & H)%outcome_bind_inv.
    rewrite (outcome_bind_ok _ _ _ Hs'). by apply IH.
Qed.

(** One round of the innermost loop. *)
Lemma owen_update_ok (u : Utility) (method : OwenAlgorithm) (q : R) (s : gset nat)
    (i : nat) (vals : list R) (old : R) :
  vals !! i = Some old →
  outcome (owen_update u method q s i vals)
  = Ok (<[i := old + owen_contribution u method q s i]> vals).
Proof.
  intros Hold. unfold owen_update, owen_contribution.
  destruct (decide (i ∈ s)).
  - destruct method.
    + rewrite decide_True by done. rewrite Rplus_0_r, list_insert_id by done. done.
    + rewrite decide_False by done. rewrite !outcome_call. by apply add_item_ok.
  - rewrite !outcome_call. by apply add_item_ok.
Qed.

(** The innermost loop adds, to every item, the contribution of the
    subset. *)
Lemma owen_items_loop (u : Utility) (method : OwenAlgorithm) (q : R) (s : gset nat)
    (vals : list R) (k : nat) :
  (k ≤ length vals)%nat →
  outcome (for_each (seq 0 k) (owen_update u method q s) vals)
  = Ok (imap (λ i v, if decide (i < k)%nat
                     then v + owen_contribution u method q s i else v) vals).
Proof.
  induction k as [|k IH]; intros Hk.
  - simpl. f_equal. apply list_eq. intros j.
    rewrite list_lookup_imap. destruct (vals !! j) as [v|]; [|done].
    done.
  - rewrite seq_S. simpl.
    rewrite (for_each_app_ok _ _ _ _ _ (IH ltac:(lia))). simpl.
    destruct (lookup_lt_is_Some_2 vals k) as [old Hold]; [lia |].
    erewrite outcome_bind_ok.
    2:{ apply (owen_update_ok _ _ _ _ _ _ old).
        rewrite list_lookup_imap, Hold. simpl. by rewrite decide_False by lia. }
    simpl. f_equal. apply list_eq. intros j.
    destruct (decide (j = k)) as [->|Hne].
    + rewrite list_lookup_insert_eq by (rewrite length_imap; lia).
      rewrite list_lookup_imap, Hold. simpl. by rewrite decide_True by lia.
    + rewrite list_lookup_insert_ne by done.
      rewrite !list_lookup_imap. destruct (vals !! j) as [v|]; [|done]. simpl.
      f_equal. destruct (decide (j < k)%nat).
      * by rewrite decide_True by lia.
      * by rewrite decide_False by lia.
Qed.

Lemma add_contributions_length {X} (c : X → nat → R) (xs : list X) (vals : list R) :
  length (foldl (add_contributions c) vals xs) = length vals.
Proof.
  revert vals. induction xs as [|x xs IH]; intros vals; simpl; [done |].
  rewrite IH. apply length_imap.
Qed.

Lemma add_contributions_lookup {X} (c : X → nat → R) (xs : list X) (vals : list R)
    (i : nat) (v0 : R) :
  vals !! i = Some v0 →
  foldl (add_contributions c) vals xs !! i
  = Some (v0 + sum_R ((λ x, c x i) <$> xs)).
Proof.
  revert vals v0. induction xs as [|x xs IH]; intros vals v0 Hv0; simpl.
  - rewrite Hv0. f_equal. lra.
  - rewrite (IH _ (v0 + c x i)).
    + f_equal. apply Rplus_assoc.
    + unfold add_contributions. by rewrite list_lookup_imap, Hv0.
Qed.

(** The loop over the subsets sampled for one value of [q]. *)
Lemma owen_subsets_loop (u : Utility) (method : OwenAlgorithm) (q : R)
    (subsets : list (gset nat)) (vals : list R) :
  length vals = data_len u →
  outcome (for_each subsets
    (λ s values,
       tell (Sampled s);;
       for_each (data_indices u) (owen_update u method q s) values)
    vals)
  = Ok (foldl (add_contributions (owen_contribution u method q)) vals subsets)
  ∧ length (foldl (add_contributions (owen_contribution u method q)) vals subsets)
    = data_len u.
Proof.
  intros Hlen.
  apply (for_each_pure (λ vals : list R, length vals = data_len u)
           (λ s vals, add_contributions (owen_contribution u method q) vals s));
    [done |].
  intros s vs _ Hvs. rewrite outcome_tell. unfold data_indices.
  rewrite owen_items_loop by lia. split.
  - f_equal. unfold add_contributions. apply imap_ext.
    intros i v Hi%lookup_lt_Some. simpl. by rewrite decide_True by lia.
  - unfold add_contributions. by rewrite length_imap.
Qed.

Lemma owen_worker_ok (draws : nat → R → list (gset nat)) (q_values : list R)
    (u : Utility) (method : OwenAlgorithm) (max_iterations : Z) :
  ∃ vals,
    outcome (_owen_sampling_shapley draws q_values u method max_iterations)
    = Ok {| values := vals;
            stderr := zeros (data_len u);
            n_samples := Some (Z.of_nat (length q_values) * max_iterations)%Z |}
    ∧ length vals = data_len u
    ∧ ∀ i, (i < data_len u)%nat →
        vals !! i = Some (owen_sum draws u method max_iterations q_values i).
Proof.
  unfold _owen_sampling_shapley.
  set (step := λ (kq : nat * R) (vals : list R),
    foldl (add_contributions (owen_contribution u method (snd kq))) vals
      (owen_subsets draws u max_iterations (fst kq) (snd kq))).
  destruct (for_each_pure (λ vals : list R, length vals = data_len u) step
    (enumerate q_values)
    (λ '(k, q) values,
       let power_set :=
         random_powerset (draws k q) (list_to_set (data_indices u)) max_iterations in
       for_each power_set
         (λ s values,
            tell (Sampled s);;
            for_each (data_indices u) (owen_update u method q s) values)
         values)
    (zeros (data_len u))) as [Hok Hlen].
  - apply length_zeros.
  - intros [k q] vs _ Hvs. by apply owen_subsets_loop.
  - eexists. rewrite (outcome_bind_ok _ _ _ Hok). unfold zeros_like. rewrite Hlen.
    split; [done |]. split; [done |].
    intros i Hi. unfold owen_sum.
    assert (∀ kqs vals v0, vals !! i = Some v0 →
      foldl (λ vals kq, step kq vals) vals kqs !! i
      = Some (v0 + sum_R ((λ kq : nat * R,
                sum_R ((λ s, owen_contribution u method (snd kq) s i)
                         <$> owen_subsets draws u max_iterations (fst kq) (snd kq)))
               <$> kqs))) as Hsum.
    { induction kqs as [|kq kqs IH]; intros vals v0 Hv0; simpl.
      - rewrite Hv0. f_equal. lra.
      - erewrite IH.
        + f_equal. apply Rplus_assoc.
        + unfold step. by apply add_contributions_lookup. }
    rewrite (Hsum _ _ 0) by (by apply lookup_zeros). f_equal. lra.
Qed.

(** C5. In the innermost loop of the Owen worker, for the subset [s]
    sampled with probability [q] and an item [i] whose accumulated value is
    [old]: when [i] is not in [s], in either mode, the value becomes
    [old + (u({i} ∪ s) - u(s)) / max(1/500, 1 - q)]; when [i] is in [s], in
    Full mode nothing changes and the utility is not called, and in Halved
    mode the value becomes
    [old + (u({i} ∪ s^c) - u(s^c)) / max(1/500, 1 - q)] with [s^c] the
    complement of [s] in the index set.  The worker returns, for every
    item, the sum of these contributions over all subsets it samples. *)
Theorem owen_marginal_contributions
    (draws : nat → R → list (gset nat)) (q_values : list R) (u : Utility)
    (method : OwenAlgorithm) (max_iterations : Z)
    (q : R) (s : gset nat) (i : nat) (vals : list R) (old : R) :
  vals !! i = Some old →
  let indices : gset nat := list_to_set (data_indices u) in
  let correction := Rmax (1 / 500) (1 - q) in
  (i ∉ s →
   outcome (owen_update u method q s i vals)
   = Ok (<[i := old + (score_of u ({[i]} ∪ s) - score_of u s) / correction]> vals))
  ∧ (i ∈ s → owen_update u Full q s i vals = ([], Ok vals))
  ∧ (i ∈ s →
     outcome (owen_update u Halved q s i vals)
     = Ok (<[i := old + (score_of u ({[i]} ∪ indices ∖ s) - score_of u (indices ∖ s))
                      / correction]> vals))
  ∧ ∃ r,
      outcome (_owen_sampling_shapley draws q_values u method max_iterations) = Ok r
      ∧ ∀ j, (j < data_len u)%nat →
          values r !! j = Some (owen_sum draws u method max_iterations q_values j).
Proof.
  intros Hold indices correction. split; [|split; [|split]].
  - intros Hout. rewrite (owen_update_ok _ _ _ _ _ _ old) by done.
    unfold owen_contribution. by rewrite decide_False.
  - intros Hin. unfold owen_update. by rewrite !decide_True.
  - intros Hin. rewrite (owen_update_ok _ _ _ _ _ _ old) by done.
    unfold owen_contribution. by rewrite decide_True.
  - destruct (owen_worker_ok draws q_values u method max_iterations)
      as (vs & Hok & _ & Hsum).
    eexists. split; [exact Hok | exact Hsum].
Qed.

Lemma owen_marginal_contributions_witness :
  outcome (owen_update u_count Halved (1 / 2) {[0%nat]} 0 [0; 0])
  = Ok (<[0%nat := 0 + (score_of u_count ({[0%nat]} ∪ list_to_set (data_indices u_count) ∖ {[0%nat]})
                        - score_of u_count (list_to_set (data_indices u_count) ∖ {[0%nat]}))
                       / Rmax (1 / 500) (1 - 1 / 2)]> [0; 0]).
Proof.
  apply (owen_marginal_contributions (λ _ _, []) [] u_count Halved 1 (1 / 2)
           {[0%nat]} 0 [0; 0] 0).
  - reflexivity.
  - by apply elem_of_singleton.
Defined.

(** *** The reducer of Owen sampling *)

Lemma owen_reducer_loop (n : nat) (rs : list MonteCarloResults) (vals : list R)
    (total : Z) :
  length vals = n →
  (∀ r, r ∈ rs → length (values r) = n ∧ is_Some (n_samples r)) →
  outcome (for_each rs
    (λ r '(vals, total),
       vals ← iadd vals (values r);
       match n_samples r with
       | Some samples => mret (vals, (total + samples)%Z)
       | None => raise TypeError
       end)
    (vals, total))
  = Ok (foldl (zip_with Rplus) vals (values <$> rs),
        (total + sum_Z (samples_of <$> rs))%Z).
Proof.
  revert vals total. induction rs as [|r rs IH]; intros vals total Hlen Hrs.
  - simpl. by rewrite Z.add_0_r.
  - destruct (Hrs r) as [Hr [k Hk]]; [by left |].
    rewrite fmap_cons. cbn [for_each foldl].
    erewrite outcome_bind_ok.
    2:{ cbv beta iota. rewrite iadd_ok by congruence.
        rewrite outcome_ret_bind, Hk. done. }
    rewrite IH.
    + rewrite fmap_cons. unfold samples_of at 2. rewrite Hk.
      cbn [sum_Z foldr]. f_equal. f_equal.
      unfold sum_Z. lia.
    + rewrite length_zip_with_l_eq; congruence.
    + intros r' Hr'. apply Hrs. by right.
Qed.

(** What the reducer returns on results that carry their sample counts. *)
Lemma owen_reducer_ok (u : Utility) (rs : list MonteCarloResults) :
  (∀ r, r ∈ rs → length (values r) = data_len u ∧ is_Some (n_samples r)) →
  ∃ vals,
    outcome (owen_reducer u rs)
    = Ok {| values := vals; stderr := zeros (data_len u); n_samples := None |}
    ∧ length vals = data_len u
    ∧ ∀ i, (i < data_len u)%nat →
        vals !! i = Some (np_divide (sum_R (column i (values <$> rs)))
                            (sum_Z (samples_of <$> rs))).
Proof.
  intros Hrs. unfold owen_reducer.
  rewrite (outcome_bind_ok _ _ _
             (owen_reducer_loop (data_len u) rs _ 0 (length_zeros _) Hrs)).
  assert (∀ row, row ∈ values <$> rs → length row = length (zeros (data_len u)))
    as Hrows.
  { intros row (r & -> & Hr)%list_elem_of_fmap. rewrite length_zeros.
    by apply Hrs. }
  exists ((λ v, np_divide v (0 + sum_Z (samples_of <$> rs)))
            <$> foldl (zip_with Rplus) (zeros (data_len u)) (values <$> rs)).
  assert (length ((λ v, np_divide v (0 + sum_Z (samples_of <$> rs)))
            <$> foldl (zip_with Rplus) (zeros (data_len u)) (values <$> rs))
          = data_len u) as Hlen.
  { by rewrite length_fmap, colsum_length, length_zeros. }
  split; [|split; [done |]].
  - rewrite outcome_ret. unfold zeros_like. by rewrite Hlen.
  - intros i Hi. rewrite list_lookup_fmap.
    rewrite (colsum_lookup _ _ i 0) by (by try apply lookup_zeros).
    cbn [fmap option_fmap option_map]. f_equal.
    by rewrite Rplus_0_l, Z.add_0_l.
Qed.

Lemma np_divide_ok (x : R) (n : Z) : n ≠ 0%Z → np_divide x n = x / IZR n.
Proof. intros Hn. unfold np_divide. by rewrite decide_False. Qed.

Lemma gather_Forall2 {X A} (f : X → M A) (Q : X → A → Prop) (l : list X) :
  (∀ x, x ∈ l → ∃ a, outcome (f x) = Ok a ∧ Q x a) →
  ∃ outputs, gather (f <$> l) = Ok outputs ∧ Forall2 Q l outputs.
Proof.
  induction l as [|x l IH]; intros H.
  - exists []. split; [done | constructor].
  - destruct (H x) as (a & Ha & HQ); [by left |].
    destruct IH as (outputs & Hg & HF); [intros y Hy; apply H; by right |].
    exists (a :: outputs). rewrite fmap_cons. cbn [gather].
    rewrite Ha, Hg. split; [done | by constructor].
Qed.

Lemma snd_enumerate {A} (l : list A) : snd <$> enumerate l = l.
Proof.
  unfold enumerate. apply list_eq. intros i.
  rewrite list_lookup_fmap, list_lookup_imap. by destruct (l !! i).
Qed.

Lemma sum_Z_chunks (chunks : list (list R)) (k : Z) :
  sum_Z ((λ chunk, Z.of_nat (length chunk) * k)%Z <$> chunks)
  = (Z.of_nat (length (concat chunks)) * k)%Z.
Proof.
  induction chunks as [|c chunks IH]; [done |].
  rewrite fmap_cons. unfold sum_Z in *. cbn [foldr concat].
  rewrite IH, length_app. lia.
Qed.

(** Every worker of the Owen job succeeds and reports the number of
    samples of its chunk. *)
Lemma owen_workers_ok (draws : nat → nat → R → list (gset nat))
    (chunks : list (list R)) (u : Utility) (method : OwenAlgorithm)
    (max_iterations : Z) :
  ∃ outputs,
    gather ((λ '(j, chunk),
               _owen_sampling_shapley (draws j) chunk u method max_iterations)
              <$> enumerate chunks) = Ok outputs
    ∧ (∀ r, r ∈ outputs →
         length (values r) = data_len u ∧ stderr r = zeros (data_len u)
         ∧ is_Some (n_samples r))
    ∧ sum_Z (samples_of <$> outputs)
      = (Z.of_nat (length (concat chunks)) * max_iterations)%Z.
Proof.
  destruct (gather_Forall2
    (λ '(j, chunk), _owen_sampling_shapley (draws j) chunk u method max_iterations)
    (λ (p : nat * list R) r,
       length (values r) = data_len u ∧ stderr r = zeros (data_len u)
       ∧ n_samples r = Some (Z.of_nat (length (snd p)) * max_iterations)%Z)
    (enumerate chunks)) as (outputs & Hg & HF).
  { intros [j chunk] _.
    destruct (owen_worker_ok (draws j) chunk u method max_iterations)
      as (vals & Hok & Hlen & _).
    eexists. split; [exact Hok | done]. }
  exists outputs. split; [done |]. split.
  - intros r Hr. apply list_elem_of_lookup in Hr as [k Hk].
    destruct (Forall2_lookup_r _ _ _ _ _ HF Hk) as (p & _ & H1 & H2 & H3).
    rewrite H3. eauto.
  - rewrite <-sum_Z_chunks. rewrite <-(snd_enumerate chunks) at 1.
    rewrite <-list_fmap_compose.
    clear Hg. induction HF as [|p r ps rs (_ & _ & Hp) _ IH]; [done |].
    rewrite !fmap_cons. unfold sum_Z in *. cbn [foldr].
    rewrite IH. unfold samples_of at 1. rewrite Hp. done.
Qed.

(** The mapping of names to standard errors holds nothing but zeros. *)
Lemma dict_of_zeros (u : Utility) (n : nat) (name : string) (e : R) :
  dict_of_names u (zeros n) !! name = Some e → e = 0.
Proof.
  unfold dict_of_names.
  assert (∀ (l : list (nat * R)) (d : gmap string R),
    (∀ p, p ∈ l → snd p = 0) →
    (∀ k x, d !! k = Some x → x = 0) →
    ∀ k x, foldl (λ d '(i, v), <[data_names u i := v]> d) d l !! k = Some x → x = 0)
    as Hfold.
  { induction l as [|[i v] l IH]; intros d Hl Hd k x; simpl; [apply Hd |].
    apply IH.
    - intros p Hp. apply Hl. by right.
    - intros k' x' [[_ <-] | [_ H]]%lookup_insert_Some.
      + apply (Hl (i, v)). by left.
      + by eapply Hd. }
  apply Hfold.
  - intros [i v] [Hv _]%elem_of_enumerate%list_elem_of_lookup_2%elem_of_replicate.
    done.
  - intros k x. by rewrite lookup_empty.
Qed.

Lemma dict_of_names_has (u : Utility) (a : list R) (i : nat) :
  (i < length a)%nat → is_Some (dict_of_names u a !! data_names u i).
Proof.
  intros Hi. unfold dict_of_names.
  assert (∀ (l : list (nat * R)) (d : gmap string R) k,
    is_Some (d !! k) ∨ (∃ v, (i, v) ∈ l ∧ k = data_names u i) →
    is_Some (foldl (λ d '(i, v), <[data_names u i := v]> d) d l !! k)) as Hfold.
  { induction l as [|[j v] l IH]; intros d k H; simpl.
    - destruct H as [H | (v & []%elem_of_nil & _)]. done.
    - apply IH. destruct H as [H | (w & [[= <- <-] | Hin]%elem_of_cons & ->)].
      + left. destruct (decide (data_names u j = k)) as [<-|Hne].
        * by rewrite lookup_insert_eq.
        * by rewrite lookup_insert_ne.
      + left. by rewrite lookup_insert_eq.
      + right. by exists w. }
  apply Hfold. right.
  destruct (lookup_lt_is_Some_2 a i Hi) as [v Hv].
  exists v. split; [by apply elem_of_enumerate | done].
Qed.

Lemma length_linspace (stop : R) (num : nat) : length (linspace stop num) = num.
Proof. unfold linspace. by rewrite length_fmap, length_seq. Qed.

Lemma owen_results_ok (chunkify : list R → nat → list (list R))
    (draws : nat → nat → R → list (gset nat)) (u : Utility)
    (max_iterations : Z) (max_q : Z) (method : OwenAlgorithm) (n_jobs : nat) :
  (0 ≤ max_q)%Z →
  let chunks := chunkify (linspace (q_stop method) (Z.to_nat max_q)) n_jobs in
  ∃ outputs vals,
    gather ((λ '(j, chunk),
               _owen_sampling_shapley (draws j) chunk u method max_iterations)
              <$> enumerate chunks) = Ok outputs
    ∧ owen_results chunkify draws u max_iterations max_q method n_jobs
      = Ok {| values := vals; stderr := zeros (data_len u); n_samples := None |}
    ∧ length vals = data_len u
    ∧ ∀ i, (i < data_len u)%nat →
        vals !! i
        = Some (np_divide (sum_R (column i (values <$> outputs)))
                  (Z.of_nat (length (concat chunks)) * max_iterations)).
Proof.
  intros Hq chunks.
  destruct (owen_workers_ok draws chunks u method max_iterations)
    as (outputs & Hg & Hout & Hsum).
  destruct (owen_reducer_ok u outputs) as (vals & Hred & Hlen & Hvals).
  { intros r Hr. destruct (Hout r Hr) as (? & _ & ?). done. }
  exists outputs, vals. split; [done |]. split; [|split; [done |]].
  - unfold owen_results. rewrite decide_False by lia.
    unfold map_reduce_job. fold chunks. by rewrite Hg.
  - intros i Hi. rewrite <-Hsum. by apply Hvals.
Qed.

(** C6. The reducer of [owen_sampling_shapley] adds the value vectors of
    the workers and, separately, their sample counts, and, when the summed
    count is not zero, divides the summed vector once by it.  Every worker
    reports [len(q_values) * max_iterations] samples; when the job cuts
    the [max_q] values of [q] into chunks, the divisor is
    [max_q * max_iterations], which is not zero for [max_q > 0] and
    [max_iterations] other than 0. *)
Theorem owen_reduction_divides_once (u : Utility) (rs : list MonteCarloResults) :
  (∀ r, r ∈ rs → length (values r) = data_len u ∧ is_Some (n_samples r)) →
  sum_Z (samples_of <$> rs) ≠ 0%Z →
  (∃ res,
     outcome (owen_reducer u rs) = Ok res
     ∧ ∀ i, (i < data_len u)%nat →
         values res !! i
         = Some (sum_R (column i (values <$> rs))
                 / IZR (sum_Z (samples_of <$> rs))))
  ∧ (∀ draws q_values method max_iterations,
       ∃ w,
         outcome (_owen_sampling_shapley draws q_values u method max_iterations)
         = Ok w
         ∧ length (values w) = data_len u
         ∧ n_samples w = Some (Z.of_nat (length q_values) * max_iterations)%Z)
  ∧ (∀ (chunkify : list R → nat → list (list R)) draws max_iterations max_q
       method n_jobs,
       (0 < max_q)%Z →
       max_iterations ≠ 0%Z →
       let q_steps := linspace (q_stop method) (Z.to_nat max_q) in
       concat (chunkify q_steps n_jobs) = q_steps →
       ∃ outputs res,
         gather ((λ '(j, chunk),
                    _owen_sampling_shapley (draws j) chunk u method max_iterations)
                   <$> enumerate (chunkify q_steps n_jobs)) = Ok outputs
         ∧ owen_results chunkify draws u max_iterations max_q method n_jobs = Ok res
         ∧ ∀ i, (i < data_len u)%nat →
             values res !! i
             = Some (sum_R (column i (values <$> outputs))
                     / IZR (max_q * max_iterations))).
Proof.
  intros Hrs Htotal. split; [|split].
  - destruct (owen_reducer_ok u rs Hrs) as (vals & Hred & _ & Hvals).
    eexists. split; [exact Hred |].
    intros i Hi. cbn [values]. by rewrite (Hvals i Hi), np_divide_ok.
  - intros draws q_values method max_iterations.
    destruct (owen_worker_ok draws q_values u method max_iterations)
      as (vals & Hok & Hlen & _).
    eexists. split; [exact Hok | done].
  - intros chunkify draws max_iterations max_q method n_jobs Hq Hiter q_steps Hchunks.
    destruct (owen_results_ok chunkify draws u max_iterations max_q method n_jobs)
      as (outputs & vals & Hg & Hres & _ & Hvals); [lia |].
    exists outputs. eexists. split; [exact Hg |]. split; [exact Hres |].
    intros i Hi. cbn [values]. rewrite (Hvals i Hi). fold q_steps.
    rewrite Hchunks. unfold q_steps. rewrite length_linspace.
    rewrite Z2Nat.id by lia. rewrite np_divide_ok; [done | nia].
Qed.

Lemma owen_reduction_divides_once_witness :
  ∃ res,
    outcome (owen_reducer u_single uneven_results) = Ok res
    ∧ ∀ i, (i < data_len u_single)%nat →
        values res !! i
        = Some (sum_R (column i (values <$> uneven_results))
                / IZR (sum_Z (samples_of <$> uneven_results))).
Proof.
  apply (owen_reduction_divides_once u_single uneven_results).
  - intros r [->|[->|[]%elem_of_nil]%elem_of_cons]%elem_of_cons;
      (split; [reflexivity | by eexists]).
  - discriminate.
Defined.

(** On [uneven_results] the quotient of the sums is 1, while the mean of
    the quotients of the workers is 4/3. *)
Lemma owen_reduction_not_per_worker :
  sum_R (column 0 (values <$> uneven_results))
  / IZR (sum_Z (samples_of <$> uneven_results)) = 1
  ∧ mean ((λ r, match values r !! 0%nat with Some v => v | None => 0 end
                / IZR (samples_of r)) <$> uneven_results) = 4 / 3.
Proof.
  unfold mean, column, sum_R, sum_Z, samples_of, uneven_results. simpl.
  rewrite !plus_IZR. split; lra.
Qed.

(** *** The standard errors of Owen sampling *)

Lemma iadd_length (a b c : list R) :
  outcome (iadd a b) = Ok c → length c = length a.
Proof.
  unfold iadd. destruct (decide _) as [Hlen|_].
  - intros [= <-]. by rewrite length_zip_with_l_eq.
  - destruct b as [|x [|y b]]; [done | | done].
    intros [= <-]. by rewrite length_fmap.
Qed.

Lemma owen_reducer_stderr (u : Utility) (rs : list MonteCarloResults)
    (res : MonteCarloResults) :
  outcome (owen_reducer u rs) = Ok res → stderr res = zeros (data_len u).
Proof.
  unfold owen_reducer.
  intros ([vals total] & Hloop & [= <-])%outcome_bind_inv.
  cbn [stderr]. unfold zeros_like. rewrite length_fmap. f_equal.
  change (length (fst (vals, total)) = data_len u).
  eapply (for_each_inv (λ st : list R * Z, length (fst st) = data_len u));
    [| | exact Hloop].
  - apply length_zeros.
  - intros r [vs t] [vs' t'] _ Hvs. simpl in Hvs.
    intros (vs'' & Hadd%iadd_length & H)%outcome_bind_inv.
    destruct (n_samples r); [|done]. injection H as <- _. simpl. congruence.
Qed.

(** C9. [owen_sampling_shapley] returns, for every utility, budget, mode,
    chunking and number of workers, a mapping of standard errors all of
    whose entries are zero: every worker returns a vector of zeros as its
    standard errors, so does the reducer, and so the returned mapping has
    the entry 0 for every item.  It returns whenever [max_q] is not
    negative. *)
Theorem owen_standard_errors_are_zero
    (chunkify : list R → nat → list (list R))
    (draws : nat → nat → R → list (gset nat)) (u : Utility)
    (max_iterations : Z) (max_q : Z) (method : OwenAlgorithm) (n_jobs : nat) :
  (∀ worker_draws q_values,
     ∃ w,
       outcome (_owen_sampling_shapley worker_draws q_values u method max_iterations)
       = Ok w
       ∧ stderr w = zeros (data_len u))
  ∧ (∀ rs res, outcome (owen_reducer u rs) = Ok res → stderr res = zeros (data_len u))
  ∧ ((0 ≤ max_q)%Z →
     ∃ vals errs,
       owen_sampling_shapley chunkify draws u max_iterations max_q method n_jobs
       = Ok (vals, errs))
  ∧ (∀ vals errs,
       owen_sampling_shapley chunkify draws u max_iterations max_q method n_jobs
       = Ok (vals, errs) →
       (∀ name e, errs !! name = Some e → e = 0)
       ∧ ∀ i, (i < data_len u)%nat → errs !! data_names u i = Some 0).
Proof.
  split; [|split; [|split]].
  - intros worker_draws q_values.
    destruct (owen_worker_ok worker_draws q_values u method max_iterations)
      as (vals & Hok & _).
    eexists. split; [exact Hok | done].
  - apply owen_reducer_stderr.
  - intros Hq.
    destruct (owen_results_ok chunkify draws u max_iterations max_q method n_jobs Hq)
      as (outputs & vals & _ & Hres & _).
    unfold owen_sampling_shapley. rewrite Hres. eauto.
  - intros vals errs. unfold owen_sampling_shapley.
    destruct (owen_results _ _ _ _ _ _ _) as [res|e] eqn:Hres; [|done].
    intros [= <- <-].
    assert (stderr res = zeros (data_len u)) as ->.
    { unfold owen_results in Hres. destruct (decide _); [done |].
      unfold map_reduce_job in Hres. destruct (gather _) as [outputs|]; [|done].
      by eapply owen_reducer_stderr. }
    split; [apply dict_of_zeros |].
    intros i Hi.
    destruct (dict_of_names_has u (zeros (data_len u)) i) as [e He];
      [by rewrite length_zeros |].
    rewrite He. f_equal. by eapply dict_of_zeros.
Qed.

Lemma owen_standard_errors_are_zero_witness :
  ∃ vals errs,
    owen_sampling_shapley (λ q_steps _, [q_steps]) (λ _ _ _, [{[0%nat]}; ∅])
      u_count 2 3 Halved 1 = Ok (vals, errs)
    ∧ errs !! "a"%string = Some 0
    ∧ errs !! "b"%string = Some 0.
Proof.
  destruct (owen_standard_errors_are_zero (λ q_steps _, [q_steps])
              (λ _ _ _, [{[0%nat]}; ∅]) u_count 2 3 Halved 1)
    as (_ & _ & Hreturns & Hzero).
  destruct Hreturns as (vals & errs & Hok); [lia |].
  exists vals, errs. split; [exact Hok |].
  destruct (Hzero vals errs Hok) as [_ Hitems].
  split; [apply (Hitems 0%nat) | apply (Hitems 1%nat)]; simpl; lia.
Defined.

(** ** The truncated estimator *)

Lemma check_done_without_thresholds (now : Truncated.Snapshot) :
  Truncated.check_done
    {| Truncated.value_tolerance := None; Truncated.max_iterations := None |} now
  = false.
Proof. unfold Truncated.check_done. apply andb_false_r. Qed.

(** A coordinator that never answers done keeps the loop going. *)
Lemma polling_loop_unbounded (clock : nat → R) (snapshot : nat → Truncated.Snapshot)
    (c : Truncated.ShapleyCoordinator) (frequency : R) (fuel readings polls : nat)
    (last_update_time : R) :
  (∀ now, Truncated.check_done c now = false) →
  Truncated.polling_loop clock snapshot fuel c frequency readings polls
    last_update_time = None.
Proof.
  intros Hnever. revert readings polls last_update_time.
  induction fuel as [|fuel IH]; intros readings polls last_update_time; simpl; [done |].
  destruct (decide _).
  - by rewrite Hnever, IH.
  - by rewrite IH.
Qed.

(** C7. [truncated_montecarlo_shapley] called with neither
    [value_tolerance] nor [max_iterations] ends with the [ValueError] of the
    coordinator factory before a worker is created or started and before
    the coordinator is polled, whatever the clock, the workers and the
    number of rounds allowed to the loop.  Were a coordinator set up with
    these thresholds, no number of rounds would end the loop. *)
Theorem truncated_rejects_unbounded_run (clock : nat → R)
    (snapshot : nat → Truncated.Snapshot) (fuel : nat) (u : Utility)
    (n_jobs : nat) (coordinator_update_frequency : R) :
  Truncated.truncated_montecarlo_shapley clock snapshot
    Truncated.get_shapley_coordinator fuel u None None n_jobs
    coordinator_update_frequency
  = Some ([], Raise (ValueError
            "At least one of value_tolerance or max_iterations must be passed"))
  ∧ Truncated.truncated_montecarlo_shapley clock snapshot
      (λ value_tolerance max_iterations,
         Ok {| Truncated.value_tolerance := value_tolerance;
               Truncated.max_iterations := max_iterations |})
      fuel u None None n_jobs coordinator_update_frequency
    = None.
Proof.
  split; [done |].
  unfold Truncated.truncated_montecarlo_shapley.
  rewrite polling_loop_unbounded; [done |].
  apply check_done_without_thresholds.
Qed.

(** With a threshold the factory returns a coordinator, and a poll that
    finds an update merged and the budget of iterations used up answers
    done. *)
Lemma coordinator_with_budget (value_tolerance : option R) (budget : Z)
    (now : Truncated.Snapshot) :
  (0 < Truncated.total_iterations now)%Z →
  (budget ≤ Truncated.total_iterations now)%Z →
  ∃ c, Truncated.get_shapley_coordinator value_tolerance (Some budget) = Ok c
       ∧ Truncated.check_done c now = true.
Proof.
  intros Hmerged Hdone. eexists. split.
  - by destruct value_tolerance.
  - unfold Truncated.check_done.
    rewrite (bool_decide_eq_true_2 (0 < _)%Z) by done.
    destruct value_tolerance; simpl.
    + rewrite (bool_decide_eq_true_2 (budget ≤ _)%Z) by done. apply orb_true_r.
    + by rewrite bool_decide_eq_true_2.
Qed.

(** No poll answers done before an update has been merged. *)
Lemma check_done_needs_update (c : Truncated.ShapleyCoordinator)
    (now : Truncated.Snapshot) :
  (Truncated.total_iterations now ≤ 0)%Z → Truncated.check_done c now = false.
Proof.
  intros Hnone. unfold Truncated.check_done.
  by rewrite (bool_decide_eq_false_2 (0 < _)%Z) by lia.
Qed.

(** * Further properties of the estimators *)

(** ** Walks along a permutation *)

Lemma enumerate_snoc {A} (l : list A) (x : A) :
  enumerate (l ++ [x]) = enumerate l ++ [(length l, x)].
Proof.
  unfold enumerate. rewrite imap_app. simpl. by rewrite Nat.add_0_r.
Qed.

Lemma walk_state_end (u : Utility) (permutation : list nat) :
  marginal_row u permutation = fst (walk_state u permutation (length permutation)).
Proof. unfold marginal_row, walk_state. by rewrite firstn_all. Qed.

Lemma walk_state_step (u : Utility) (permutation : list nat) (k idx : nat) :
  permutation !! k = Some idx →
  walk_state u permutation (S k)
  = (<[idx := score_of u (list_to_set (take (S k) permutation))
              - snd (walk_state u permutation k)]> (fst (walk_state u permutation k)),
     score_of u (list_to_set (take (S k) permutation))).
Proof.
  intros Hk. unfold walk_state.
  rewrite (take_S_r _ _ _ Hk), enumerate_snoc, foldl_app.
  rewrite length_take_le by (apply Nat.lt_le_incl; by eapply lookup_lt_Some).
  simpl. by rewrite <-(take_S_r _ _ _ Hk).
Qed.

Lemma sum_R_insert (l : list R) (i : nat) (x y : R) :
  l !! i = Some x → sum_R (<[i := y]> l) = sum_R l - x + y.
Proof.
  revert i. induction l as [|a l IH]; intros [|i] H; simpl in *; try done.
  - injection H as ->. unfold sum_R. simpl. lra.
  - unfold sum_R in *. simpl. rewrite (IH i H). lra.
Qed.

Lemma sum_R_zeros (n : nat) : sum_R (zeros n) = 0.
Proof.
  induction n as [|n IH]; [done |].
  unfold sum_R, zeros in *. simpl. rewrite IH. lra.
Qed.

Lemma NoDup_take_fresh (p : list nat) (k idx : nat) :
  NoDup p → p !! k = Some idx → idx ∉ take k p.
Proof.
  intros Hnodup Hk Hin. apply list_elem_of_lookup in Hin as [j Hj].
  assert (j < k)%nat as Hlt.
  { apply lookup_lt_Some in Hj. rewrite length_take in Hj. lia. }
  rewrite lookup_take_lt in Hj by done.
  pose proof (NoDup_lookup _ _ _ _ Hnodup Hj Hk). lia.
Qed.

(** What a walk has written after [k] steps: nothing outside the items it
    has passed, and marginals that add up to its last score. *)
Lemma walk_state_invariant (u : Utility) (permutation : list nat) (k : nat) :
  NoDup permutation →
  (∀ idx, idx ∈ permutation → (idx < data_len u)%nat) →
  (k ≤ length permutation)%nat →
  let st := walk_state u permutation k in
  length (fst st) = data_len u
  ∧ sum_R (fst st) = snd st
  ∧ (∀ j, (j < data_len u)%nat → j ∉ take k permutation → fst st !! j = Some 0)
  ∧ snd st = match k with
             | O => 0
             | S _ => score_of u (list_to_set (take k permutation))
             end.
Proof.
  intros Hnodup Hrange. induction k as [|k IH]; intros Hk st.
  - subst st. unfold walk_state. simpl.
    split; [apply length_zeros |]. split; [apply sum_R_zeros |].
    split; [|done]. intros j Hj _. by apply lookup_zeros.
  - destruct (lookup_lt_is_Some_2 permutation k) as [idx Hidx]; [lia |].
    destruct IH as (Hlen & Hsum & Hzero & Hprev); [lia |].
    subst st. rewrite (walk_state_step _ _ _ _ Hidx). cbn [fst snd].
    assert (idx < data_len u)%nat as Hlt
      by (apply Hrange; by eapply list_elem_of_lookup_2).
    pose proof (NoDup_take_fresh _ _ _ Hnodup Hidx) as Hfresh.
    split; [by rewrite length_insert |]. split; [|split; [|done]].
    + rewrite (sum_R_insert _ _ 0) by (by apply Hzero). rewrite Hsum. lra.
    + intros j Hj Hout.
      rewrite (take_S_r _ _ _ Hidx) in Hout.
      rewrite list_lookup_insert_ne.
      * apply Hzero; [done |]. intros Hin. apply Hout, elem_of_app. by left.
      * intros ->. apply Hout, elem_of_app. right. by left.
Qed.

(** X1. A walk along a non-empty list of distinct items of the dataset
    succeeds, and the marginals of its row add up to the score of the set
    of all items of the list; items that are not in the list keep the
    marginal zero. *)
Theorem permutation_row_telescopes (u : Utility) (permutation : list nat) :
  NoDup permutation →
  (∀ idx, idx ∈ permutation → (idx < data_len u)%nat) →
  permutation ≠ [] →
  ∃ row,
    outcome (walk_permutation u permutation) = Ok row
    ∧ length row = data_len u
    ∧ sum_R row = score_of u (list_to_set permutation)
    ∧ ∀ j, (j < data_len u)%nat → j ∉ permutation → row !! j = Some 0.
Proof.
  intros Hnodup Hrange Hne.
  destruct (walk_permutation_ok u permutation Hrange) as [Hok Hlen].
  exists (marginal_row u permutation). split; [done |]. split; [done |].
  destruct (walk_state_invariant u permutation (length permutation) Hnodup Hrange)
    as (_ & Hsum & Hzero & Hprev); [done |].
  rewrite walk_state_end. rewrite firstn_all in Hzero, Hprev.
  split; [|done].
  rewrite Hsum, Hprev. destruct permutation; done.
Qed.

Lemma permutation_row_telescopes_witness :
  ∃ row,
    outcome (walk_permutation u_count [1%nat; 0%nat]) = Ok row
    ∧ length row = 2%nat
    ∧ sum_R row = score_of u_count (list_to_set [1%nat; 0%nat])
    ∧ ∀ j, (j < 2)%nat → j ∉ [1%nat; 0%nat] → row !! j = Some 0.
Proof.
  apply (permutation_row_telescopes u_count [1%nat; 0%nat]).
  - apply NoDup_cons. split; [|apply NoDup_singleton].
    intros ?%list_elem_of_singleton. done.
  - intros idx [->|[->|[]%elem_of_nil]%elem_of_cons]%elem_of_cons; simpl; lia.
  - done.
Defined.

(** ** Additive utilities *)

Lemma u_count_additive : additive u_count (λ _, 1).
Proof.
  split.
  - change (INR (size (∅ : gset nat)) = 0). by rewrite size_empty.
  - intros s i Hi.
    change (INR (size ({[i]} ∪ s)) = INR (size s) + 1).
    rewrite size_union by (by apply disjoint_singleton_l).
    rewrite size_singleton, plus_INR. simpl. lra.
Qed.

(** ** The calls of the utility *)

(** X4. A permutation worker whose permutations hold items of the dataset
    calls the utility once for every position of every permutation, on
    the set of the items up to that position, in the order of the walks;
    it never calls the utility on the empty set and never asks a subset
    sampler.  With permutations of [N] items it makes
    [max_permutations * N] calls. *)
Theorem permutation_worker_calls (permutation_of : nat → list nat) (u : Utility)
    (max_permutations : Z) :
  (0 ≤ max_permutations)%Z →
  (∀ k idx, idx ∈ permutation_of k → (idx < data_len u)%nat) →
  let calls := trace (_permutation_montecarlo_marginals permutation_of u
                        max_permutations) in
  calls
  = concat ((λ k, (λ i, Called (list_to_set (take (S i) (permutation_of k))))
                    <$> seq 0 (length (permutation_of k)))
              <$> seq 0 (Z.to_nat max_permutations))
  ∧ (∀ ev, ev ∈ calls → ∃ s, ev = Called s ∧ s ≠ ∅)
  ∧ ((∀ k, length (permutation_of k) = data_len u) →
     length calls = (Z.to_nat max_permutations * data_len u)%nat).
Proof.
  intros Hpos Hrange calls.
  assert (calls
    = concat ((λ k, (λ i, Called (list_to_set (take (S i) (permutation_of k))))
                      <$> seq 0 (length (permutation_of k)))
                <$> seq 0 (Z.to_nat max_permutations))) as Hcalls
    by (by apply permutation_worker_trace).
  split; [done |]. rewrite Hcalls. split.
  - intros ev (calls_k & (k & -> & _)%list_elem_of_fmap & Hev)%elem_of_concat.
    apply list_elem_of_fmap in Hev as (i & -> & Hi%elem_of_seq).
    eexists. split; [done |].
    destruct (lookup_lt_is_Some_2 (permutation_of k) i) as [idx Hidx]; [lia |].
    rewrite (take_S_r _ _ _ Hidx), list_to_set_app_L.
    intros Hempty. apply empty_union_L in Hempty as [_ Hempty].
    simpl in Hempty. rewrite (right_id_L ∅ (∪)) in Hempty.
    by apply non_empty_singleton_L in Hempty.
  - intros Hlen. rewrite length_concat_sum, <-list_fmap_compose.
    rewrite (sum_list_fmap_same (data_len u)).
    + by rewrite length_seq.
    + apply Forall_forall. intros k _. simpl.
      by rewrite length_fmap, length_seq.
Qed.

Lemma permutation_worker_calls_witness :
  trace (_permutation_montecarlo_marginals (λ _, [1%nat; 0%nat]) u_count 1)
  = [Called (list_to_set [1%nat]); Called (list_to_set [1%nat; 0%nat])].
Proof.
  apply (permutation_worker_calls (λ _, [1%nat; 0%nat]) u_count 1).
  - lia.
  - intros _ idx [->|[->|[]%elem_of_nil]%elem_of_cons]%elem_of_cons; simpl; lia.
Defined.

(** A round of the inner loop of the combinatorial worker has sampled its
    subset and called the utility twice, whether it ends normally or not. *)
Lemma accumulate_marginal_trace (acc : R → R → R → R → R * R) (u : Utility)
    (idx : nat) (s : gset nat) (st : list R * list R * list R) :
  trace (accumulate_marginal acc u idx s st)
  = [Sampled s; Called ({[idx]} ∪ s); Called s].
Proof.
  destruct st as [[vals vars] cnts].
  unfold accumulate_marginal, call, tell. cbn [mbind M_bind mret M_ret].
  destruct (to_float_cases (INR (comb (data_len u - 1) (size s)))) as [-> | ->];
    [|done].
  cbn [mbind M_bind mret M_ret].
  unfold divide, get_item, set_item.
  destruct (decide (INR _ = 0)); [done |].
  destruct (vals !! idx) as [m|]; [|done].
  destruct (vars !! idx) as [v|]; [|done].
  destruct (cnts !! idx) as [c|]; [|done].
  cbn. destruct (acc _ _ _ _) as [nm nv].
  destruct (decide (idx < length vals)%nat); [|done].
  destruct (decide (idx < length vars)%nat); [|done].
  destruct (decide (idx < length cnts)%nat); done.
Qed.

Lemma length_random_powerset (draws : list (gset nat)) (pool : gset nat)
    (max_subsets : Z) :
  (length (random_powerset draws pool max_subsets) ≤ Z.to_nat max_subsets)%nat.
Proof.
  unfold random_powerset. rewrite length_fmap, length_take. lia.
Qed.

Lemma length_concat_le {A} (ls : list (list A)) (b : nat) :
  (∀ l, l ∈ ls → (length l ≤ b)%nat) → (length (concat ls) ≤ length ls * b)%nat.
Proof.
  induction ls as [|l ls IH]; intros H; simpl; [lia |].
  rewrite length_app.
  assert (length l ≤ b)%nat by (apply H; by left).
  assert (length (concat ls) ≤ length ls * b)%nat
    by (apply IH; intros l' Hl'; apply H; by right).
  lia.
Qed.

Lemma M_ret_bind {A B} (a : A) (f : A → M B) : mret a ≫= f = f a.
Proof. unfold mbind, M_bind, mret, M_ret. by destruct (f a). Qed.

Lemma count_calls_app (t1 t2 : list event) :
  count_calls (t1 ++ t2) = (count_calls t1 + count_calls t2)%nat.
Proof. unfold count_calls. by rewrite fmap_app, sum_list_with_app. Qed.

Lemma count_calls_concat {X} (f : X → list event) (l : list X) :
  count_calls (concat (f <$> l)) = sum_list ((λ x, count_calls (f x)) <$> l).
Proof.
  induction l as [|x l IH]; [done |].
  rewrite !fmap_cons. cbn [concat].
  change (count_calls (f x ++ concat (f <$> l))
          = (count_calls (f x) + sum_list ((λ x, count_calls (f x)) <$> l))%nat).
  by rewrite count_calls_app, IH.
Qed.

Lemma sum_list_bounded {X} (f : X → nat) (l : list X) (b : nat) :
  (∀ x, x ∈ l → (f x ≤ b)%nat) → (sum_list (f <$> l) ≤ length l * b)%nat.
Proof.
  induction l as [|x l IH]; intros H; [done |].
  rewrite fmap_cons.
  change (f x + sum_list (f <$> l) ≤ S (length l) * b)%nat.
  assert (f x ≤ b)%nat by (apply H; by left).
  assert (sum_list (f <$> l) ≤ length l * b)%nat
    by (apply IH; intros y Hy; apply H; by right).
  lia.
Qed.

(** X5. A combinatorial worker given distinct items of a dataset of 1 to
    522 items takes the subsets of an item one after the other, and for
    each subset [s] calls the utility exactly twice, on [s ∪ {idx}] and
    then on [s]; it does nothing else that can be observed.  So it makes
    two calls of the utility for every sampled subset, at most
    [2 * len(indices) * max_iterations] calls. *)
Theorem combinatorial_worker_calls
    (get_running_avg_variance : R → R → R → R → R * R)
    (draws : nat → list (gset nat))
    (indices : list nat) (u : Utility) (max_iterations : Z) :
  NoDup indices →
  (∀ i, i ∈ indices → (i < data_len u)%nat) →
  (1 ≤ data_len u ≤ 522)%nat →
  let calls := trace (_combinatorial_montecarlo_shapley get_running_avg_variance
                        draws indices u max_iterations) in
  calls
  = concat ((λ idx,
               concat ((λ s, [Sampled s; Called ({[idx]} ∪ s); Called s])
                         <$> subsets_for draws u max_iterations idx))
              <$> indices)
  ∧ count_calls calls
    = (2 * sum_list ((λ idx, length (subsets_for draws u max_iterations idx))
                       <$> indices))%nat
  ∧ (count_calls calls ≤ 2 * (length indices * Z.to_nat max_iterations))%nat.
Proof.
  intros Hnodup Hrange Hn calls.
  assert (calls
    = concat ((λ idx,
                 concat ((λ s, [Sampled s; Called ({[idx]} ∪ s); Called s])
                           <$> subsets_for draws u max_iterations idx))
                <$> indices)) as Hcalls.
  { pose proof (combinatorial_worker_ok get_running_avg_variance draws indices u
                  max_iterations Hnodup Hrange Hn) as Hok.
    destruct (correction_range (data_len u) Hn) as [Hc Hc2].
    subst calls. unfold _combinatorial_montecarlo_shapley in *.
    destruct (decide _); [done |].
    rewrite divide_ok in * by (apply not_0_INR; lia).
    rewrite M_ret_bind in *. rewrite (to_float_ok _ Hc) in *.
    rewrite M_ret_bind in *.
    apply outcome_bind_inv in Hok as (st & Hloop & _).
    rewrite (trace_bind_ok _ _ _ Hloop).
    destruct st as [[vals vars] cnts]. cbv beta iota.
    rewrite (to_float_ok _ Hc2), M_ret_bind. cbn [trace fst mret M_ret].
    rewrite app_nil_r.
    eapply for_each_trace; [|exact Hloop].
    intros idx st st' _ Hinner. cbv zeta in *.
    eapply for_each_trace; [|exact Hinner].
    intros s t t' _ _. apply accumulate_marginal_trace. }
  assert (count_calls calls
    = (2 * sum_list ((λ idx, length (subsets_for draws u max_iterations idx))
                       <$> indices))%nat) as Hcount.
  { rewrite Hcalls, count_calls_concat.
    clear. induction indices as [|idx l IH]; [done |].
    rewrite !fmap_cons.
    change (count_calls (concat ((λ s, [Sampled s; Called ({[idx]} ∪ s); Called s])
                                   <$> subsets_for draws u max_iterations idx))
            + sum_list ((λ idx, count_calls
                          (concat ((λ s, [Sampled s; Called ({[idx]} ∪ s); Called s])
                                     <$> subsets_for draws u max_iterations idx)))
                          <$> l)
            = 2 * (length (subsets_for draws u max_iterations idx)
                   + sum_list ((λ idx, length (subsets_for draws u max_iterations idx))
                                 <$> l)))%nat.
    rewrite IH, count_calls_concat.
    rewrite (sum_list_fmap_same 2) by (apply Forall_forall; by intros s _).
    lia. }
  split; [done |]. split; [done |].
  rewrite Hcount.
  pose proof (sum_list_bounded
                (λ idx, length (subsets_for draws u max_iterations idx))
                indices (Z.to_nat max_iterations)) as Hle.
  assert (sum_list ((λ idx, length (subsets_for draws u max_iterations idx))
                      <$> indices) ≤ length indices * Z.to_nat max_iterations)%nat;
    [|lia].
  apply Hle. intros idx _. apply length_random_powerset.
Qed.

Lemma combinatorial_worker_calls_witness :
  let draws := λ _ : nat, [{[1%nat; 2%nat]}; {[0%nat; 1%nat]}; ∅] : list (gset nat) in
  let calls := trace (_combinatorial_montecarlo_shapley welford_update draws
                        [0%nat; 2%nat] u_square 3) in
  calls
  = concat ((λ idx,
               concat ((λ s, [Sampled s; Called ({[idx]} ∪ s); Called s])
                         <$> subsets_for draws u_square 3 idx))
              <$> [0%nat; 2%nat])
  ∧ count_calls calls
    = (2 * sum_list ((λ idx, length (subsets_for draws u_square 3 idx))
                       <$> [0%nat; 2%nat]))%nat
  ∧ (count_calls calls ≤ 2 * (length [0%nat; 2%nat] * Z.to_nat 3))%nat.
Proof.
  apply (combinatorial_worker_calls welford_update
           (λ _, [{[1%nat; 2%nat]}; {[0%nat; 1%nat]}; ∅]) [0%nat; 2%nat] u_square 3).
  - apply NoDup_cons. split; [|apply NoDup_singleton].
    intros ?%list_elem_of_singleton. done.
  - intros i [->|[->|[]%elem_of_nil]%elem_of_cons]%elem_of_cons; simpl; lia.
  - simpl. lia.
Defined.

Lemma for_each_nothing {A S} (l : list A) (body : A → S → M S) (s : S) :
  (∀ a s, a ∈ l → body a s = mret s) → for_each l body s = mret s.
Proof.
  induction l as [|a l IH]; intros H; [done |].
  cbn [for_each]. rewrite H by (by left).
  trans (for_each l body s); [|apply IH; intros b t Hb; apply H; by right].
  unfold mbind, M_bind, mret, M_ret. by destruct (for_each l body s).
Qed.

(** X6. With a budget [max_iterations <= 0] a combinatorial worker given
    distinct indices and a dataset of 1 to 522 items samples no subset,
    never calls the utility and returns zero for every value and every
    standard error, whatever the indices are. *)
Theorem combinatorial_worker_without_budget
    (get_running_avg_variance : R → R → R → R → R * R)
    (draws : nat → list (gset nat))
    (indices : list nat) (u : Utility) (max_iterations : Z) :
  NoDup indices →
  (1 ≤ data_len u ≤ 522)%nat →
  (max_iterations ≤ 0)%Z →
  _combinatorial_montecarlo_shapley get_running_avg_variance draws indices u
    max_iterations
  = ([], Ok {| values := zeros (data_len u);
               stderr := zeros (data_len u);
               n_samples := None |}).
Proof.
  intros Hnodup Hn Hbudget. unfold _combinatorial_montecarlo_shapley.
  destruct (correction_range (data_len u) Hn) as [Hc Hc2].
  rewrite decide_False by (by intros []; apply unique_length_iff).
  rewrite divide_ok by (apply not_0_INR; lia).
  rewrite M_ret_bind, (to_float_ok _ Hc), M_ret_bind.
  rewrite for_each_nothing.
  2:{ intros idx st _. cbv zeta. unfold random_powerset.
      by replace (Z.to_nat max_iterations) with 0%nat by lia. }
  rewrite M_ret_bind. cbv beta iota.
  rewrite (to_float_ok _ Hc2), M_ret_bind.
  unfold mret, M_ret. f_equal. f_equal. f_equal.
  - unfold zeros. rewrite fmap_replicate. f_equal. apply Rmult_0_r.
  - unfold zeros. rewrite zip_with_replicate. f_equal.
    unfold Rdiv. rewrite Rmult_0_r, Rmult_0_l. apply sqrt_0.
Qed.

Lemma combinatorial_worker_without_budget_witness :
  _combinatorial_montecarlo_shapley welford_update (λ _, [∅]) [5%nat; 0%nat]
    u_count 0
  = ([], Ok {| values := zeros 2; stderr := zeros 2; n_samples := None |}).
Proof.
  apply (combinatorial_worker_without_budget welford_update (λ _, [∅])
           [5%nat; 0%nat] u_count 0).
  - apply NoDup_cons. split; [|apply NoDup_singleton].
    intros ?%list_elem_of_singleton. done.
  - simpl. lia.
  - lia.
Defined.

(** ** The order of the results handed to a reducer *)

Lemma sum_R_perm (l l' : list R) : l ≡ₚ l' → sum_R l = sum_R l'.
Proof.
  unfold sum_R. induction 1 as [|x l l' _ IH|x y l|l l' l'' _ IH1 _ IH2]; simpl.
  - done.
  - by rewrite IH.
  - lra.
  - by rewrite IH1.
Qed.

Lemma column_perm (i : nat) (rows rows' : list (list R)) :
  rows ≡ₚ rows' → sum_R (column i rows) = sum_R (column i rows').
Proof. intros H. apply sum_R_perm. unfold column. by rewrite H. Qed.

Lemma list_eq_lookups (n : nat) (a b : list R) (f : nat → R) :
  length a = n → length b = n →
  (∀ i, (i < n)%nat → a !! i = Some (f i)) →
  (∀ i, (i < n)%nat → b !! i = Some (f i)) →
  a = b.
Proof.
  intros Ha Hb Hfa Hfb. apply list_eq. intros i.
  destruct (decide (i < n)%nat).
  - by rewrite Hfa, Hfb.
  - rewrite !lookup_ge_None_2; [done | lia | lia].
Qed.

Lemma pair_fold_split (rs : list MonteCarloResults) (vals errs : list R) :
  foldl (λ (st : list R * list R) r,
           (zip_with Rplus (fst st) (values r), zip_with Rplus (snd st) (stderr r)))
        (vals, errs) rs
  = (foldl (zip_with Rplus) vals (values <$> rs),
     foldl (zip_with Rplus) errs (stderr <$> rs)).
Proof.
  revert vals errs. induction rs as [|r rs IH]; intros vals errs; [done |].
  rewrite !fmap_cons. cbn [foldl fst snd]. apply IH.
Qed.

(** What the reducer of the combinatorial estimator returns on results of
    the length of the dataset. *)
Lemma combinatorial_reducer_ok (u : Utility) (rs : list MonteCarloResults) :
  (∀ r, r ∈ rs → length (values r) = data_len u ∧ length (stderr r) = data_len u) →
  ∃ vals errs,
    outcome (combinatorial_reducer u rs)
    = Ok {| values := vals; stderr := errs; n_samples := None |}
    ∧ length vals = data_len u ∧ length errs = data_len u
    ∧ (∀ i, (i < data_len u)%nat →
         vals !! i = Some (sum_R (column i (values <$> rs))))
    ∧ (∀ i, (i < data_len u)%nat →
         errs !! i = Some (sum_R (column i (stderr <$> rs)))).
Proof.
  intros Hrs. unfold combinatorial_reducer, zeros_like. rewrite length_zeros.
  erewrite outcome_bind_ok;
    [|apply (combinatorial_reducer_loop (data_len u)); try apply length_zeros; done].
  rewrite pair_fold_split. eexists _, _. split; [done |].
  assert (∀ row, row ∈ values <$> rs → length row = length (zeros (data_len u)))
    as Hv.
  { intros row (r & -> & Hr)%list_elem_of_fmap. rewrite length_zeros.
    by apply Hrs. }
  assert (∀ row, row ∈ stderr <$> rs → length row = length (zeros (data_len u)))
    as He.
  { intros row (r & -> & Hr)%list_elem_of_fmap. rewrite length_zeros.
    by apply Hrs. }
  rewrite !colsum_length, length_zeros by done.
  split; [done |]. split; [done |]. split.
  - intros i Hi. rewrite (colsum_lookup _ _ i 0) by (by try apply lookup_zeros).
    f_equal. lra.
  - intros i Hi. rewrite (colsum_lookup _ _ i 0) by (by try apply lookup_zeros).
    f_equal. lra.
Qed.

Lemma sum_R_all_zero (l : list R) :
  (∀ k y, l !! k = Some y → y = 0) → sum_R l = 0.
Proof.
  induction l as [|a l IH]; intros Hz; [done |].
  unfold sum_R in *. cbn [foldr].
  rewrite IH by (intros k y Hy; by apply (Hz (S k) y)).
  rewrite (Hz 0%nat a) by done. lra.
Qed.

(** The sum of a list whose entries are zero except at one place. *)
Lemma sum_R_single (l : list R) (j : nat) (x : R) :
  l !! j = Some x → (∀ k y, k ≠ j → l !! k = Some y → y = 0) → sum_R l = x.
Proof.
  revert j. induction l as [|a l IH]; intros [|j] Hj Hz; try done.
  - injection Hj as ->. unfold sum_R. cbn [foldr]. fold (sum_R l).
    rewrite sum_R_all_zero; [lra |].
    intros k y Hy. by apply (Hz (S k) y).
  - unfold sum_R. cbn [foldr]. fold (sum_R l).
    assert (sum_R l = x) as ->.
    { apply (IH j); [exact Hj |].
      intros k y Hk Hy. apply (Hz (S k) y); [lia | exact Hy]. }
    rewrite (Hz 0%nat a) by done. lra.
Qed.

Lemma column_lookup (i : nat) (rows : list (list R)) (k : nat) (row : list R) :
  rows !! k = Some row →
  column i rows !! k = Some (match row !! i with Some x => x | None => 0 end).
Proof. intros Hk. unfold column. by rewrite list_lookup_fmap, Hk. Qed.

(** X7. The reducer of the combinatorial estimator succeeds on results
    whose vectors have the length of the dataset.  On results with
    disjoint non-zero support, which are what the workers of the job
    return, it returns the same result in whatever order the results of
    the workers arrive: an entry of the result is the entry of the one
    worker that is not zero there, and zero where no worker has a
    non-zero entry. *)
Theorem combinatorial_reducer_order (u : Utility) (rs rs' : list MonteCarloResults) :
  rs ≡ₚ rs' →
  (∀ r, r ∈ rs → length (values r) = data_len u ∧ length (stderr r) = data_len u) →
  disjoint_support rs →
  ∃ res,
    outcome (combinatorial_reducer u rs) = Ok res
    ∧ outcome (combinatorial_reducer u rs') = Ok res
    ∧ (∀ i r x,
         r ∈ rs → x ≠ 0 →
         (values r !! i = Some x → values res !! i = Some x)
         ∧ (stderr r !! i = Some x → stderr res !! i = Some x))
    ∧ (∀ i,
         (i < data_len u)%nat → (∀ r, r ∈ rs → ¬ nonzero_at r i) →
         values res !! i = Some 0 ∧ stderr res !! i = Some 0).
Proof.
  intros Hperm Hrs Hdisj.
  destruct (combinatorial_reducer_ok u rs Hrs)
    as (vals & errs & Hok & Hlv & Hle & Hv & He).
  destruct (combinatorial_reducer_ok u rs')
    as (vals' & errs' & Hok' & Hlv' & Hle' & Hv' & He').
  { intros r Hr. apply Hrs. by rewrite Hperm. }
  eexists. split; [exact Hok |]. split; [|split].
  - rewrite Hok'. f_equal. f_equal.
    + apply (list_eq_lookups (data_len u) _ _
               (λ i, sum_R (column i (values <$> rs)))); try done.
      intros i Hi. rewrite Hv' by done. f_equal. apply column_perm.
      by rewrite Hperm.
    + apply (list_eq_lookups (data_len u) _ _
               (λ i, sum_R (column i (stderr <$> rs)))); try done.
      intros i Hi. rewrite He' by done. f_equal. apply column_perm.
      by rewrite Hperm.
  - intros i r x Hr Hx. cbn [values stderr].
    apply list_elem_of_lookup in Hr as [j Hj].
    destruct (Hrs r) as [Hrv Hre]; [by eapply list_elem_of_lookup_2 |].
    split; intros Hi.
    + assert (i < data_len u)%nat as Hlt
        by (rewrite <-Hrv; by eapply lookup_lt_Some).
      rewrite (Hv i Hlt). f_equal. apply (sum_R_single _ j).
      * rewrite (column_lookup i _ j (values r)), Hi; [done |].
        by rewrite list_lookup_fmap, Hj.
      * intros k y Hk Hy.
        unfold column in Hy. rewrite !list_lookup_fmap in Hy.
        destruct (rs !! k) as [r'|] eqn:Hr'; [|done].
        injection Hy as <-.
        destruct (values r' !! i) as [v|] eqn:Hv'i; [|done].
        destruct (decide (v = 0)) as [->|Hne]; [done |].
        destruct Hk. apply (Hdisj k j r' r i Hr' Hj).
        -- exists v. split; [by left | done].
        -- exists x. split; [by left | done].
    + assert (i < data_len u)%nat as Hlt
        by (rewrite <-Hre; by eapply lookup_lt_Some).
      rewrite (He i Hlt). f_equal. apply (sum_R_single _ j).
      * rewrite (column_lookup i _ j (stderr r)), Hi; [done |].
        by rewrite list_lookup_fmap, Hj.
      * intros k y Hk Hy.
        unfold column in Hy. rewrite !list_lookup_fmap in Hy.
        destruct (rs !! k) as [r'|] eqn:Hr'; [|done].
        injection Hy as <-.
        destruct (stderr r' !! i) as [v|] eqn:Hv'i; [|done].
        destruct (decide (v = 0)) as [->|Hne]; [done |].
        destruct Hk. apply (Hdisj k j r' r i Hr' Hj).
        -- exists v. split; [by right | done].
        -- exists x. split; [by right | done].
  - intros i Hi Hnone. cbn [values stderr].
    rewrite (Hv i Hi), (He i Hi). split; f_equal; apply sum_R_all_zero.
    + intros k y Hy. unfold column in Hy. rewrite !list_lookup_fmap in Hy.
      destruct (rs !! k) as [r'|] eqn:Hr'; [|done].
      injection Hy as <-.
      destruct (values r' !! i) as [v|] eqn:Hv'i; [|done].
      destruct (decide (v = 0)) as [->|Hne]; [done |].
      destruct (Hnone r'); [by eapply list_elem_of_lookup_2 |].
      exists v. split; [by left | done].
    + intros k y Hy. unfold column in Hy. rewrite !list_lookup_fmap in Hy.
      destruct (rs !! k) as [r'|] eqn:Hr'; [|done].
      injection Hy as <-.
      destruct (stderr r' !! i) as [v|] eqn:Hv'i; [|done].
      destruct (decide (v = 0)) as [->|Hne]; [done |].
      destruct (Hnone r'); [by eapply list_elem_of_lookup_2 |].
      exists v. split; [by right | done].
Qed.

Lemma combinatorial_reducer_order_witness :
  ∃ res,
    outcome (combinatorial_reducer u_count disjoint_results) = Ok res
    ∧ outcome (combinatorial_reducer u_count (reverse disjoint_results)) = Ok res
    ∧ values res !! 1%nat = Some 3
    ∧ stderr res !! 0%nat = Some 1.
Proof.
  destruct (combinatorial_reducer_order u_count disjoint_results
              (reverse disjoint_results)) as (res & Hok & Hok' & Hentry & _).
  - apply Permutation_swap.
  - intros r [->|[->|[]%elem_of_nil]%elem_of_cons]%elem_of_cons; by split.
  - intros j k r1 r2 i Hj Hk (x & Hx & Hxne) (y & Hy & Hyne).
    destruct j as [|[|j]], k as [|[|k]]; try done;
      injection Hj as <-; injection Hk as <-;
      destruct i as [|[|i]]; cbn in Hx, Hy;
      destruct Hx as [[=]|[=]], Hy as [[=]|[=]]; congruence.
  - exists res. split; [exact Hok |]. split; [exact Hok' |]. split.
    + apply (Hentry 1%nat {| values := [0; 3]; stderr := [0; 1]; n_samples := None |} 3).
      * right. by left.
      * lra.
      * reflexivity.
    + apply (Hentry 0%nat {| values := [2; 0]; stderr := [1; 0]; n_samples := None |} 1).
      * by left.
      * lra.
      * reflexivity.
Defined.

(** ** The mappings from names to numbers *)

Lemma dict_of_names_snoc (u : Utility) (a : list R) (x : R) :
  dict_of_names u (a ++ [x]) = <[data_names u (length a) := x]> (dict_of_names u a).
Proof. unfold dict_of_names. by rewrite enumerate_snoc, foldl_app. Qed.

(** X9. Every entry of the mapping built from a vector stems from an item:
    its key is the name of an item and its number the entry of that item.
    The name of an item is mapped to the entry of the item unless a later
    item has the same name; so with names that differ from one another
    every item is mapped to its own entry. *)
Theorem dict_of_names_entries (u : Utility) (a : list R) :
  (∀ name v,
     dict_of_names u a !! name = Some v →
     ∃ i, a !! i = Some v ∧ data_names u i = name)
  ∧ (∀ i v,
       a !! i = Some v →
       (∀ j, (i < j < length a)%nat → data_names u j ≠ data_names u i) →
       dict_of_names u a !! data_names u i = Some v).
Proof.
  induction a as [|x a [IH1 IH2]] using rev_ind.
  - split; [|done]. intros name v. unfold dict_of_names. simpl.
    by rewrite lookup_empty.
  - rewrite dict_of_names_snoc. split.
    + intros name v [[<- <-] | [Hne Hv]]%lookup_insert_Some.
      * exists (length a). split; [|done].
        by rewrite lookup_app_r, Nat.sub_diag by lia.
      * destruct (IH1 name v Hv) as (i & Hi & Hname).
        exists i. split; [|done]. by apply lookup_app_l_Some.
    + intros i v Hi Hlater. rewrite length_app in Hlater. simpl in Hlater.
      destruct (decide (i = length a)) as [->|Hne].
      * rewrite lookup_app_r, Nat.sub_diag in Hi by lia. injection Hi as <-.
        by rewrite lookup_insert_eq.
      * assert (i < length a)%nat as Hlt.
        { apply lookup_lt_Some in Hi. rewrite length_app in Hi. simpl in Hi. lia. }
        rewrite lookup_app_l in Hi by done.
        rewrite lookup_insert_ne by (apply Hlater; lia).
        apply IH2; [done |]. intros j Hj. apply Hlater. lia.
Qed.

Lemma dict_of_names_entries_witness :
  dict_of_names u_count [3; 4] !! data_names u_count 0 = Some 3.
Proof.
  apply (dict_of_names_entries u_count [3; 4]).
  - reflexivity.
  - intros j Hj. simpl in Hj. assert (j = 1%nat) as -> by lia. done.
Defined.

(** ** The weight of Owen sampling *)

Lemma owen_weight_pos (q : R) : 1 / 500 <= Rmax (1 / 500) (1 - q).
Proof. apply Rmax_l. Qed.

Lemma Rabs_div_weight (m w : R) : 1 / 500 <= w → Rabs (m / w) <= 500 * Rabs m.
Proof.
  intros Hw. assert (0 < w) by lra.
  unfold Rdiv. rewrite Rabs_mult, (Rabs_right (/ w)).
  2:{ apply Rle_ge, Rlt_le. by apply Rinv_0_lt_compat. }
  pose proof (Rabs_pos m) as Hm.
  assert (/ w <= 500) as Hinv.
  { replace 500 with (/ (1 / 500)) by field.
    apply Rinv_le_contravar; lra. }
  rewrite (Rmult_comm 500). apply Rmult_le_compat_l; done.
Qed.

(** X10. A round of the innermost loop of the Owen worker on an item of
    the value vector never raises, whatever [q] is; what it adds to the
    value of the item is, in absolute value, at most 500 times the larger
    of the two marginals it may use, since the weight it divides by is
    never below 1/500.  For [q <= 499/500] that weight is [1 - q]. *)
Theorem owen_update_bounded (u : Utility) (method : OwenAlgorithm) (q : R)
    (s : gset nat) (i : nat) (vals : list R) (old : R) :
  vals !! i = Some old →
  let indices : gset nat := list_to_set (data_indices u) in
  let direct := score_of u ({[i]} ∪ s) - score_of u s in
  let mirrored := score_of u ({[i]} ∪ indices ∖ s) - score_of u (indices ∖ s) in
  ∃ c,
    outcome (owen_update u method q s i vals) = Ok (<[i := old + c]> vals)
    ∧ Rabs c <= 500 * Rmax (Rabs direct) (Rabs mirrored)
    ∧ (q <= 499 / 500 → i ∉ s → c = direct / (1 - q)).
Proof.
  intros Hold indices direct mirrored.
  exists (owen_contribution u method q s i).
  split; [by apply owen_update_ok |].
  pose proof (owen_weight_pos q) as Hw.
  pose proof (Rabs_pos direct) as Hd. pose proof (Rabs_pos mirrored) as Hm.
  pose proof (Rmax_l (Rabs direct) (Rabs mirrored)) as Hl.
  pose proof (Rmax_r (Rabs direct) (Rabs mirrored)) as Hr.
  unfold owen_contribution. fold indices. fold direct. fold mirrored. split.
  - destruct (decide (i ∈ s)); [destruct method |].
    + rewrite Rabs_R0. lra.
    + pose proof (Rabs_div_weight mirrored _ Hw). lra.
    + pose proof (Rabs_div_weight direct _ Hw). lra.
  - intros Hq Hout. rewrite decide_False by done.
    rewrite Rmax_right by lra. done.
Qed.

Lemma owen_update_bounded_witness :
  ∃ c,
    outcome (owen_update u_count Full 1 ∅ 0 [0; 0]) = Ok (<[0%nat := 0 + c]> [0; 0])
    ∧ Rabs c
      <= 500 * Rmax (Rabs (score_of u_count ({[0%nat]} ∪ ∅) - score_of u_count ∅))
                    (Rabs (score_of u_count
                             ({[0%nat]} ∪ list_to_set (data_indices u_count) ∖ ∅)
                           - score_of u_count
                               (list_to_set (data_indices u_count) ∖ ∅))).
Proof.
  destruct (owen_update_bounded u_count Full 1 ∅ 0 [0; 0] 0) as (c & Hok & Hc & _).
  - reflexivity.
  - exists c. split; [exact Hok | exact Hc].
Defined.

(** X11. The values of [q] that [owen_sampling_shapley] hands to its
    workers lie between 0 and 1 in Full mode and between 0 and 1/2 in
    Halved mode; there are [max_q] of them and the first is 0.  In Halved
    mode the weight [max(1/500, 1 - q)] is therefore always [1 - q]. *)
Theorem owen_q_steps_range (method : OwenAlgorithm) (max_q : nat) (q : R) :
  q ∈ linspace (q_stop method) max_q →
  0 <= q <= q_stop method
  ∧ length (linspace (q_stop method) max_q) = max_q
  ∧ linspace (q_stop method) max_q !! 0%nat = Some 0
  ∧ (method = Halved → Rmax (1 / 500) (1 - q) = 1 - q).
Proof.
  intros Hq.
  assert (0 <= q_stop method <= 1) as Hstop by (destruct method; simpl; lra).
  assert (method = Halved → q_stop method = 1 / 2) as Hhalf by (by intros ->).
  assert (linspace (q_stop method) max_q !! 0%nat = Some 0) as Hfirst.
  { unfold linspace. rewrite list_lookup_fmap.
    apply list_elem_of_fmap in Hq as (k & _ & Hk%elem_of_seq).
    rewrite lookup_seq_lt by lia. simpl. f_equal. lra. }
  unfold linspace in Hq.
  apply list_elem_of_fmap in Hq as (k & -> & Hk%elem_of_seq).
  assert (0 <= INR k * (q_stop method / INR (max_q - 1)) <= q_stop method) as Hrange.
  { destruct (decide (max_q - 1 = 0)%nat) as [Hone|Hmore].
    - assert (k = 0%nat) as -> by lia. simpl. lra.
    - assert (0 < INR (max_q - 1)) as Hpos by (apply lt_0_INR; lia).
      assert (0 <= INR k <= INR (max_q - 1)) as Hk'.
      { split; [apply pos_INR | apply le_INR; lia]. }
      replace (INR k * (q_stop method / INR (max_q - 1)))
        with (q_stop method * (INR k / INR (max_q - 1))) by (field; lra).
      assert (0 <= INR k / INR (max_q - 1) <= 1) as Hfrac.
      { split.
        - apply Rmult_le_pos; [lra |]. apply Rlt_le. by apply Rinv_0_lt_compat.
        - apply (Rmult_le_reg_r (INR (max_q - 1))); [done |].
          replace (INR k / INR (max_q - 1) * INR (max_q - 1)) with (INR k)
            by (field; lra).
          lra. }
      nra. }
  split; [done |]. split; [apply length_linspace |]. split; [done |].
  intros Hmethod. rewrite (Hhalf Hmethod) in Hrange |- *.
  apply Rmax_right. lra.
Qed.

Lemma owen_q_steps_range_witness :
  0 <= INR 1 * (q_stop Halved / INR (3 - 1)) <= q_stop Halved
  ∧ length (linspace (q_stop Halved) 3) = 3%nat
  ∧ linspace (q_stop Halved) 3 !! 0%nat = Some 0
  ∧ (Halved = Halved →
     Rmax (1 / 500) (1 - INR 1 * (q_stop Halved / INR (3 - 1)))
     = 1 - INR 1 * (q_stop Halved / INR (3 - 1))).
Proof.
  apply (owen_q_steps_range Halved 3).
  unfold linspace. apply list_elem_of_fmap. exists 1%nat. split; [done |].
  apply elem_of_seq. lia.
Defined.

(** ** The polling loop of the truncated estimator *)

Lemma count_polls_app (l1 l2 : list Truncated.step) :
  count_polls (l1 ++ l2) = (count_polls l1 + count_polls l2)%nat.
Proof. unfold count_polls. by rewrite fmap_app, sum_list_with_app. Qed.

Lemma count_polls_workers (f : nat → Truncated.step) (l : list nat) :
  (∀ k, f k ≠ Truncated.Polled) → count_polls (f <$> l) = 0%nat.
Proof.
  intros Hf. unfold count_polls. induction l as [|k l IH]; [done |].
  rewrite !fmap_cons. cbn [sum_list sum_list_with]. rewrite IH.
  specialize (Hf k). by destruct (f k).
Qed.

(** A loop that ends has just been told that the run is done, and had been
    told otherwise at every earlier poll. *)
Lemma polling_loop_done (clock : nat → R) (snapshot : nat → Truncated.Snapshot)
    (c : Truncated.ShapleyCoordinator) (frequency : R) (fuel readings polls : nat)
    (last_update_time : R) (steps : list Truncated.step) (polls' : nat) :
  Truncated.polling_loop clock snapshot fuel c frequency readings polls
    last_update_time = Some (steps, polls') →
  (polls < polls')%nat
  ∧ count_polls steps = (polls' - polls)%nat
  ∧ Truncated.check_done c (snapshot (polls' - 1)%nat) = true
  ∧ ∀ k, (polls ≤ k < polls' - 1)%nat → Truncated.check_done c (snapshot k) = false.
Proof.
  revert readings polls last_update_time steps polls'.
  induction fuel as [|fuel IH]; intros readings polls last_update_time steps polls';
    [done |].
  cbn [Truncated.polling_loop].
  destruct (decide _) as [Hdue|Hwait].
  - destruct (Truncated.check_done c (snapshot polls)) eqn:Hdone.
    + intros [= <- <-].
      replace (S polls - 1)%nat with polls by lia.
      split; [lia |]. split; [unfold count_polls; simpl; lia |].
      split; [done |]. intros k Hk. lia.
    + destruct (Truncated.polling_loop _ _ fuel _ _ _ _ _) as [[steps0 polls0]|]
        eqn:Hrest; [|done].
      cbn. intros [= <- <-].
      destruct (IH _ _ _ _ _ Hrest) as (Hlt & Hcount & Hlast & Hearlier).
      split; [lia |]. split.
      * change (Truncated.Slept :: Truncated.Polled :: steps0)
          with ([Truncated.Slept; Truncated.Polled] ++ steps0).
        rewrite count_polls_app, Hcount. unfold count_polls. simpl. lia.
      * split; [done |]. intros k Hk.
        destruct (decide (k = polls)) as [->|Hne]; [done |].
        apply Hearlier. lia.
  - destruct (Truncated.polling_loop _ _ fuel _ _ _ _ _) as [[steps0 polls0]|]
      eqn:Hrest; [|done].
    cbn. intros [= <- <-].
    destruct (IH _ _ _ _ _ Hrest) as (Hlt & Hcount & Hlast & Hearlier).
    split; [done |]. split; [|done].
    change (Truncated.Slept :: steps0) with ([Truncated.Slept] ++ steps0).
    rewrite count_polls_app, Hcount. unfold count_polls. simpl. lia.
Qed.

(** X12. When [truncated_montecarlo_shapley] returns a result, the factory
    had returned a coordinator, every worker was created and started
    before the first poll, the last of its polls was answered done and
    every earlier poll was answered not done, and the result is read from
    the coordinator after that last poll. *)
Theorem truncated_returns_after_done (clock : nat → R)
    (snapshot : nat → Truncated.Snapshot)
    (make_coordinator : option R → option Z → result Truncated.ShapleyCoordinator)
    (fuel : nat) (u : Utility) (value_tolerance : option R)
    (max_iterations : option Z) (n_jobs : nat) (coordinator_update_frequency : R)
    (steps : list Truncated.step) (res : gmap string R * gmap string R) :
  Truncated.truncated_montecarlo_shapley clock snapshot make_coordinator fuel u
    value_tolerance max_iterations n_jobs coordinator_update_frequency
  = Some (steps, Ok res) →
  ∃ c loop_steps,
    make_coordinator value_tolerance max_iterations = Ok c
    ∧ steps = (Truncated.WorkerCreated <$> seq 0 n_jobs)
              ++ (Truncated.WorkerStarted <$> seq 0 n_jobs) ++ loop_steps
    ∧ (1 ≤ count_polls steps)%nat
    ∧ count_polls steps = count_polls loop_steps
    ∧ Truncated.check_done c (snapshot (count_polls steps - 1)%nat) = true
    ∧ (∀ k, (k < count_polls steps - 1)%nat →
         Truncated.check_done c (snapshot k) = false)
    ∧ res = (dict_of_names u (Truncated.current_values (snapshot (count_polls steps))),
             dict_of_names u (Truncated.current_stderr (snapshot (count_polls steps)))).
Proof.
  unfold Truncated.truncated_montecarlo_shapley.
  destruct (make_coordinator value_tolerance max_iterations) as [c|e]; [|by intros [=]].
  destruct (Truncated.polling_loop _ _ fuel _ _ _ _ _) as [[loop_steps polls]|]
    eqn:Hloop; [|done].
  cbn. intros [= <- <-].
  destruct (polling_loop_done _ _ _ _ _ _ _ _ _ _ Hloop)
    as (Hlt & Hcount & Hlast & Hearlier).
  exists c, loop_steps. split; [done |]. split; [done |].
  assert (count_polls ((Truncated.WorkerCreated <$> seq 0 n_jobs)
                       ++ (Truncated.WorkerStarted <$> seq 0 n_jobs) ++ loop_steps)
          = polls) as Htotal.
  { rewrite !count_polls_app, !count_polls_workers by done. lia. }
  rewrite Htotal. split; [lia |]. split; [lia |]. split; [done |].
  split; [|done]. intros k Hk. apply Hearlier. lia.
Qed.

Lemma truncated_returns_after_done_witness :
  ∃ c loop_steps,
    Truncated.get_shapley_coordinator None (Some 5%Z) = Ok c
    ∧ [Truncated.WorkerCreated 0; Truncated.WorkerStarted 0;
       Truncated.Slept; Truncated.Polled]
      = (Truncated.WorkerCreated <$> seq 0 1)
        ++ (Truncated.WorkerStarted <$> seq 0 1) ++ loop_steps
    ∧ Truncated.check_done c (five_merged) = true.
Proof.
  destruct (truncated_returns_after_done (λ k, INR k * 11) (λ _, five_merged)
              Truncated.get_shapley_coordinator 1 u_count None (Some 5%Z) 1 10
              [Truncated.WorkerCreated 0; Truncated.WorkerStarted 0;
               Truncated.Slept; Truncated.Polled]
              (dict_of_names u_count [1; 2], dict_of_names u_count [0; 0]))
    as (c & loop_steps & Hc & Hsteps & _ & _ & Hdone & _).
  - unfold Truncated.truncated_montecarlo_shapley. cbn.
    rewrite decide_True by lra. reflexivity.
  - exists c, loop_steps. split; [exact Hc |]. split; [exact Hsteps | exact Hdone].
Defined.

(** ** The calls of the utility in Owen sampling *)

Lemma owen_update_trace (u : Utility) (method : OwenAlgorithm) (q : R)
    (s : gset nat) (i : nat) (vals : list R) :
  trace (owen_update u method q s i vals) = owen_calls u method s i.
Proof.
  unfold owen_update, owen_calls, add_item, get_item, set_item, call, tell.
  destruct (decide (i ∈ s)); [destruct method |].
  - by rewrite decide_True.
  - rewrite decide_False by done.
    destruct (vals !! i); [|done]. cbn. by destruct (decide _).
  - destruct (vals !! i); [|done]. cbn. by destruct (decide _).
Qed.

Lemma owen_calls_length (u : Utility) (method : OwenAlgorithm) (s : gset nat)
    (i : nat) :
  (length (owen_calls u method s i) ≤ 2)%nat
  ∧ (method = Halved → length (owen_calls u method s i) = 2%nat)
  ∧ (method = Full → i ∈ s → owen_calls u method s i = []).
Proof.
  unfold owen_calls. destruct (decide (i ∈ s)), method; simpl; repeat split; try done;
    try lia.
Qed.

(** X13. An Owen worker takes the subsets of a value of [q] one after the
    other and, for every subset, goes through the items of the dataset
    in order and calls the utility as the mode says: not at all for an
    item of the subset in Full mode, otherwise twice.  In Halved mode this
    makes exactly [2 * N] calls for every sampled subset, in Full mode at
    most as many. *)
Theorem owen_worker_calls (draws : nat → R → list (gset nat)) (q_values : list R)
    (u : Utility) (method : OwenAlgorithm) (max_iterations : Z) :
  let calls := trace (_owen_sampling_shapley draws q_values u method max_iterations) in
  let round (s : gset nat) :=
    Sampled s :: concat (owen_calls u method s <$> data_indices u) in
  calls
  = concat ((λ kq : nat * R,
               concat (round <$> owen_subsets draws u max_iterations (fst kq) (snd kq)))
              <$> enumerate q_values)
  ∧ (∀ s, (length (round s) ≤ 1 + 2 * data_len u)%nat)
  ∧ (method = Halved → ∀ s, length (round s) = (1 + 2 * data_len u)%nat)
  ∧ (method = Full → ∀ s i, i ∈ s → owen_calls u method s i = []).
Proof.
  intros calls round. split; [|split; [|split]].
  - destruct (owen_worker_ok draws q_values u method max_iterations)
      as (vals & Hok & _).
    subst calls. unfold _owen_sampling_shapley in *.
    apply outcome_bind_inv in Hok as (st & Hloop & _).
    rewrite (trace_bind_ok _ _ _ Hloop). cbn [trace fst mret M_ret].
    rewrite app_nil_r.
    eapply for_each_trace; [|exact Hloop].
    intros [k q] vs vs' _ Hsubsets. cbv zeta in *. cbn [fst snd].
    eapply for_each_trace; [|exact Hsubsets].
    intros s ws ws' _ Hround. rewrite outcome_tell in Hround.
    rewrite (trace_bind_ok _ _ tt) by done. cbn [trace tell fst app].
    unfold round. f_equal.
    eapply for_each_trace; [|exact Hround].
    intros i xs xs' _ _. apply owen_update_trace.
  - intros s. unfold round. cbn [length].
    assert (length (data_indices u) = data_len u) as Hn
      by (unfold data_indices; apply length_seq).
    pose proof (length_concat_le (owen_calls u method s <$> data_indices u) 2) as Hle.
    rewrite length_fmap, Hn in Hle.
    assert (∀ l, l ∈ owen_calls u method s <$> data_indices u → (length l ≤ 2)%nat)
      as Hall.
    { intros l (i & -> & _)%list_elem_of_fmap. apply owen_calls_length. }
    specialize (Hle Hall). lia.
  - intros Hmethod s. unfold round. cbn [length]. f_equal.
    rewrite length_concat_sum, <-list_fmap_compose.
    rewrite (sum_list_fmap_same 2).
    + unfold data_indices. rewrite length_seq. lia.
    + apply Forall_forall. intros i _. simpl. by apply owen_calls_length.
  - intros Hmethod s i Hi. by apply owen_calls_length.
Qed.

(** ** Indices outside the dataset *)

(** On a dataset of at most 522 items a round of the inner loop of the
    combinatorial worker raises nothing but [ZeroDivisionError] and
    [IndexError], keeps the lengths of the three arrays, and does not end
    normally for an index outside the arrays. *)
Lemma accumulate_marginal_cases (acc : R → R → R → R → R * R) (u : Utility)
    (idx : nat) (s : gset nat) (vals vars cnts : list R) :
  (data_len u ≤ 522)%nat →
  match outcome (accumulate_marginal acc u idx s (vals, vars, cnts)) with
  | Raise e => e = IndexError ∨ e = ZeroDivisionError
  | Ok (vals', vars', cnts') =>
      (idx < length vals)%nat
      ∧ length vals' = length vals ∧ length vars' = length vars
      ∧ length cnts' = length cnts
  end.
Proof.
  intros Hn. unfold accumulate_marginal.
  rewrite outcome_tell, !outcome_call.
  rewrite to_float_ok by (by apply comb_range).
  rewrite outcome_ret_bind.
  unfold divide, get_item, set_item.
  destruct (decide (INR _ = 0)); [by right |].
  rewrite outcome_ret_bind.
  destruct (vals !! idx) as [m|] eqn:Hm; [|by left].
  rewrite outcome_ret_bind.
  destruct (vars !! idx) as [v|]; [|by left].
  rewrite outcome_ret_bind.
  destruct (cnts !! idx) as [c|]; [|by left].
  rewrite outcome_ret_bind.
  destruct (acc _ _ _ _) as [nm nv].
  destruct (decide (idx < length vals)%nat); [|by left].
  rewrite outcome_ret_bind.
  destruct (decide (idx < length vars)%nat); [|by left].
  rewrite outcome_ret_bind.
  destruct (decide (idx < length cnts)%nat); [|by left].
  rewrite outcome_ret_bind. cbn [outcome snd mret M_ret].
  by rewrite !length_insert.
Qed.

Lemma inner_loop_cases (acc : R → R → R → R → R * R) (u : Utility) (idx : nat)
    (ss : list (gset nat)) (vals vars cnts : list R) :
  (data_len u ≤ 522)%nat →
  match outcome (for_each ss (accumulate_marginal acc u idx) (vals, vars, cnts)) with
  | Raise e => e = IndexError ∨ e = ZeroDivisionError
  | Ok (vals', vars', cnts') =>
      (ss ≠ [] → (idx < length vals)%nat)
      ∧ length vals' = length vals ∧ length vars' = length vars
      ∧ length cnts' = length cnts
  end.
Proof.
  intros Hn.
  revert vals vars cnts. induction ss as [|s ss IH]; intros vals vars cnts.
  - done.
  - cbn [for_each].
    pose proof (accumulate_marginal_cases acc u idx s vals vars cnts Hn) as Hfirst.
    destruct (outcome (accumulate_marginal acc u idx s (vals, vars, cnts)))
      as [[[vals1 vars1] cnts1]|e] eqn:Hout.
    + rewrite (outcome_bind_ok _ _ _ Hout).
      destruct Hfirst as (Hidx & Hv & Hw & Hc).
      specialize (IH vals1 vars1 cnts1).
      destruct (outcome (for_each ss _ _)) as [[[vals2 vars2] cnts2]|e]; [|done].
      destruct IH as (_ & Hv' & Hw' & Hc').
      split; [done |]. split; [congruence |]. split; congruence.
    + by rewrite (outcome_bind_raise _ _ _ Hout).
Qed.

(** X14. A combinatorial worker given distinct indices and a dataset of
    1 to 522 items does not return when one of its indices lies outside
    the dataset and at least one subset is sampled for it: it raises
    [IndexError] or [ZeroDivisionError]. *)
Theorem combinatorial_worker_index_out_of_range
    (get_running_avg_variance : R → R → R → R → R * R)
    (draws : nat → list (gset nat))
    (indices : list nat) (u : Utility) (max_iterations : Z) (idx : nat) :
  NoDup indices →
  (1 ≤ data_len u ≤ 522)%nat →
  idx ∈ indices →
  (data_len u ≤ idx)%nat →
  subsets_for draws u max_iterations idx ≠ [] →
  ∃ e,
    outcome (_combinatorial_montecarlo_shapley get_running_avg_variance draws
               indices u max_iterations) = Raise e
    ∧ (e = IndexError ∨ e = ZeroDivisionError).
Proof.
  intros Hnodup Hn Hin Hout Hsome. unfold _combinatorial_montecarlo_shapley.
  destruct (correction_range (data_len u) Hn) as [Hc _].
  rewrite decide_False by (by intros []; apply unique_length_iff).
  rewrite divide_ok by (apply not_0_INR; lia).
  rewrite outcome_ret_bind, (to_float_ok _ Hc), outcome_ret_bind.
  assert (∀ (l : list nat) (vals vars cnts : list R),
    idx ∈ l → length vals = data_len u →
    ∃ e,
      outcome (for_each l
        (λ idx st,
           let subset := setxor1d (list_to_set (data_indices u)) {[idx]} in
           let power_set := random_powerset (draws idx) subset max_iterations in
           for_each power_set (accumulate_marginal get_running_avg_variance u idx) st)
        (vals, vars, cnts)) = Raise e
      ∧ (e = IndexError ∨ e = ZeroDivisionError)) as Hloop.
  { induction l as [|a l IH]; intros vals vars cnts Hl Hlen; [by apply elem_of_nil in Hl |].
    cbn [for_each]. cbv zeta.
    pose proof (inner_loop_cases get_running_avg_variance u a
                  (subsets_for draws u max_iterations a) vals vars cnts
                  ltac:(lia)) as Hfirst.
    unfold subsets_for in Hfirst.
    destruct (outcome (for_each (random_powerset (draws a) _ max_iterations) _ _))
      as [[[vals1 vars1] cnts1]|e] eqn:Hbody.
    - rewrite (outcome_bind_ok _ _ _ Hbody).
      destruct Hfirst as (Hidx & Hv & _).
      apply elem_of_cons in Hl as [<-|Hl].
      + specialize (Hidx Hsome). lia.
      + apply IH; [done | congruence].
    - rewrite (outcome_bind_raise _ _ _ Hbody). by exists e. }
  destruct (Hloop indices (zeros (data_len u)) (zeros (data_len u))
              (zeros (data_len u)) Hin (length_zeros _)) as (e & He & Hkind).
  exists e. split; [|done]. by apply outcome_bind_raise.
Qed.

Lemma combinatorial_worker_index_out_of_range_witness :
  ∃ e,
    outcome (_combinatorial_montecarlo_shapley welford_update (λ _, [∅])
               [0%nat; 7%nat] u_count 1) = Raise e
    ∧ (e = IndexError ∨ e = ZeroDivisionError).
Proof.
  apply (combinatorial_worker_index_out_of_range welford_update (λ _, [∅])
           [0%nat; 7%nat] u_count 1 7).
  - apply NoDup_cons. split; [|apply NoDup_singleton].
    intros ?%list_elem_of_singleton. done.
  - simpl. lia.
  - right. by left.
  - simpl. lia.
  - discriminate.
Defined.

(** ** The end of the polling loop *)

Lemma clock_grows (clock : nat → R) (delta : R) :
  (∀ r, clock r + delta <= clock (S (S r))) →
  ∀ m r, clock r + INR m * delta <= clock (r + 2 * m)%nat.
Proof.
  intros Hstep. induction m as [|m IH]; intros r.
  - rewrite Nat.add_0_r. simpl. lra.
  - replace (r + 2 * S m)%nat with (S (S (r + 2 * m))) by lia.
    pose proof (IH r). pose proof (Hstep (r + 2 * m)%nat).
    rewrite S_INR. lra.
Qed.

Lemma clock_unbounded (clock : nat → R) (delta : R) :
  0 < delta →
  (∀ r, clock r + delta <= clock (S (S r))) →
  ∀ r x, ∃ j, x < clock (r + j)%nat.
Proof.
  intros Hdelta Hstep r x.
  set (y := (x - clock r) / delta).
  destruct (archimed y) as [Hup _].
  exists (2 * Z.to_nat (up y))%nat.
  pose proof (clock_grows clock delta Hstep (Z.to_nat (up y)) r) as Hgrow.
  assert (y < INR (Z.to_nat (up y))) as Hy.
  { rewrite INR_IZR_INZ. eapply Rlt_le_trans; [exact Hup |].
    apply IZR_le. lia. }
  assert (x - clock r < INR (Z.to_nat (up y)) * delta) as Hx.
  { replace (x - clock r) with (y * delta) by (unfold y; field; lra).
    by apply Rmult_lt_compat_r. }
  lra.
Qed.

(** The loop ends once the coordinator answers done from some poll on,
    provided that two readings of the clock that are two apart differ by
    at least [delta]. *)
Lemma polling_loop_ends (clock : nat → R) (snapshot : nat → Truncated.Snapshot)
    (c : Truncated.ShapleyCoordinator) (frequency delta : R) (first_done : nat) :
  0 < delta →
  (∀ r, clock r + delta <= clock (S (S r))) →
  (∀ k, (first_done ≤ k)%nat → Truncated.check_done c (snapshot k) = true) →
  ∀ remaining readings polls last_update_time,
    (first_done ≤ polls + remaining)%nat →
    ∃ fuel steps polls',
      Truncated.polling_loop clock snapshot fuel c frequency readings polls
        last_update_time = Some (steps, polls')
      ∧ (polls' ≤ polls + remaining + 1)%nat.
Proof.
  intros Hdelta Hstep Hdone.
  induction remaining as [|remaining IHr]; intros readings polls last Hleft.
  - destruct (clock_unbounded clock delta Hdelta Hstep readings (frequency + last))
      as [j Hj].
    revert readings Hj. induction j as [|j IHj]; intros readings Hj.
    + exists 1%nat. eexists _, _. cbn [Truncated.polling_loop].
      rewrite Nat.add_0_r in Hj.
      rewrite decide_True by lra. rewrite Hdone by lia.
      split; [done | lia].
    + destruct (decide (frequency < clock readings - last)) as [Hdue|Hwait].
      * exists 1%nat. eexists _, _. cbn [Truncated.polling_loop].
        rewrite decide_True by done. rewrite Hdone by lia. split; [done | lia].
      * destruct (IHj (S readings)) as (fuel & steps & polls' & Hloop & Hle).
        { by replace (S readings + j)%nat with (readings + S j)%nat by lia. }
        exists (S fuel). eexists _, _. cbn [Truncated.polling_loop].
        rewrite decide_False by done. rewrite Hloop. cbn. split; [done | lia].
  - destruct (clock_unbounded clock delta Hdelta Hstep readings (frequency + last))
      as [j Hj].
    revert readings Hj. induction j as [|j IHj]; intros readings Hj.
    + rewrite Nat.add_0_r in Hj.
      destruct (Truncated.check_done c (snapshot polls)) eqn:Hnow.
      * exists 1%nat. eexists _, _. cbn [Truncated.polling_loop].
        rewrite decide_True by lra. rewrite Hnow. split; [done | lia].
      * destruct (IHr (S (S readings)) (S polls) (clock (S readings)))
          as (fuel & steps & polls' & Hloop & Hle); [lia |].
        exists (S fuel). eexists _, _. cbn [Truncated.polling_loop].
        rewrite decide_True by lra. rewrite Hnow, Hloop. cbn. split; [done | lia].
    + destruct (decide (frequency < clock readings - last)) as [Hdue|Hwait].
      * destruct (Truncated.check_done c (snapshot polls)) eqn:Hnow.
        -- exists 1%nat. eexists _, _. cbn [Truncated.polling_loop].
           rewrite decide_True by done. rewrite Hnow. split; [done | lia].
        -- destruct (IHr (S (S readings)) (S polls) (clock (S readings)))
             as (fuel & steps & polls' & Hloop & Hle); [lia |].
           exists (S fuel). eexists _, _. cbn [Truncated.polling_loop].
           rewrite decide_True by done. rewrite Hnow, Hloop. cbn.
           split; [done | lia].
      * destruct (IHj (S readings)) as (fuel & steps & polls' & Hloop & Hle).
        { by replace (S readings + j)%nat with (readings + S j)%nat by lia. }
        exists (S fuel). eexists _, _. cbn [Truncated.polling_loop].
        rewrite decide_False by done. rewrite Hloop. cbn. split; [done | lia].
Qed.

(** X15. When the factory returns a coordinator that answers done from its
    poll number [first_done] on, and two readings of the clock that are two
    apart differ by at least [delta > 0] (the loop sleeps in every round),
    then [truncated_montecarlo_shapley] returns a result after finitely
    many rounds and at most [first_done + 1] polls. *)
Theorem truncated_terminates (clock : nat → R)
    (snapshot : nat → Truncated.Snapshot)
    (make_coordinator : option R → option Z → result Truncated.ShapleyCoordinator)
    (u : Utility) (value_tolerance : option R) (max_iterations : option Z)
    (n_jobs : nat) (coordinator_update_frequency delta : R)
    (c : Truncated.ShapleyCoordinator) (first_done : nat) :
  make_coordinator value_tolerance max_iterations = Ok c →
  0 < delta →
  (∀ r, clock r + delta <= clock (S (S r))) →
  (∀ k, (first_done ≤ k)%nat → Truncated.check_done c (snapshot k) = true) →
  ∃ fuel steps res,
    Truncated.truncated_montecarlo_shapley clock snapshot make_coordinator fuel u
      value_tolerance max_iterations n_jobs coordinator_update_frequency
    = Some (steps, Ok res)
    ∧ (count_polls steps ≤ first_done + 1)%nat.
Proof.
  intros Hc Hdelta Hstep Hdone.
  destruct (polling_loop_ends clock snapshot c coordinator_update_frequency delta
              first_done Hdelta Hstep Hdone first_done 1%nat 0%nat (clock 0%nat))
    as (fuel & steps & polls & Hloop & Hle); [lia |].
  exists fuel. unfold Truncated.truncated_montecarlo_shapley.
  rewrite Hc, Hloop. cbn. eexists _, _. split; [done |].
  destruct (polling_loop_done _ _ _ _ _ _ _ _ _ _ Hloop) as (_ & Hcount & _).
  rewrite !count_polls_app, !count_polls_workers by done. lia.
Qed.

Lemma truncated_terminates_witness :
  ∃ fuel steps res,
    Truncated.truncated_montecarlo_shapley (λ k, INR k * 11) (λ _, five_merged)
      Truncated.get_shapley_coordinator fuel u_count None (Some 5%Z) 2 10
    = Some (steps, Ok res)
    ∧ (count_polls steps ≤ 0 + 1)%nat.
Proof.
  apply (truncated_terminates (λ k, INR k * 11) (λ _, five_merged)
           Truncated.get_shapley_coordinator u_count None (Some 5%Z) 2 10 11
           {| Truncated.value_tolerance := None;
              Truncated.max_iterations := Some 5%Z |} 0).
  - reflexivity.
  - lra.
  - intros r. rewrite !S_INR. lra.
  - intros k _. reflexivity.
Defined.

(** ** Owen sampling of an additive utility *)

Lemma owen_contribution_additive (u : Utility) (w : nat → R) (q : R)
    (s : gset nat) (i : nat) :
  additive u w →
  owen_contribution u Halved q s i = w i / Rmax (1 / 500) (1 - q)
  ∧ owen_contribution u Full q s i
    = if decide (i ∈ s) then 0 else w i / Rmax (1 / 500) (1 - q).
Proof.
  intros [_ Hadd]. unfold owen_contribution.
  destruct (decide (i ∈ s)) as [Hin|Hout].
  - split; [|done]. rewrite Hadd.
    + f_equal. lra.
    + intros [_ Hnot]%elem_of_difference. done.
  - rewrite Hadd by done. split; f_equal; lra.
Qed.

Lemma sum_R_const {A} (l : list A) (c : R) :
  sum_R ((λ _, c) <$> l) = INR (length l) * c.
Proof.
  induction l as [|x l IH]; [unfold sum_R; simpl; lra |].
  rewrite fmap_cons. cbn [length]. rewrite S_INR.
  unfold sum_R in *. cbn [foldr]. rewrite IH. lra.
Qed.

Lemma sum_R_factor {A} (l : list A) (f : A → R) (c : R) :
  sum_R ((λ x, c * f x) <$> l) = c * sum_R (f <$> l).
Proof.
  induction l as [|x l IH]; [unfold sum_R; simpl; lra |].
  rewrite !fmap_cons. unfold sum_R in *. cbn [foldr]. rewrite IH. lra.
Qed.

(** X16. On a utility that is the sum of the weights of the items of the
    subset, every subset an Owen worker samples in Halved mode adds to
    the value of every item the weight of the item divided by
    [max(1/500, 1 - q)], whatever the subset holds; so the value the worker
    returns for an item is the weight of the item times a factor that
    depends only on how many subsets were sampled for each [q]. *)
Theorem owen_halved_additive (draws : nat → R → list (gset nat)) (q_values : list R)
    (u : Utility) (w : nat → R) (max_iterations : Z) :
  additive u w →
  ∃ r,
    outcome (_owen_sampling_shapley draws q_values u Halved max_iterations) = Ok r
    ∧ ∀ i, (i < data_len u)%nat →
        values r !! i
        = Some (w i * sum_R ((λ kq : nat * R,
                                INR (length (owen_subsets draws u max_iterations
                                               (fst kq) (snd kq)))
                                / Rmax (1 / 500) (1 - snd kq))
                               <$> enumerate q_values)).
Proof.
  intros Hadd.
  destruct (owen_worker_ok draws q_values u Halved max_iterations)
    as (vals & Hok & _ & Hsum).
  eexists. split; [exact Hok |]. intros i Hi. cbn [values].
  rewrite (Hsum i Hi). f_equal. unfold owen_sum.
  rewrite <-sum_R_factor. f_equal. apply list_fmap_ext. intros _ [k q] _.
  cbn [fst snd].
  rewrite (list_fmap_ext _ (λ _, w i / Rmax (1 / 500) (1 - q))).
  - rewrite sum_R_const. unfold Rdiv. ring.
  - intros _ s _. by apply owen_contribution_additive.
Qed.

Lemma owen_halved_additive_witness :
  ∃ r,
    outcome (_owen_sampling_shapley (λ _ _, [{[0%nat]}; ∅]) [0; 1 / 2] u_count
               Halved 2) = Ok r
    ∧ ∀ i, (i < data_len u_count)%nat →
        values r !! i
        = Some ((λ _, 1) i
                * sum_R ((λ kq : nat * R,
                            INR (length (owen_subsets (λ _ _, [{[0%nat]}; ∅]) u_count 2
                                           (fst kq) (snd kq)))
                            / Rmax (1 / 500) (1 - snd kq))
                           <$> enumerate [0; 1 / 2])).
Proof.
  apply (owen_halved_additive (λ _ _, [{[0%nat]}; ∅]) [0; 1 / 2] u_count (λ _, 1) 2).
  apply u_count_additive.
Defined.

(** ** Datasets that are empty or too large *)

Lemma float_overflow_bound_pos : 0 < float_overflow_bound.
Proof. rewrite float_overflow_bound_IZR. apply IZR_lt. by vm_compute. Qed.

Lemma to_float_overflow (x : R) :
  float_overflow_bound <= x → to_float x = raise OverflowError.
Proof.
  intros Hx. pose proof float_overflow_bound_pos.
  unfold to_float. rewrite Rabs_right by lra. by rewrite decide_True.
Qed.

(** A power of two that exceeds a multiple of its exponent keeps
    exceeding it. *)
Lemma pow2_dominates (p : R) (a : nat) :
  0 <= p → p * INR (S a) <= 2 ^ a →
  ∀ m, p * INR (S (a + m)) <= 2 ^ (a + m).
Proof.
  intros Hp Hbase. induction m as [|m IH].
  - by rewrite Nat.add_0_r.
  - replace (a + S m)%nat with (S (a + m)) by lia.
    change (2 ^ S (a + m)) with (2 * 2 ^ (a + m)).
    rewrite (S_INR (S (a + m))).
    assert (1 <= INR (S (a + m))) by (rewrite S_INR; pose proof (pos_INR (a + m)); lra).
    nra.
Qed.

Lemma correction_from_523 (n : nat) :
  (523 ≤ n)%nat → 2 ^ 512 <= 2 ^ (n - 1) / INR n.
Proof.
  intros Hn.
  assert (0 < INR n) as Hpos by (apply lt_0_INR; lia).
  assert (2 ^ 512 * INR n <= 2 ^ (n - 1)) as Hle.
  { replace n with (S (522 + (n - 523))) at 1 by lia.
    replace (n - 1)%nat with (522 + (n - 523))%nat by lia.
    apply pow2_dominates; [apply pow_le; lra |].
    rewrite !pow2_IZR, INR_IZR_INZ, <-mult_IZR. apply IZR_le. by vm_compute. }
  apply (Rmult_le_reg_r (INR n)); [done |].
  unfold Rdiv. rewrite Rmult_assoc, Rinv_l by lra. lra.
Qed.

Lemma correction_from_1036 (n : nat) :
  (1036 ≤ n)%nat → float_overflow_bound <= 2 ^ (n - 1) / INR n.
Proof.
  intros Hn.
  assert (0 < INR n) as Hpos by (apply lt_0_INR; lia).
  assert (float_overflow_bound * INR n <= 2 ^ (n - 1)) as Hle.
  { replace n with (S (1035 + (n - 1036))) at 1 by lia.
    replace (n - 1)%nat with (1035 + (n - 1036))%nat by lia.
    apply pow2_dominates; [pose proof float_overflow_bound_pos; lra |].
    rewrite float_overflow_bound_IZR, pow2_IZR, INR_IZR_INZ, <-mult_IZR.
    apply IZR_le. by vm_compute. }
  apply (Rmult_le_reg_r (INR n)); [done |].
  unfold Rdiv. rewrite Rmult_assoc, Rinv_l by lra. lra.
Qed.

Lemma correction_squared_from_523 (n : nat) :
  (523 ≤ n)%nat → float_overflow_bound <= (2 ^ (n - 1) / INR n) ^ 2.
Proof.
  intros Hn. pose proof (correction_from_523 n Hn) as Hc.
  assert (0 < 2 ^ 512) as Hp by (apply pow_lt; lra).
  assert (0 < 2 ^ 970) as Hq by (apply pow_lt; lra).
  assert ((2 ^ 512) ^ 2 = 2 ^ 1024) as Hsq by (by rewrite <-pow_mult).
  unfold float_overflow_bound. rewrite <-Hsq.
  set (p := 2 ^ 512) in *. set (c := 2 ^ (n - 1) / INR n) in *.
  set (q := 2 ^ 970) in *. nra.
Qed.

(** X17. On a dataset of 523 items or more a combinatorial worker never
    returns a result: the square of the correction [2^(N-1) / N] is no
    float, so that [correction**2] raises [OverflowError] when the loops
    are through; with a budget [max_iterations <= 0] and distinct indices
    this is what the worker ends with, having sampled no subset.  From
    1036 items on the correction itself is no float, and the worker, given
    distinct indices, raises [OverflowError] before it samples a subset or
    calls the utility. *)
Theorem combinatorial_worker_overflow
    (get_running_avg_variance : R → R → R → R → R * R)
    (draws : nat → list (gset nat))
    (indices : list nat) (u : Utility) (max_iterations : Z) :
  (523 ≤ data_len u)%nat →
  let worker := _combinatorial_montecarlo_shapley get_running_avg_variance draws in
  (∀ r, outcome (worker indices u max_iterations) ≠ Ok r)
  ∧ (NoDup indices → (max_iterations ≤ 0)%Z →
     worker indices u max_iterations = ([], Raise OverflowError))
  ∧ (NoDup indices → (1036 ≤ data_len u)%nat →
     worker indices u max_iterations = ([], Raise OverflowError)).
Proof.
  intros Hn worker.
  pose proof (correction_squared_from_523 (data_len u) Hn) as Hsq.
  assert (INR (data_len u) ≠ 0) as Hpos by (apply not_0_INR; lia).
  subst worker. unfold _combinatorial_montecarlo_shapley. split; [|split].
  - intros r. destruct (decide _); [done |].
    rewrite divide_ok by done. rewrite M_ret_bind.
    destruct (to_float_cases (2 ^ (data_len u - 1) / INR (data_len u))) as [-> | ->];
      [|done].
    rewrite M_ret_bind.
    intros ([[vals vars] cnts] & _ & Hret)%outcome_bind_inv.
    cbv beta iota in Hret. by rewrite (to_float_overflow _ Hsq) in Hret.
  - intros Hnodup Hbudget.
    rewrite decide_False by (by intros []; apply unique_length_iff).
    rewrite divide_ok by done. rewrite M_ret_bind.
    destruct (to_float_cases (2 ^ (data_len u - 1) / INR (data_len u))) as [-> | ->];
      [|done].
    rewrite M_ret_bind, for_each_nothing.
    2:{ intros idx st _. cbv zeta. unfold random_powerset.
        by replace (Z.to_nat max_iterations) with 0%nat by lia. }
    rewrite M_ret_bind. cbv beta iota. by rewrite (to_float_overflow _ Hsq).
  - intros Hnodup Hlarge.
    rewrite decide_False by (by intros []; apply unique_length_iff).
    rewrite divide_ok by done. rewrite M_ret_bind.
    by rewrite (to_float_overflow _ (correction_from_1036 _ Hlarge)).
Qed.

Lemma combinatorial_worker_overflow_witness :
  _combinatorial_montecarlo_shapley welford_update (λ _, [∅]) [0%nat]
    {| data_len := 1036; data_names := λ _, "item"%string; score_of := λ _, 0 |} 1
  = ([], Raise OverflowError).
Proof.
  destruct (combinatorial_worker_overflow welford_update (λ _, [∅]) [0%nat]
              {| data_len := 1036; data_names := λ _, "item"%string;
                 score_of := λ _, 0 |} 1) as (_ & _ & Hlarge).
  - cbn [data_len]. lia.
  - apply Hlarge; [apply NoDup_singleton | cbn [data_len]; lia].
Defined.

(** X18. On an empty dataset a combinatorial worker given distinct
    indices raises [ZeroDivisionError], from the division by [n] in the
    correction, before it samples a subset or calls the utility. *)
Theorem combinatorial_worker_empty_dataset
    (get_running_avg_variance : R → R → R → R → R * R)
    (draws : nat → list (gset nat))
    (indices : list nat) (u : Utility) (max_iterations : Z) :
  data_len u = 0%nat →
  NoDup indices →
  _combinatorial_montecarlo_shapley get_running_avg_variance draws indices u
    max_iterations
  = ([], Raise ZeroDivisionError).
Proof.
  intros Hn Hnodup. unfold _combinatorial_montecarlo_shapley.
  rewrite decide_False by (by intros []; apply unique_length_iff).
  unfold divide. rewrite Hn. by rewrite decide_True.
Qed.

Lemma combinatorial_worker_empty_dataset_witness :
  _combinatorial_montecarlo_shapley welford_update (λ _, [∅]) []
    {| data_len := 0; data_names := λ _, "item"%string; score_of := λ _, 0 |} 1
  = ([], Raise ZeroDivisionError).
Proof.
  apply (combinatorial_worker_empty_dataset welford_update (λ _, [∅]) []
           {| data_len := 0; data_names := λ _, "item"%string; score_of := λ _, 0 |} 1).
  - reflexivity.
  - apply NoDup_nil_2.
Defined.

